(** * EconGraph schema-consolidation scripts: a shallow embedding

    Source files embedded here:
    - [backend/scripts/create_consolidated_migration.py]
      ([extract_ddl_statements], [generate_consolidated_migration], [main]);
    - [backend/scripts/check_migration_order.py]
      ([parse_migration_filename], [get_migration_files],
       [check_migration_order], [check_for_duplicate_timestamps],
       [check_migration_naming_conventions], [main]).

    Python [str] values are lists of characters.  A character is a code
    point below 256 (type [ascii]); the classes [\w], [\s] and
    [str.isspace] are the ones Python uses on that range. *)

From Stdlib Require Import List Ascii String Arith Lia Bool Sorted Permutation.
Import ListNotations.
Open Scope list_scope.

(** ** Text *)

Definition text := list ascii.

Definition lit (s : string) : text := list_ascii_of_string s.

Definition code (c : ascii) : nat := nat_of_ascii c.

Definition between (lo hi : nat) (c : ascii) : bool :=
  (lo <=? code c) && (code c <=? hi).

Definition is_char (d c : ascii) : bool := Ascii.eqb c d.
Definition not_char (d c : ascii) : bool := negb (Ascii.eqb c d).

Definition nl : ascii := "010"%char.

(** [\w] of a [str] pattern: alphanumeric code points and the underscore. *)
Definition is_word (c : ascii) : bool :=
  between 48 57 c || between 65 90 c || between 97 122 c || (code c =? 95)
  || (code c =? 170) || (code c =? 178) || (code c =? 179) || (code c =? 181)
  || (code c =? 185) || (code c =? 186) || between 188 190 c
  || between 192 214 c || between 216 246 c || between 248 255 c.

(** [\s] of a [str] pattern, which is also [str.isspace]. *)
Definition is_space (c : ascii) : bool :=
  between 9 13 c || between 28 32 c || (code c =? 133) || (code c =? 160).

(** [[a-z]], [[a-z0-9_]] and [[a-z0-9]] of the naming convention. *)
Definition is_lower (c : ascii) : bool := between 97 122 c.
Definition is_digit (c : ascii) : bool := between 48 57 c.
Definition is_lower_digit_us (c : ascii) : bool :=
  is_lower c || is_digit c || (code c =? 95).
Definition is_lower_digit (c : ascii) : bool := is_lower c || is_digit c.

(** [str.strip()] *)
Fixpoint lstrip (s : text) : text :=
  match s with
  | c :: s' => if is_space c then lstrip s' else s
  | [] => []
  end.

Definition rstrip (s : text) : text := rev (lstrip (rev s)).

Definition strip (s : text) : text := rstrip (lstrip s).

(** [str.split(sep)] for a one-character separator: never empty. *)
Fixpoint split (sep : ascii) (s : text) : list text :=
  match s with
  | [] => [[]]
  | c :: s' =>
      if Ascii.eqb c sep then [] :: split sep s'
      else match split sep s' with
           | [] => [[c]]
           | w :: ws => (c :: w) :: ws
           end
  end.

(** [sep.join(parts)] *)
Fixpoint join (sep : text) (parts : list text) : text :=
  match parts with
  | [] => []
  | [p] => p
  | p :: ps => p ++ sep ++ join sep ps
  end.

(** ** Exceptions *)

Inductive exn := IndexError.

Inductive except (A : Type) :=
| Ok (a : A)
| Raise (e : exn).
Arguments Ok {A} a.
Arguments Raise {A} e.

Definition bind {A B} (x : except A) (f : A -> except B) : except B :=
  match x with
  | Ok a => f a
  | Raise e => Raise e
  end.

Notation "x <- e1 ;; e2" := (bind e1 (fun x => e2))
  (at level 61, e1 at next level, right associativity).

(** A [for] loop whose body may raise: the first exception ends it. *)
Fixpoint for_each {A B} (f : A -> except B) (l : list A) : except (list B) :=
  match l with
  | [] => Ok []
  | a :: l' => b <- f a ;; bs <- for_each f l' ;; Ok (b :: bs)
  end.

(** ** The regular expressions of the scripts

    Backtracking matcher in continuation style, with Python's priorities:
    a repetition tries the longest run first, an optional group is tried
    before it is skipped. *)

Module Re.

Inductive regex :=
| Lit (s : text)                    (* literal characters *)
| One (cls : ascii -> bool)         (* one character of a class *)
| Star (cls : ascii -> bool)        (* [cls*], greedy *)
| Plus (cls : ascii -> bool)        (* [cls+], greedy *)
| Cat (r1 r2 : regex)
| Grp (r : regex)                   (* capturing group [( ... )] *)
| Opt (r : regex)                   (* [(?: ... )?], greedy *)
| Eos.                              (* [$] without MULTILINE *)

(** Number of capturing groups of a pattern. *)
Fixpoint ngroups (r : regex) : nat :=
  match r with
  | Cat r1 r2 => ngroups r1 + ngroups r2
  | Grp r' => S (ngroups r')
  | Opt r' => ngroups r'
  | _ => 0
  end.

Fixpoint match_lit (l s : text) : option text :=
  match l, s with
  | [], _ => Some s
  | a :: l', c :: s' => if Ascii.eqb a c then match_lit l' s' else None
  | _ :: _, [] => None
  end.

Section Matcher.
Variable R : Type.

(** Greedy run of [cls]: longest first, then shorter ones. *)
Fixpoint star (cls : ascii -> bool) (s : text) (k : text -> option R) : option R :=
  match s with
  | c :: s' =>
      if cls c then
        match star cls s' k with
        | Some r => Some r
        | None => k s
        end
      else k s
  | [] => k s
  end.

(** [run r s caps k]: match [r] at the head of [s], with the groups closed
    so far in [caps]; [k] continues on the rest of the input. *)
Fixpoint run (r : regex) (s : text) (caps : list text)
         (k : text -> list text -> option R) : option R :=
  match r with
  | Lit l => match match_lit l s with Some s' => k s' caps | None => None end
  | One cls => match s with
               | c :: s' => if cls c then k s' caps else None
               | [] => None
               end
  | Star cls => star cls s (fun s' => k s' caps)
  | Plus cls => match s with
                | c :: s' => if cls c then star cls s' (fun s'' => k s'' caps) else None
                | [] => None
                end
  | Cat r1 r2 => run r1 s caps (fun s' caps' => run r2 s' caps' k)
  | Grp r' =>
      run r' s caps
          (fun s' caps' => k s' (caps' ++ [firstn (List.length s - List.length s') s]))
  | Opt r' => match run r' s caps k with
              | Some x => Some x
              | None => k s caps
              end
  | Eos => match s with
           | [] => k s caps
           | [c] => if Ascii.eqb c nl then k s caps else None
           | _ => None
           end
  end.
End Matcher.

(** Match at the head of [s]: the groups and the rest of the input. *)
Definition match_here (r : regex) (s : text) : option (list text * text) :=
  run _ r s [] (fun s' caps => Some (caps, s')).

(** A match object: where it starts, how long it is, its groups, and the
    number of groups of its pattern. *)
Record match_obj := {
  m_start : nat;
  m_len : nat;
  m_groups : list text;
  m_ngroups : nat
}.

(** [Match.group(n)], [n >= 1]: a number above the pattern's group count
    raises [IndexError: no such group]. *)
Definition group (m : match_obj) (n : nat) : except text :=
  if n <=? m_ngroups m then Ok (nth (n - 1) (m_groups m) [])
  else Raise IndexError.

(** [re.finditer]: scan left to right; after a match the scan resumes at its
    end.  [skip] counts the characters still covered by the last match,
    [pos] is the offset of [s] in the whole input.  No pattern of the scripts
    matches the empty string, so a match always moves the scan forward. *)
Fixpoint scan (r : regex) (skip pos : nat) (s : text) : list match_obj :=
  match s with
  | [] => []
  | _ :: s' =>
      match skip with
      | S n => scan r n (S pos) s'
      | O =>
          match match_here r s with
          | Some (caps, rest) =>
              let len := List.length s - List.length rest in
              {| m_start := pos; m_len := len; m_groups := caps;
                 m_ngroups := ngroups r |}
                :: scan r (len - 1) (S pos) s'
          | None => scan r O (S pos) s'
          end
      end
  end.

Definition finditer (r : regex) (s : text) : list match_obj := scan r 0 0 s.

(** [re.match]: at the start of the input only. *)
Definition matches (r : regex) (s : text) : bool :=
  match match_here r s with Some _ => true | None => false end.

End Re.

Import Re.

(** Concatenation of a sequence of pattern pieces. *)
Fixpoint seq (rs : list regex) : regex :=
  match rs with
  | [] => Lit []
  | [r] => r
  | r :: rs' => Cat r (seq rs')
  end.

(** ** create_consolidated_migration.py *)

Definition semicolon : ascii := ";"%char.
Definition rparen : ascii := ")"%char.
Definition comma : ascii := ","%char.

(** [\w+], [[^)]+], [[^)]*], [[^;]+], [\s+].  The patterns are used with
    [re.DOTALL], which only changes [.]; none of them has a dot that is not
    escaped, and a negated class matches a newline in any case. *)
Definition word := Plus is_word.
Definition no_rparen := Plus (not_char rparen).
Definition no_rparen0 := Star (not_char rparen).
Definition no_semi := Plus (not_char semicolon).
Definition spaces := Plus is_space.

Definition extension_pattern : regex :=
  seq [Lit (lit "CREATE EXTENSION IF NOT EXISTS "); Grp word;
       Lit (lit " WITH SCHEMA public;")].

Definition type_pattern : regex :=
  seq [Lit (lit "CREATE TYPE public."); Grp word; Lit (lit " AS ENUM (");
       Grp no_rparen; Lit (lit ");")].

Definition table_pattern : regex :=
  seq [Lit (lit "CREATE TABLE public."); Grp word; Lit (lit " (");
       Grp no_semi; Lit (lit ");")].

Definition index_pattern : regex :=
  seq [Lit (lit "CREATE INDEX "); Grp word; Lit (lit " ON public."); Grp word;
       Lit (lit " USING "); Grp word; Lit (lit " ("); Grp no_rparen;
       Lit (lit ")");
       Opt (seq [Lit (lit " WHERE ("); no_rparen; Lit (lit ")")]);
       Lit (lit ";")].

Definition constraint_pattern : regex :=
  seq [Lit (lit "ALTER TABLE ONLY public."); Grp word; spaces;
       Lit (lit "ADD CONSTRAINT "); Grp word; Lit (lit " "); Grp no_semi;
       Lit (lit ";")].

Definition trigger_pattern : regex :=
  seq [Lit (lit "CREATE TRIGGER "); Grp word; Lit (lit " "); Grp no_semi;
       Lit (lit ";")].

Definition function_pattern : regex :=
  seq [Lit (lit "CREATE OR REPLACE FUNCTION public."); Grp word; Lit (lit "(");
       no_rparen0; Lit (lit ") RETURNS "); Grp no_semi; Lit (lit ";")].

(** The dictionary built by [extract_ddl_statements]: its seven keys, each
    with the list of tuples stored under it. *)
Record statements := {
  extensions : list text;
  types : list (text * text);
  tables : list (text * text);
  indexes : list (text * text * text * text * text);
  constraints : list (text * text * text);
  triggers : list (text * text);
  functions : list (text * text)
}.

Definition diesel_table : text := lit "__diesel_schema_migrations".

Definition text_eqb (a b : text) : bool :=
  if list_eq_dec Ascii.ascii_dec a b then true else false.

(** [re.findall] with a pattern of one group: the group of every match. *)
Definition findall1 (r : regex) (s : text) : list text :=
  map (fun m => nth 0 (m_groups m) []) (finditer r s).

Definition type_entry (m : match_obj) : except (text * text) :=
  type_name <- group m 1 ;;
  enum_values <- group m 2 ;;
  Ok (type_name, strip enum_values).

(** The body of the table loop: [None] for the skipped diesel table. *)
Definition table_entry (m : match_obj) : except (option (text * text)) :=
  table_name <- group m 1 ;;
  if negb (text_eqb table_name diesel_table) then
    table_def <- group m 2 ;;
    Ok (Some (table_name, strip table_def))
  else Ok None.

Definition is_nonempty (s : text) : bool :=
  match s with [] => false | _ => true end.

Definition index_entry (m : match_obj)
  : except (text * text * text * text * text) :=
  index_name <- group m 1 ;;
  table_name <- group m 2 ;;
  index_type <- group m 3 ;;
  columns <- group m 4 ;;
  cond <- group m 5 ;;
  where_clause <- (if is_nonempty cond then group m 5 else Ok []) ;;
  Ok (index_name, table_name, index_type, columns, where_clause).

Definition constraint_entry (m : match_obj) : except (text * text * text) :=
  table_name <- group m 1 ;;
  constraint_name <- group m 2 ;;
  constraint_def <- group m 3 ;;
  Ok (table_name, constraint_name, constraint_def).

Definition trigger_entry (m : match_obj) : except (text * text) :=
  trigger_name <- group m 1 ;;
  trigger_def <- group m 2 ;;
  Ok (trigger_name, trigger_def).

Definition function_entry (m : match_obj) : except (text * text) :=
  func_name <- group m 1 ;;
  func_returns <- group m 2 ;;
  Ok (func_name, func_returns).

Fixpoint somes {A} (l : list (option A)) : list A :=
  match l with
  | [] => []
  | Some a :: l' => a :: somes l'
  | None :: l' => somes l'
  end.

(** [extract_ddl_statements], from the text read from the schema file. *)
Definition extract_ddl_statements (content : text) : except statements :=
  let exts := findall1 extension_pattern content in
  tys <- for_each type_entry (finditer type_pattern content) ;;
  tbs <- for_each table_entry (finditer table_pattern content) ;;
  ixs <- for_each index_entry (finditer index_pattern content) ;;
  cts <- for_each constraint_entry (finditer constraint_pattern content) ;;
  trs <- for_each trigger_entry (finditer trigger_pattern content) ;;
  fns <- for_each function_entry (finditer function_pattern content) ;;
  Ok {| extensions := exts; types := tys; tables := somes tbs;
        indexes := ixs; constraints := cts; triggers := trs;
        functions := fns |}.

(** The entries appended to [migration_sql], section by section. *)

Definition header : list text :=
  [lit "-- Consolidated Initial Schema Migration";
   lit "-- This migration consolidates all previous migrations into a single migration";
   lit "-- Generated from target schema dump";
   lit ""].

Definition indent (s : text) : text := lit "    " ++ s.

(** A section: nothing for an empty collection, otherwise its title, the
    entries of every element and an empty entry. *)
Definition section {A} (title : string) (entry : A -> list text) (l : list A)
  : list text :=
  match l with
  | [] => []
  | _ => lit title :: flat_map entry l ++ [lit ""]
  end.

Definition extension_entry (ext : text) : list text :=
  [lit "CREATE EXTENSION IF NOT EXISTS " ++ ext ++ lit " WITH SCHEMA public;"].

(** The loop over [enumerate(values)], [n] being [len(values)]. *)
Fixpoint enum_value_lines (i n : nat) (values : list text) : list text :=
  match values with
  | [] => []
  | value :: rest =>
      (if i =? n - 1 then indent value else indent value ++ lit ",")
        :: enum_value_lines (S i) n rest
  end.

Definition enum_values_of (enum_values : text) : list text :=
  map strip (split comma enum_values).

Definition enum_lines (enum_values : text) : list text :=
  let values := enum_values_of enum_values in
  enum_value_lines 0 (List.length values) values.

Definition type_lines (t : text * text) : list text :=
  let '(type_name, enum_values) := t in
  [lit "CREATE TYPE public." ++ type_name ++ lit " AS ENUM ("]
    ++ enum_lines enum_values ++ [lit ");"].

Definition table_lines (t : text * text) : list text :=
  let '(table_name, table_def) := t in
  [lit "CREATE TABLE public." ++ table_name ++ lit " ("]
    ++ map (fun line => indent (strip line)) (split nl (strip table_def))
    ++ [lit ");"].

Definition constraint_lines (c : text * text * text) : list text :=
  let '(table_name, constraint_name, constraint_def) := c in
  [lit "ALTER TABLE ONLY public." ++ table_name;
   lit "    ADD CONSTRAINT " ++ constraint_name ++ lit " " ++ constraint_def
     ++ lit ";"].

Definition index_lines (ix : text * text * text * text * text) : list text :=
  let '(index_name, table_name, index_type, columns, where_clause) := ix in
  let where_part :=
    if is_nonempty where_clause then lit " WHERE " ++ where_clause else [] in
  [lit "CREATE INDEX " ++ index_name ++ lit " ON public." ++ table_name
     ++ lit " USING " ++ index_type ++ lit " (" ++ columns ++ lit ")"
     ++ where_part ++ lit ";"].

Definition trigger_lines (t : text * text) : list text :=
  let '(trigger_name, trigger_def) := t in
  [lit "CREATE TRIGGER " ++ trigger_name ++ lit " " ++ trigger_def ++ lit ";"].

Definition extensions_section (st : statements) : list text :=
  section "-- Extensions" extension_entry (extensions st).
Definition types_section (st : statements) : list text :=
  section "-- Custom Types (ENUMs)" type_lines (types st).
Definition tables_section (st : statements) : list text :=
  section "-- Tables" table_lines (tables st).
Definition constraints_section (st : statements) : list text :=
  section "-- Constraints" constraint_lines (constraints st).
Definition indexes_section (st : statements) : list text :=
  section "-- Indexes" index_lines (indexes st).
Definition triggers_section (st : statements) : list text :=
  section "-- Triggers" trigger_lines (triggers st).

(** The list [migration_sql] when the function returns. *)
Definition migration_sql (st : statements) : list text :=
  header ++ extensions_section st ++ types_section st ++ tables_section st
    ++ constraints_section st ++ indexes_section st ++ triggers_section st.

Definition generate_consolidated_migration (st : statements) : text :=
  join [nl] (migration_sql st).

(** Extraction followed by emission, as [main] chains them. *)
Definition consolidate (content : text) : except text :=
  st <- extract_ddl_statements content ;;
  Ok (generate_consolidated_migration st).

(** ** check_migration_order.py *)

Module MigrationOrder.

(** A naive [datetime] as [strptime] with ['%Y-%m-%d-%H%M%S'] builds it. *)
Record datetime := {
  year : nat; month : nat; day : nat;
  hour : nat; minute : nat; second : nat
}.

Definition fields (t : datetime) : list nat :=
  [year t; month t; day t; hour t; minute t; second t].

Fixpoint lex_le (a b : list nat) : bool :=
  match a, b with
  | x :: a', y :: b' => (x <? y) || ((x =? y) && lex_le a' b')
  | _, _ => true
  end.

(** [a <= b] on datetimes *)
Definition dt_le (a b : datetime) : bool := lex_le (fields a) (fields b).

(** An entry of the list returned by [get_migration_files]:
    [(timestamp, name, full_path)]. *)
Definition migration : Type := datetime * text * text.

(** What the script prints, one constructor per [print] call. *)
Inductive line :=
| Starting
| NoValidMigrations
| Found (n : nat)
| FoundEntry (t : datetime) (name : text)
| Blank
| CheckingOrder
| OrderIssue
| OrderPrevious (t : datetime) (name : text)
| OrderCurrent (t : datetime) (name : text)
| OrderNotAfter
| CheckingDuplicates
| DuplicateTimestamp (key : text)
| DuplicateEntry (name path : text)
| CheckingNaming
| NamingWarning (name : text)
| NamingExpected
| NamingPath (path : text)
| NameTooShort (name : text)
| TooShortPath (path : text)
| AllPassed
| ValidationFailed
| PleaseFix.

Section Validator.

(** [timestamp.strftime('%Y-%m-%d %H:%M:%S')] *)
Variable strftime : datetime -> text.

(** The loop of [check_migration_order] from index [i] on, [prev] being
    [migrations[i-1]]: the printed lines and [issues_found]. *)
Fixpoint order_loop (prev : migration) (rest : list migration)
  : list line * bool :=
  match rest with
  | [] => ([], false)
  | curr :: rest' =>
      let '(prev_timestamp, prev_name, _) := prev in
      let '(curr_timestamp, curr_name, _) := curr in
      let '(out, issues) := order_loop curr rest' in
      if dt_le curr_timestamp prev_timestamp then
        ([OrderIssue; OrderPrevious prev_timestamp prev_name;
          OrderCurrent curr_timestamp curr_name; OrderNotAfter] ++ out, true)
      else (out, issues)
  end.

Definition check_migration_order (migrations : list migration)
  : list line * bool :=
  match migrations with
  | [] | [_] => ([], true)
  | first :: rest =>
      let '(out, issues_found) := order_loop first rest in
      (CheckingOrder :: out, negb issues_found)
  end.

(** [timestamp_counts]: a dict in insertion order. *)
Definition counts := list (text * list (text * text)).

Fixpoint add_count (key : text) (v : text * text) (d : counts) : counts :=
  match d with
  | [] => [(key, [v])]
  | (k, vs) :: d' =>
      if text_eqb k key then (k, vs ++ [v]) :: d'
      else (k, vs) :: add_count key v d'
  end.

Definition timestamp_counts (migrations : list migration) : counts :=
  fold_left (fun d (m : migration) =>
               let '(timestamp, name, path) := m in
               add_count (strftime timestamp) (name, path) d)
            migrations [].

Fixpoint duplicates_loop (d : counts) : list line * bool :=
  match d with
  | [] => ([], false)
  | (timestamp_str, migrations_list) :: d' =>
      let '(out, issues) := duplicates_loop d' in
      if 1 <? List.length migrations_list then
        (DuplicateTimestamp timestamp_str
           :: map (fun np => DuplicateEntry (fst np) (snd np)) migrations_list
           ++ out, true)
      else (out, issues)
  end.

Definition check_for_duplicate_timestamps (migrations : list migration)
  : list line * bool :=
  let '(out, issues_found) := duplicates_loop (timestamp_counts migrations) in
  (CheckingDuplicates :: out, negb issues_found).

(** [^[a-z][a-z0-9_]*[a-z0-9]$] *)
Definition name_pattern : regex :=
  seq [One is_lower; Star is_lower_digit_us; One is_lower_digit; Eos].

Fixpoint naming_loop (migrations : list migration) : list line * bool :=
  match migrations with
  | [] => ([], false)
  | (_, name, path) :: rest =>
      let warn :=
        if negb (matches name_pattern name)
        then [NamingWarning name; NamingExpected; NamingPath path]
        else [] in
      let short := List.length name <? 3 in
      let err := if short then [NameTooShort name; TooShortPath path] else [] in
      let '(out, issues) := naming_loop rest in
      (warn ++ err ++ out, short || issues)
  end.

Definition check_migration_naming_conventions (migrations : list migration)
  : list line * bool :=
  let '(out, issues_found) := naming_loop migrations in
  (CheckingNaming :: out, negb issues_found).

(** [main], from the list returned by [get_migration_files]: the printed
    lines and the exit status. *)
Definition main (migrations : list migration) : list line * nat :=
  match migrations with
  | [] => ([Starting; NoValidMigrations], 1)
  | _ =>
      let listing :=
        map (fun m : migration => let '(t, name, _) := m in FoundEntry t name)
            migrations in
      let '(out1, ok1) := check_migration_order migrations in
      let '(out2, ok2) := check_for_duplicate_timestamps migrations in
      let '(out3, ok3) := check_migration_naming_conventions migrations in
      let all_checks_passed := ok1 && ok2 && ok3 in
      ([Starting; Found (List.length migrations)] ++ listing ++ [Blank]
         ++ out1 ++ [Blank] ++ out2 ++ [Blank] ++ out3 ++ [Blank]
         ++ (if all_checks_passed then [AllPassed]
             else [ValidationFailed; PleaseFix]),
       if all_checks_passed then 0 else 1)
  end.

End Validator.

End MigrationOrder.

(** ** Notions used in the statements below *)

(** Start offsets of a scan grow strictly, and none is below [lo]. *)
Fixpoint increasing_from (lo : nat) (l : list nat) : Prop :=
  match l with
  | [] => True
  | x :: l' => lo <= x /\ increasing_from (S x) l'
  end.

(** Group [n] of a match whose pattern has at least [n] groups. *)
Definition grp (m : match_obj) (n : nat) : text := nth (n - 1) (m_groups m) [].

(** The tuples the loops append, read off a match object. *)
Definition type_of (m : match_obj) : text * text := (grp m 1, strip (grp m 2)).

Definition table_of (m : match_obj) : option (text * text) :=
  if negb (text_eqb (grp m 1) diesel_table)
  then Some (grp m 1, strip (grp m 2)) else None.

Definition constraint_of (m : match_obj) : text * text * text :=
  (grp m 1, grp m 2, grp m 3).

Definition pair_of (m : match_obj) : text * text := (grp m 1, grp m 2).

(** The dictionary returned for a text in which the index pattern finds
    nothing. *)
Definition collected (content : text) : statements :=
  {| extensions := findall1 extension_pattern content;
     types := map type_of (finditer type_pattern content);
     tables := somes (map table_of (finditer table_pattern content));
     indexes := [];
     constraints := map constraint_of (finditer constraint_pattern content);
     triggers := map pair_of (finditer trigger_pattern content);
     functions := map pair_of (finditer function_pattern content) |}.

(** Inputs with [CREATE INDEX] statements. *)
Definition plain_index : text :=
  lit "CREATE INDEX idx_series_title ON public.economic_series USING btree (title);".

Definition partial_index : text :=
  lit "CREATE INDEX idx_active ON public.economic_series USING btree (source_id) WHERE (is_active = true);".

Definition index_without_where : text :=
  lit "CREATE INDEX idx_obs_date ON public.observations USING btree (obs_date);".

Definition index_then_open_table : text :=
  lit "CREATE INDEX idx_a ON public.t USING btree (c);" ++ [nl]
    ++ lit "CREATE TABLE public.u (" ++ [nl] ++ lit "    id integer NOT NULL".

(** The dictionary with another list under ['functions']. *)
Definition with_functions (st : statements) (fs : list (text * text))
  : statements :=
  {| extensions := extensions st; types := types st; tables := tables st;
     indexes := indexes st; constraints := constraints st;
     triggers := triggers st; functions := fs |}.

Definition with_comma (value : text) : text := indent value ++ lit ",".

Definition two_functions : text :=
  lit "CREATE OR REPLACE FUNCTION public.touch() RETURNS trigger;" ++ [nl]
    ++ lit "CREATE OR REPLACE FUNCTION public.total(a integer) RETURNS numeric;".

(** [len(name) < 3] for an entry of the migration list. *)
Definition too_short (m : MigrationOrder.migration) : bool :=
  let '(_, name, _) := m in List.length name <? 3.

Definition epoch : MigrationOrder.datetime :=
  {| MigrationOrder.year := 1970; MigrationOrder.month := 1;
     MigrationOrder.day := 1; MigrationOrder.hour := 0;
     MigrationOrder.minute := 0; MigrationOrder.second := 0 |}.

Definition short_entry : MigrationOrder.migration :=
  (epoch, lit "x", lit "migrations/00000000000000_x").

(** The lines of the emitted text, and the lines an entry list gives. *)
Definition out_lines (st : statements) : list text :=
  split nl (generate_consolidated_migration st).

Definition entry_lines (entries : list text) : list text :=
  flat_map (split nl) entries.

(** The parts of the emitted text, in the order of their rank. *)
Inductive part :=
| Header | Extensions | EnumTypes | Tables | Constraints | Indexes | Triggers.

Definition parts : list part :=
  [Header; Extensions; EnumTypes; Tables; Constraints; Indexes; Triggers].

Definition rank (p : part) : nat :=
  match p with
  | Header => 0 | Extensions => 1 | EnumTypes => 2 | Tables => 3
  | Constraints => 4 | Indexes => 5 | Triggers => 6
  end.

Definition part_entries (st : statements) (p : part) : list text :=
  match p with
  | Header => header
  | Extensions => extensions_section st
  | EnumTypes => types_section st
  | Tables => tables_section st
  | Constraints => constraints_section st
  | Indexes => indexes_section st
  | Triggers => triggers_section st
  end.

(** Index of the block that holds offset [i] of the concatenated blocks. *)
Fixpoint locate {A} (blocks : list (list A)) (i : nat) : option nat :=
  match blocks with
  | [] => None
  | b :: blocks' =>
      if i <? List.length b then Some 0
      else option_map S (locate blocks' (i - List.length b))
  end.

(** The part to which the line at offset [i] of the output belongs. *)
Definition part_at (st : statements) (i : nat) : option part :=
  match locate (map (fun p => entry_lines (part_entries st p)) parts) i with
  | Some n => nth_error parts n
  | None => None
  end.

Definition sample_statements : statements :=
  {| extensions := [lit "pg_trgm"];
     types := [(lit "status", lit "'a','b'")];
     tables := [(lit "orders", lit "id integer NOT NULL," ++ [nl] ++ lit "    name text")];
     indexes := [(lit "idx_orders_name", lit "orders", lit "btree", lit "name", lit "(id > 0)")];
     constraints := [(lit "orders", lit "orders_pkey", lit "PRIMARY KEY (id)")];
     triggers := [(lit "trg", lit "BEFORE UPDATE ON public.orders FOR EACH ROW EXECUTE FUNCTION f()")];
     functions := [] |}.

(** Start offsets of the matches of a pattern, in the order [finditer]
    yields them. *)
Definition starts (r : regex) (content : text) : list nat :=
  map m_start (finditer r content).

Definition small_dump : text :=
  lit "CREATE EXTENSION IF NOT EXISTS pg_trgm WITH SCHEMA public;" ++ [nl]
    ++ lit "CREATE TYPE public.status AS ENUM ('a','b');" ++ [nl]
    ++ lit "CREATE TABLE public.orders (" ++ [nl]
    ++ lit "    id integer NOT NULL," ++ [nl]
    ++ lit "    state public.status" ++ [nl]
    ++ lit ");" ++ [nl]
    ++ lit "CREATE TABLE public.items (" ++ [nl]
    ++ lit "    id integer NOT NULL" ++ [nl]
    ++ lit ");" ++ [nl]
    ++ lit "ALTER TABLE ONLY public.orders" ++ [nl]
    ++ lit "    ADD CONSTRAINT orders_pkey PRIMARY KEY (id);" ++ [nl]
    ++ lit "CREATE TRIGGER touch_orders BEFORE UPDATE ON public.orders FOR EACH ROW EXECUTE FUNCTION public.touch();" ++ [nl].

(** What a successful match of [r] means: [r] matches the part of [s] before
    [s'], and the groups closed on the way extend [caps] to [caps']. *)
Fixpoint denote (r : regex) (s s' : text) (caps caps' : list text) : Prop :=
  match r with
  | Lit l => s = l ++ s' /\ caps' = caps
  | One cls => (exists c, s = c :: s' /\ cls c = true) /\ caps' = caps
  | Star cls => (exists a, s = a ++ s' /\ forallb cls a = true) /\ caps' = caps
  | Plus cls =>
      (exists a, a <> [] /\ s = a ++ s' /\ forallb cls a = true) /\ caps' = caps
  | Cat r1 r2 =>
      exists s1 caps1, denote r1 s s1 caps caps1 /\ denote r2 s1 s' caps1 caps'
  | Grp r' =>
      exists caps1, denote r' s s' caps caps1
        /\ caps' = caps1 ++ [firstn (List.length s - List.length s') s]
  | Opt r' => denote r' s s' caps caps' \/ (s' = s /\ caps' = caps)
  | Eos => s' = s /\ caps' = caps /\ (s = [] \/ s = [nl])
  end.

(** [needle] at the head of [hay], and anywhere in it. *)
Definition starts_with (needle hay : text) : bool :=
  match match_lit needle hay with Some _ => true | None => false end.

Fixpoint occurs (needle hay : text) : bool :=
  starts_with needle hay
  || match hay with
     | [] => false
     | _ :: hay' => occurs needle hay'
     end.

Definition diesel_create_table : text :=
  lit "CREATE TABLE public.__diesel_schema_migrations (".

(** A trigger statement that lost its semicolon, followed by the diesel
    table as [pg_dump] writes it. *)
Definition trigger_before_diesel : text :=
  lit "CREATE TRIGGER touch_orders BEFORE UPDATE ON public.orders FOR EACH ROW EXECUTE FUNCTION public.touch()" ++ [nl]
    ++ lit "CREATE TABLE public.__diesel_schema_migrations (" ++ [nl]
    ++ lit "    version character varying(50) NOT NULL" ++ [nl]
    ++ lit ");" ++ [nl].

Definition dump_with_diesel : text :=
  lit "CREATE TABLE public.__diesel_schema_migrations (" ++ [nl]
    ++ lit "    version character varying(50) NOT NULL" ++ [nl]
    ++ lit ");" ++ [nl]
    ++ lit "CREATE TABLE public.orders (" ++ [nl]
    ++ lit "    id integer NOT NULL" ++ [nl]
    ++ lit ");" ++ [nl].

(** Number of matches a scan finds. *)
Definition nmatches (r : regex) (skip : nat) (s : text) : nat :=
  List.length (scan r skip 0 s).

(** The literal [l] cannot be matched at the head of [w], whatever follows
    [w]: they differ at a position inside [w]. *)
Fixpoint clash (l w : text) : bool :=
  match l, w with
  | a :: l', c :: w' => if Ascii.eqb a c then clash l' w' else true
  | _, _ => false
  end.

(** [l] clashes with every non-empty suffix of [u]. *)
Fixpoint no_start (l u : text) : bool :=
  match u with
  | [] => true
  | _ :: u' => clash l u && no_start l u'
  end.

(** The input is at its end, or its first character is not in [cls]. *)
Definition stops (cls : ascii -> bool) (s : text) : Prop :=
  match s with
  | [] => True
  | c :: _ => cls c = false
  end.

(** What the patterns guarantee of the fields they capture: a name is a
    non-empty run of word characters, the value list of an enum has no
    closing parenthesis, a table body has no semicolon, a constraint or
    trigger definition is non-empty and has no semicolon.  (The value list
    and the table body are stored stripped, so they may be empty.) *)
Definition is_name (s : text) : bool := is_nonempty s && forallb is_word s.

Definition free_of (c : ascii) (s : text) : bool := forallb (not_char c) s.

Definition is_definition (s : text) : bool :=
  is_nonempty s && free_of semicolon s.

Definition type_ok (t : text * text) : bool :=
  let '(type_name, enum_values) := t in
  is_name type_name && free_of rparen enum_values.

Definition table_ok (t : text * text) : bool :=
  let '(table_name, table_def) := t in
  is_name table_name && free_of semicolon table_def.

Definition constraint_ok (c : text * text * text) : bool :=
  let '(table_name, constraint_name, constraint_def) := c in
  is_name table_name && is_name constraint_name && is_definition constraint_def.

Definition trigger_ok (t : text * text) : bool :=
  let '(trigger_name, trigger_def) := t in
  is_name trigger_name && is_definition trigger_def.

Definition well_formed (st : statements) : bool :=
  forallb is_name (extensions st) && forallb type_ok (types st)
  && forallb table_ok (tables st) && forallb constraint_ok (constraints st)
  && forallb trigger_ok (triggers st).

(** The text of one emitted section, and the number of statements the
    pattern of a category finds in it. *)
Definition section_count (r : regex) (entries : list text) : nat :=
  List.length (finditer r (join [nl] entries)).

(** A trigger statement that lost its semicolon, followed by a table. *)
Definition trigger_before_table : text :=
  lit "CREATE TRIGGER touch_orders BEFORE UPDATE ON public.orders FOR EACH ROW EXECUTE FUNCTION public.touch()" ++ [nl]
    ++ lit "CREATE TABLE public.orders (" ++ [nl]
    ++ lit "    id integer NOT NULL" ++ [nl]
    ++ lit ");" ++ [nl].

(** The same number of entries in the six emitted categories. *)
Definition same_counts (st st' : statements) : Prop :=
  List.length (extensions st') = List.length (extensions st)
  /\ List.length (types st') = List.length (types st)
  /\ List.length (tables st') = List.length (tables st)
  /\ List.length (constraints st') = List.length (constraints st)
  /\ List.length (indexes st') = List.length (indexes st)
  /\ List.length (triggers st') = List.length (triggers st).

(** A [CREATE TABLE] block whose parenthesis is never closed. *)
Definition open_table_block (name body : text) : text :=
  lit "CREATE TABLE public." ++ name ++ lit " (" ++ body.

(** ** check_migration_order.py: reading the migrations directory *)

Module MigrationFiles.
Import MigrationOrder.

Definition digit_value (c : ascii) : nat := code c - 48.

Definition number2 (a b : ascii) : nat := 10 * digit_value a + digit_value b.

Definition number4 (a b c d : ascii) : nat :=
  1000 * digit_value a + 100 * digit_value b + 10 * digit_value c
  + digit_value d.

Definition is_leap (y : nat) : bool :=
  ((y mod 4 =? 0) && negb (y mod 100 =? 0)) || (y mod 400 =? 0).

Definition days_in_month (y m : nat) : nat :=
  match m with
  | 2 => if is_leap y then 29 else 28
  | 4 | 6 | 9 | 11 => 30
  | _ => 31
  end.

(** The field values [datetime.strptime] accepts with
    ['%Y-%m-%d-%H%M%S']: a real calendar date of the years 1 to 9999 (below
    [100 * 100]) and a time of day.  (Its own pattern lets seconds 60 and 61 through; the [datetime]
    constructor then rejects them with the same [ValueError].) *)
Definition valid_datetime (t : datetime) : bool :=
  (1 <=? year t) && (year t <? 100 * 100)
  && (1 <=? month t) && (month t <=? 12)
  && (1 <=? day t) && (day t <=? days_in_month (year t) (month t))
  && (hour t <=? 23) && (minute t <=? 59) && (second t <=? 59).

Definition dash : ascii := "-"%char.

(** [datetime.strptime(timestamp_str, '%Y-%m-%d-%H%M%S')] on the strings
    the patterns capture, [\d{4}-\d{2}-\d{2}-\d{6}]; [None] stands for
    [ValueError]. *)
Definition strptime (s : text) : option datetime :=
  match s with
  | [y1; y2; y3; y4; p1; m1; m2; p2; d1; d2; p3; h1; h2; n1; n2; s1; s2] =>
      if forallb is_digit [y1; y2; y3; y4; m1; m2; d1; d2; h1; h2; n1; n2; s1; s2]
         && forallb (is_char dash) [p1; p2; p3]
      then
        let t := {| year := number4 y1 y2 y3 y4; month := number2 m1 m2;
                    day := number2 d1 d2; hour := number2 h1 h2;
                    minute := number2 n1 n2; second := number2 s1 s2 |} in
        if valid_datetime t then Some t else None
      else None
  | _ => None
  end.

(** [\d] (the decimal digits, on code points below 256) and [.] (anything
    but a newline, without [re.DOTALL]). *)
Definition digit : regex := One is_digit.
Definition any_char : regex := Plus (not_char nl).

(** [\d{4}-\d{2}-\d{2}-\d{6}] *)
Definition timestamp_digits : regex :=
  seq [digit; digit; digit; digit; Lit [dash]; digit; digit; Lit [dash];
       digit; digit; Lit [dash]; digit; digit; digit; digit; digit; digit].

(** [^(\d{4}-\d{2}-\d{2}-\d{6})_(.+)$] *)
Definition pattern1 : regex :=
  seq [Grp timestamp_digits; Lit (lit "_"); Grp any_char; Eos].

(** [^(\d{4}-\d{2}-\d{2}-\d{6})-(\d{4})_(.+)$] *)
Definition pattern2 : regex :=
  seq [Grp timestamp_digits; Lit [dash]; Grp (seq [digit; digit; digit; digit]);
       Lit (lit "_"); Grp any_char; Eos].

(** [^00000000000000_(.+)$] *)
Definition pattern3 : regex :=
  seq [Lit (lit "00000000000000_"); Grp any_char; Eos].

(** [re.match(pattern, filename)] followed by [.groups()] *)
Definition groups_of (r : regex) (s : text) : option (list text) :=
  match match_here r s with
  | Some (caps, _) => Some caps
  | None => None
  end.

(** The diesel initial setup: [datetime(1970, 1, 1, 0, 0, 0)]. *)
Definition initial_setup : datetime :=
  {| year := 1970; month := 1; day := 1; hour := 0; minute := 0; second := 0 |}.

Definition try_pattern3 (filename : text) : option (datetime * text) :=
  match groups_of pattern3 filename with
  | Some [name] => Some (initial_setup, name)
  | _ => None
  end.

Definition try_pattern2 (filename : text) : option (datetime * text) :=
  match groups_of pattern2 filename with
  | Some [timestamp_str; sequence; name] =>
      match strptime timestamp_str with
      | Some timestamp => Some (timestamp, name)
      | None => try_pattern3 filename
      end
  | _ => try_pattern3 filename
  end.

Definition parse_migration_filename (filename : text)
  : option (datetime * text) :=
  match groups_of pattern1 filename with
  | Some [timestamp_str; name] =>
      match strptime timestamp_str with
      | Some timestamp => Some (timestamp, name)
      | None => try_pattern2 filename
      end
  | _ => try_pattern2 filename
  end.

(** An entry of [migrations_path.iterdir()]: its [name], [is_dir()] and
    [str(item)]. *)
Record item := {
  item_name : text;
  item_is_dir : bool;
  item_path : text
}.

Inductive notice :=
| DirectoryNotFound
| SkippingInvalid (name : text).

(** [item.name.startswith('.')] *)
Definition hidden (name : text) : bool :=
  match name with
  | c :: _ => Ascii.eqb c "."%char
  | [] => false
  end.

(** The loop over [iterdir()]: the printed notices and [migrations]. *)
Fixpoint collect (items : list item) : list notice * list migration :=
  match items with
  | [] => ([], [])
  | it :: rest =>
      let '(out, migrations) := collect rest in
      if item_is_dir it && negb (hidden (item_name it)) then
        match parse_migration_filename (item_name it) with
        | Some (timestamp, name) =>
            (out, (timestamp, name, item_path it) :: migrations)
        | None => (SkippingInvalid (item_name it) :: out, migrations)
        end
      else (out, migrations)
  end.

(** [a < b] on datetimes *)
Definition dt_lt (a b : datetime) : bool := negb (dt_le b a).

Definition timestamp_of (m : migration) : datetime := fst (fst m).

(** [sorted(migrations, key=lambda x: x[0])]: a stable sort, entries with
    equal timestamps keep their order. *)
Fixpoint insert_sorted (m : migration) (l : list migration) : list migration :=
  match l with
  | [] => [m]
  | m' :: l' =>
      if dt_lt (timestamp_of m') (timestamp_of m)
      then m' :: insert_sorted m l'
      else m :: l
  end.

Fixpoint sorted_by_timestamp (l : list migration) : list migration :=
  match l with
  | [] => []
  | m :: l' => insert_sorted m (sorted_by_timestamp l')
  end.

(** [get_migration_files]: [None] when the directory does not exist,
    otherwise what [iterdir()] yields, in its order. *)
Definition get_migration_files (dir : option (list item))
  : list notice * list migration :=
  match dir with
  | None => ([DirectoryNotFound], [])
  | Some items =>
      let '(out, migrations) := collect items in
      (out, sorted_by_timestamp migrations)
  end.

End MigrationFiles.

(** ** Notions used in the statements on the migrations directory *)

(** The shape [\d{4}-\d{2}-\d{2}-\d{6}]. *)
Definition timestamp_shape (s : text) : bool :=
  match s with
  | [y1; y2; y3; y4; p1; m1; m2; p2; d1; d2; p3; h1; h2; n1; n2; s1; s2] =>
      forallb is_digit [y1; y2; y3; y4; m1; m2; d1; d2; h1; h2; n1; n2; s1; s2]
      && forallb (is_char MigrationFiles.dash) [p1; p2; p3]
  | _ => false
  end.

(** A non-empty text without a newline: what [(.+)$] captures. *)
Definition is_label (s : text) : bool :=
  is_nonempty s && forallb (not_char nl) s.

(** Four decimal digits: the sequence number of the second grammar. *)
Definition is_sequence (s : text) : bool :=
  (List.length s =? 4) && forallb is_digit s.

(** The decimal digit [k] as a character, and numbers written with two and
    four digits. *)
Definition digit_char (k : nat) : ascii := ascii_of_nat (48 + k).

Definition pad2 (n : nat) : text :=
  [digit_char (n / 10); digit_char (n mod 10)].

Definition pad4 (n : nat) : text :=
  [digit_char (n / 1000); digit_char (n / 100 mod 10);
   digit_char (n / 10 mod 10); digit_char (n mod 10)].

(** A datetime written [YYYY-MM-DD-HHMMSS], as a migration directory is
    named. *)
Definition timestamp_text (t : MigrationOrder.datetime) : text :=
  pad4 (MigrationOrder.year t) ++ [MigrationFiles.dash]
    ++ pad2 (MigrationOrder.month t) ++ [MigrationFiles.dash]
    ++ pad2 (MigrationOrder.day t) ++ [MigrationFiles.dash]
    ++ pad2 (MigrationOrder.hour t) ++ pad2 (MigrationOrder.minute t)
    ++ pad2 (MigrationOrder.second t).

(** Fields that fit their number of digits. *)
Definition fits_digits (t : MigrationOrder.datetime) : bool :=
  (MigrationOrder.year t <? 100 * 100) && (MigrationOrder.month t <? 100)
  && (MigrationOrder.day t <? 100) && (MigrationOrder.hour t <? 100)
  && (MigrationOrder.minute t <? 100) && (MigrationOrder.second t <? 100).

Definition leap_day_2024 : MigrationOrder.datetime :=
  {| MigrationOrder.year := 2024; MigrationOrder.month := 2;
     MigrationOrder.day := 29; MigrationOrder.hour := 23;
     MigrationOrder.minute := 59; MigrationOrder.second := 7 |}.

Definition february_30 : MigrationOrder.datetime :=
  {| MigrationOrder.year := 2023; MigrationOrder.month := 2;
     MigrationOrder.day := 30; MigrationOrder.hour := 12;
     MigrationOrder.minute := 0; MigrationOrder.second := 0 |}.

(** Nothing, or the one newline [$] tolerates at the end. *)
Definition line_end (tail : text) : Prop := tail = [] \/ tail = [nl].

(** What a successful parse guarantees: the name is a non-empty text
    without a newline that ends the directory name after an underscore, and
    the timestamp is a real date and time or the initial-setup one. *)
Definition well_parsed (filename : text) (t : MigrationOrder.datetime)
           (name : text) : Prop :=
  is_label name = true
  /\ (MigrationFiles.valid_datetime t = true \/ t = MigrationFiles.initial_setup)
  /\ exists pre tail,
       line_end tail /\ filename = pre ++ lit "_" ++ name ++ tail.

(** Timestamps in non-decreasing order, and in strictly increasing order. *)
Definition non_decreasing (ms : list MigrationOrder.migration) : Prop :=
  StronglySorted
    (fun a b => MigrationOrder.dt_le (MigrationFiles.timestamp_of a)
                                     (MigrationFiles.timestamp_of b) = true) ms.

Definition strictly_increasing (ms : list MigrationOrder.migration) : Prop :=
  StronglySorted
    (fun a b => MigrationFiles.dt_lt (MigrationFiles.timestamp_of a)
                                     (MigrationFiles.timestamp_of b) = true) ms.

(** The entries of a list that carry the timestamp [t], in their order. *)
Definition same_time (t : MigrationOrder.datetime) (m : MigrationOrder.migration)
  : bool :=
  MigrationOrder.dt_le (MigrationFiles.timestamp_of m) t
  && MigrationOrder.dt_le t (MigrationFiles.timestamp_of m).

(** A directory becomes a migration when it is a directory, is not hidden
    and its name parses. *)
Definition migration_of (it : MigrationFiles.item)
  : option MigrationOrder.migration :=
  if MigrationFiles.item_is_dir it
     && negb (MigrationFiles.hidden (MigrationFiles.item_name it))
  then match MigrationFiles.parse_migration_filename (MigrationFiles.item_name it) with
       | Some (t, name) => Some (t, name, MigrationFiles.item_path it)
       | None => None
       end
  else None.

Definition sample_directory : list MigrationFiles.item :=
  [ {| MigrationFiles.item_name := lit "2024-03-01-120000_add_series";
       MigrationFiles.item_is_dir := true;
       MigrationFiles.item_path := lit "migrations/2024-03-01-120000_add_series" |};
    {| MigrationFiles.item_name := lit ".git";
       MigrationFiles.item_is_dir := true;
       MigrationFiles.item_path := lit "migrations/.git" |};
    {| MigrationFiles.item_name := lit "00000000000000_diesel_initial_setup";
       MigrationFiles.item_is_dir := true;
       MigrationFiles.item_path := lit "migrations/00000000000000_diesel_initial_setup" |};
    {| MigrationFiles.item_name := lit "README.md";
       MigrationFiles.item_is_dir := false;
       MigrationFiles.item_path := lit "migrations/README.md" |};
    {| MigrationFiles.item_name := lit "2024-03-01-120000-0001_add_sources";
       MigrationFiles.item_is_dir := true;
       MigrationFiles.item_path := lit "migrations/2024-03-01-120000-0001_add_sources" |};
    {| MigrationFiles.item_name := lit "2024-01-15-093000_create_users";
       MigrationFiles.item_is_dir := true;
       MigrationFiles.item_path := lit "migrations/2024-01-15-093000_create_users" |} ].

(** The key under which [check_for_duplicate_timestamps] files an entry. *)
Definition key_of (strftime : MigrationOrder.datetime -> text)
           (m : MigrationOrder.migration) : text :=
  strftime (MigrationFiles.timestamp_of m).

(** Number of entries filed under [key] in [timestamp_counts]. *)
Fixpoint filed (key : text) (d : MigrationOrder.counts) : nat :=
  match d with
  | [] => 0
  | (k, vs) :: d' => if text_eqb k key then List.length vs else filed key d'
  end.

(** [main] of the validator on a directory: its exit status. *)
Definition validation_status (strftime : MigrationOrder.datetime -> text)
           (dir : option (list MigrationFiles.item)) : nat :=
  snd (MigrationOrder.main strftime (snd (MigrationFiles.get_migration_files dir))).

(** [strftime] tells apart the timestamps of a list. *)
Definition distinguishes (strftime : MigrationOrder.datetime -> text)
           (ms : list MigrationOrder.migration) : Prop :=
  forall a b, In a ms -> In b ms ->
    key_of strftime a = key_of strftime b ->
    MigrationFiles.timestamp_of a = MigrationFiles.timestamp_of b.

(** [len(name) >= 3] for every entry. *)
Definition names_long_enough (ms : list MigrationOrder.migration) : bool :=
  forallb (fun m => negb (too_short m)) ms.

(** The naming convention, spelled out: a lowercase letter, then lowercase
    letters, digits and underscores, then a lowercase letter or a digit; one
    newline may follow. *)
Definition conventional (name : text) : Prop :=
  exists c mid d tail,
    name = c :: mid ++ d :: tail
    /\ is_lower c = true /\ forallb is_lower_digit_us mid = true
    /\ is_lower_digit d = true /\ line_end tail.

(** A stored text has no whitespace at either end. *)
Definition trimmed (s : text) : Prop :=
  strip s = s /\ stops is_space s /\ stops is_space (rev s).

Definition padded_dump : text :=
  lit "CREATE TYPE public.status AS ENUM (" ++ [nl]
    ++ lit "    'open'," ++ [nl]
    ++ lit "    'closed'" ++ [nl]
    ++ lit ");" ++ [nl]
    ++ lit "CREATE TABLE public.orders (" ++ [nl]
    ++ lit "    id integer NOT NULL," ++ [nl]
    ++ lit "    state public.status" ++ [nl]
    ++ lit ");" ++ [nl].

(** The groups of every match of a scan, in order. *)
Definition found (r : regex) (skip : nat) (s : text) : list (list text) :=
  map m_groups (scan r skip 0 s).

Definition text_dec : forall a b : text, {a = b} + {a <> b} :=
  list_eq_dec Ascii.ascii_dec.

Definition closed_table : text :=
  lit "CREATE TABLE public.orders (" ++ [nl]
    ++ lit "    id integer NOT NULL" ++ [nl]
    ++ lit ");" ++ [nl].

(** The text between the parentheses of an emitted enum type, and of an
    emitted table. *)
Definition enum_body (enum_values : text) : text :=
  [nl] ++ join [nl] (enum_lines enum_values) ++ [nl].

Definition table_body (table_def : text) : text :=
  [nl] ++ join [nl] (map (fun line => indent (strip line))
                         (split nl (strip table_def))) ++ [nl].

(** What extraction reads back from an emitted enum type and from an
    emitted table: the name, and the stripped text between the
    parentheses. *)
Definition reread_type (t : text * text) : text * text :=
  (fst t, strip (enum_body (snd t))).

Definition reread_table (t : text * text) : text * text :=
  (fst t, strip (table_body (snd t))).

(** ** create_consolidated_migration.py: [main] *)

Module Driver.

(** What [main] sees of its surroundings: [sys.argv], whether a path
    exists, the text [open(path).read()] gives ([None] when it raises), and
    whether the output file can be opened for writing. *)
Record env := {
  argv : list text;
  path_exists : text -> bool;
  read_text : text -> option text;
  output_writable : bool
}.

Inductive failure :=
| ExtractionFailed (e : exn)
| ReadFailed
| WriteFailed.

(** How the run ends: [main] returns, [sys.exit(code)], or an exception
    leaves [main]. *)
Inductive ending :=
| Returned
| Exited (code : nat)
| Raised (f : failure).

(** The lines printed, one constructor per [print] call. *)
Inductive report :=
| Usage
| SchemaNotFound (path : text)
| Processing (path : text)
| Found
| Extensions (n : nat)
| CustomTypes (n : nat)
| Tables (n : nat)
| Indexes (n : nat)
| Constraints (n : nat)
| Triggers (n : nat)
| Functions (n : nat)
| WrittenTo (path : text)
| MigrationSize (n : nat).

Definition output_file : text :=
  lit "backend/migrations/2025-02-01-000001_consolidated_initial_schema/up.sql".

Record run := {
  printed : list report;
  written : option text;      (* the text written to [output_file], if any *)
  ended : ending
}.

Definition counts (st : statements) : list report :=
  [Found; Extensions (List.length (extensions st));
   CustomTypes (List.length (types st)); Tables (List.length (tables st));
   Indexes (List.length (indexes st));
   Constraints (List.length (constraints st));
   Triggers (List.length (triggers st));
   Functions (List.length (functions st))].

Definition main (e : env) : run :=
  match argv e with
  | [_; schema_file] =>
      if negb (path_exists e schema_file) then
        {| printed := [SchemaNotFound schema_file]; written := None;
           ended := Exited 1 |}
      else
        match read_text e schema_file with
        | None =>
            {| printed := [Processing schema_file]; written := None;
               ended := Raised ReadFailed |}
        | Some content =>
            match extract_ddl_statements content with
            | Raise x =>
                {| printed := [Processing schema_file]; written := None;
                   ended := Raised (ExtractionFailed x) |}
            | Ok st =>
                let migration_sql := generate_consolidated_migration st in
                if output_writable e then
                  {| printed := Processing schema_file :: counts st
                                  ++ [WrittenTo output_file;
                                      MigrationSize (List.length migration_sql)];
                     written := Some migration_sql;
                     ended := Returned |}
                else
                  {| printed := Processing schema_file :: counts st;
                     written := None;
                     ended := Raised WriteFailed |}
            end
        end
  | _ => {| printed := [Usage]; written := None; ended := Exited 1 |}
  end.

End Driver.

Definition sample_env : Driver.env :=
  {| Driver.argv := [lit "create_consolidated_migration.py"; lit "schema.sql"];
     Driver.path_exists := fun p => text_eqb p (lit "schema.sql");
     Driver.read_text :=
       fun p => if text_eqb p (lit "schema.sql") then Some small_dump else None;
     Driver.output_writable := true |}.

Definition ordered_migrations : list MigrationOrder.migration :=
  [(MigrationFiles.initial_setup, lit "diesel_initial_setup",
    lit "migrations/00000000000000_diesel_initial_setup");
   (leap_day_2024, lit "add_users", lit "migrations/2024-02-29-235907_add_users")].

(** ** Notions used in the statements on enum values and on functions *)





(** A function statement followed by an index statement. *)
Definition function_and_index : text :=
  lit "CREATE OR REPLACE FUNCTION public.touch() RETURNS trigger;" ++ [nl]
    ++ lit "CREATE INDEX idx_series_title ON public.economic_series USING btree (title);".

Definition env_reading (content : text) : Driver.env :=
  {| Driver.argv := [lit "create_consolidated_migration.py"; lit "schema.sql"];
     Driver.path_exists := fun p => text_eqb p (lit "schema.sql");
     Driver.read_text :=
       fun p => if text_eqb p (lit "schema.sql") then Some content else None;
     Driver.output_writable := true |}.

(** * Properties *)

(** ** Match objects of a scan *)

Lemma scan_ngroups r skip pos s :
  Forall (fun m => m_ngroups m = ngroups r) (scan r skip pos s).
Proof.
  revert skip pos; induction s as [|c s IH]; intros skip pos; simpl.
  - constructor.
  - destruct skip as [|n]; [|apply IH].
    destruct (match_here r (c :: s)) as [[caps rest]|].
    + constructor; [reflexivity|apply IH].
    + apply IH.
Qed.

Lemma finditer_ngroups r s :
  Forall (fun m => m_ngroups m = ngroups r) (finditer r s).
Proof. apply scan_ngroups. Qed.

Lemma increasing_from_weaken lo lo' l :
  lo' <= lo -> increasing_from lo l -> increasing_from lo' l.
Proof. destruct l; simpl; intuition lia. Qed.

Lemma scan_increasing r skip pos s :
  increasing_from pos (map m_start (scan r skip pos s)).
Proof.
  revert skip pos; induction s as [|c s IH]; intros skip pos; simpl; [exact I|].
  destruct skip as [|n].
  - destruct (match_here r (c :: s)) as [[caps rest]|]; simpl.
    + split; [lia|apply IH].
    + eapply increasing_from_weaken; [|apply IH]; lia.
  - eapply increasing_from_weaken; [|apply IH]; lia.
Qed.

(** ** The loops of the extractor, without their exceptions *)

Lemma group_ok m n : n <= m_ngroups m -> group m n = Ok (grp m n).
Proof.
  intros H; unfold group. apply Nat.leb_le in H. now rewrite H.
Qed.

Lemma group_raises m n : m_ngroups m < n -> group m n = Raise IndexError.
Proof.
  intros H; unfold group. apply Nat.leb_gt in H. now rewrite H.
Qed.

Lemma for_each_pure {A B} (f : A -> except B) (g : A -> B) (l : list A) :
  Forall (fun a => f a = Ok (g a)) l -> for_each f l = Ok (map g l).
Proof.
  induction 1 as [|a l Ha _ IH]; simpl; [reflexivity|].
  now rewrite Ha, IH.
Qed.

Lemma for_each_raises_head {A B} (f : A -> except B) a l e :
  f a = Raise e -> for_each f (a :: l) = Raise e.
Proof. intros H; simpl; now rewrite H. Qed.

Ltac entry_pure r :=
  eapply Forall_impl; [|apply (finditer_ngroups r)];
  intros m Hm; simpl in Hm;
  repeat (rewrite group_ok by (rewrite Hm; repeat constructor));
  simpl; try reflexivity.

Lemma types_pure s :
  for_each type_entry (finditer type_pattern s)
  = Ok (map type_of (finditer type_pattern s)).
Proof.
  apply for_each_pure. unfold type_entry. entry_pure type_pattern.
Qed.

Lemma tables_pure s :
  for_each table_entry (finditer table_pattern s)
  = Ok (map table_of (finditer table_pattern s)).
Proof.
  apply for_each_pure. unfold table_entry, table_of.
  entry_pure table_pattern.
  destruct (negb (text_eqb (grp m 1) diesel_table)); reflexivity.
Qed.

Lemma constraints_pure s :
  for_each constraint_entry (finditer constraint_pattern s)
  = Ok (map constraint_of (finditer constraint_pattern s)).
Proof.
  apply for_each_pure. unfold constraint_entry. entry_pure constraint_pattern.
Qed.

Lemma triggers_pure s :
  for_each trigger_entry (finditer trigger_pattern s)
  = Ok (map pair_of (finditer trigger_pattern s)).
Proof.
  apply for_each_pure. unfold trigger_entry. entry_pure trigger_pattern.
Qed.

Lemma functions_pure s :
  for_each function_entry (finditer function_pattern s)
  = Ok (map pair_of (finditer function_pattern s)).
Proof.
  apply for_each_pure. unfold function_entry. entry_pure function_pattern.
Qed.

Lemma index_entry_raises m :
  m_ngroups m = ngroups index_pattern -> index_entry m = Raise IndexError.
Proof.
  intros Hm; simpl in Hm. unfold index_entry.
  repeat (rewrite group_ok by (rewrite Hm; repeat constructor)); simpl.
  rewrite group_raises by (rewrite Hm; repeat constructor). reflexivity.
Qed.

Lemma indexes_loop s :
  for_each index_entry (finditer index_pattern s)
  = match finditer index_pattern s with
    | [] => Ok []
    | _ => Raise IndexError
    end.
Proof.
  pose proof (finditer_ngroups index_pattern s) as H.
  destruct (finditer index_pattern s) as [|m l]; [reflexivity|].
  apply for_each_raises_head, index_entry_raises. now inversion H.
Qed.

Lemma extract_cases content :
  extract_ddl_statements content
  = match finditer index_pattern content with
    | [] => Ok (collected content)
    | _ => Raise IndexError
    end.
Proof.
  unfold extract_ddl_statements.
  rewrite types_pure, tables_pure, indexes_loop; simpl.
  destruct (finditer index_pattern content); simpl; [|reflexivity].
  rewrite constraints_pure, triggers_pure, functions_pure. reflexivity.
Qed.

(** ** Extraction and [CREATE INDEX] statements *)

(** [index_pattern] has four capturing groups; the loop asks for a fifth. *)
Lemma index_pattern_groups : ngroups index_pattern = 4.
Proof. reflexivity. Qed.

(** Whenever the index pattern matches somewhere, extraction raises. *)
Lemma extract_raises_on_index content :
  finditer index_pattern content <> [] ->
  extract_ddl_statements content = Raise IndexError.
Proof.
  intros H. rewrite extract_cases.
  destruct (finditer index_pattern content); [contradiction|reflexivity].
Qed.

Lemma extract_returns_without_index content :
  finditer index_pattern content = [] ->
  extract_ddl_statements content = Ok (collected content).
Proof. intros H. rewrite extract_cases, H. reflexivity. Qed.

(** C1 (evaluation at the failing input): a single well-formed
    [CREATE INDEX] statement makes [extract_ddl_statements] raise
    [IndexError] instead of returning its dictionary. *)
Theorem extract_raises_on_plain_index :
  extract_ddl_statements plain_index = Raise IndexError.
Proof. vm_compute. reflexivity. Qed.

(** C2 (evaluation at the failing inputs): for an index with a
    [WHERE (...)] clause, and for one without, extraction raises
    [IndexError], so the pipeline emits no index line at all. *)
Theorem consolidate_raises_on_indexes :
  consolidate partial_index = Raise IndexError
  /\ consolidate index_without_where = Raise IndexError.
Proof. split; vm_compute; reflexivity. Qed.

(** C8 (evaluation at the failing input): a document with a well-formed
    [CREATE INDEX] statement followed by a [CREATE TABLE] block that is never
    closed makes extraction raise [IndexError]. *)
Theorem extract_raises_with_open_table :
  extract_ddl_statements index_then_open_table = Raise IndexError.
Proof. vm_compute. reflexivity. Qed.

(** ** Enum formatting *)

Lemma split_nonempty sep s : split sep s <> [].
Proof.
  destruct s as [|c s]; simpl; [discriminate|].
  destruct (Ascii.eqb c sep); [discriminate|].
  destruct (split sep s); discriminate.
Qed.

Lemma enum_value_lines_shape values : forall i n,
  values <> [] -> i + List.length values = n ->
  enum_value_lines i n values
  = map with_comma (removelast values) ++ [indent (last values [])].
Proof.
  induction values as [|v rest IH]; intros i n Hne Hn; [contradiction|].
  destruct rest as [|w rest].
  - simpl in *. replace (i =? n - 1) with true; [reflexivity|].
    symmetry; apply Nat.eqb_eq; lia.
  - change (enum_value_lines i n (v :: w :: rest))
      with ((if i =? n - 1 then indent v else indent v ++ lit ",")
              :: enum_value_lines (S i) n (w :: rest)).
    rewrite (IH (S i) n) by (simpl in *; (discriminate || lia)).
    replace (i =? n - 1) with false.
    + reflexivity.
    + symmetry; apply Nat.eqb_neq; simpl in Hn; lia.
Qed.

(** ** Naming check of the migration-order validator *)

Section NamingCheck.
Import MigrationOrder.
Variable strftime : datetime -> text.

Lemma naming_loop_issues ms : snd (naming_loop ms) = existsb too_short ms.
Proof.
  induction ms as [|[[t name] path] ms IH]; simpl; [reflexivity|].
  destruct (naming_loop ms) as [out issues]; simpl in *. now rewrite IH.
Qed.

Lemma naming_loop_warns ms t name path :
  In (t, name, path) ms -> matches name_pattern name = false ->
  In (NamingWarning name) (fst (naming_loop ms)).
Proof.
  induction ms as [|[[t' name'] path'] ms IH]; intros Hin Hm; [contradiction|].
  simpl. destruct (naming_loop ms) as [out issues]; simpl in *.
  destruct Hin as [Heq|Hin].
  - injection Heq as -> -> ->. rewrite Hm; simpl. now left.
  - apply in_or_app; right. apply in_or_app; right. now apply IH.
Qed.

(** C9: the naming check fails exactly when some name has fewer than three
    characters, and then [main] exits with status 1; a name that does not
    match the lowercase-with-underscores pattern is reported by a warning
    line and has no part in the result of the check. *)
Theorem naming_check_short_fails_convention_warns (ms : list migration) :
  snd (check_migration_naming_conventions ms) = negb (existsb too_short ms)
  /\ (existsb too_short ms = true -> snd (main strftime ms) = 1)
  /\ (forall t name path,
        In (t, name, path) ms -> matches name_pattern name = false ->
        In (NamingWarning name)
           (fst (check_migration_naming_conventions ms))).
Proof.
  assert (Hc : snd (check_migration_naming_conventions ms)
               = negb (existsb too_short ms)).
  { unfold check_migration_naming_conventions.
    rewrite <- naming_loop_issues. now destruct (naming_loop ms). }
  split; [exact Hc|split].
  - intros Hs. unfold main. destruct ms as [|m ms']; [reflexivity|].
    destruct (check_migration_order (m :: ms')) as [o1 ok1].
    destruct (check_for_duplicate_timestamps strftime (m :: ms')) as [o2 ok2].
    destruct (check_migration_naming_conventions (m :: ms')) as [o3 ok3].
    cbn [snd] in Hc. rewrite Hs in Hc. subst ok3.
    rewrite !andb_false_r. reflexivity.
  - intros t name path Hin Hm. unfold check_migration_naming_conventions.
    pose proof (naming_loop_warns ms t name path Hin Hm) as Hw.
    destruct (naming_loop ms); simpl in *. now right.
Qed.
End NamingCheck.

Lemma naming_check_short_fails_convention_warns_witness :
  snd (MigrationOrder.check_migration_naming_conventions [short_entry]) = false
  /\ snd (MigrationOrder.main (fun _ => []) [short_entry]) = 1
  /\ In (MigrationOrder.NamingWarning (lit "x"))
        (fst (MigrationOrder.check_migration_naming_conventions [short_entry])).
Proof.
  destruct (naming_check_short_fails_convention_warns (fun _ => []) [short_entry])
    as [H1 [H2 H3]].
  split; [exact H1|split].
  - apply H2. reflexivity.
  - apply (H3 epoch (lit "x") (lit "migrations/00000000000000_x")).
    + left; reflexivity.
    + reflexivity.
Defined.

(** ** Order of the emitted sections *)

Lemma split_app_sep sep a b :
  split sep (a ++ sep :: b) = split sep a ++ split sep b.
Proof.
  induction a as [|c a IH]; simpl.
  - now rewrite Ascii.eqb_refl.
  - destruct (Ascii.eqb c sep); [now rewrite IH|].
    rewrite IH. pose proof (split_nonempty sep a) as Hne.
    destruct (split sep a); [contradiction|reflexivity].
Qed.

Lemma split_join sep entries :
  entries <> [] ->
  split sep (join [sep] entries) = flat_map (split sep) entries.
Proof.
  induction entries as [|e rest IH]; intros Hne; [contradiction|].
  destruct rest as [|e' rest].
  - simpl. now rewrite app_nil_r.
  - change (join [sep] (e :: e' :: rest)) with (e ++ sep :: join [sep] (e' :: rest)).
    rewrite split_app_sep, IH by discriminate. reflexivity.
Qed.

Lemma locate_ordered {A} (blocks : list (list A)) : forall i j a b,
  locate blocks i = Some a -> locate blocks j = Some b -> a < b -> i < j.
Proof.
  induction blocks as [|b0 blocks IH]; intros i j a b Hi Hj Hab; [discriminate|].
  simpl in Hi, Hj.
  destruct (Nat.ltb_spec i (List.length b0)) as [Hl|Hl];
    destruct (Nat.ltb_spec j (List.length b0)) as [Hl'|Hl'].
  - injection Hi as <-; injection Hj as <-; lia.
  - lia.
  - injection Hj as <-; lia.
  - destruct (locate blocks (i - List.length b0)) as [a'|] eqn:Ea; [|discriminate].
    destruct (locate blocks (j - List.length b0)) as [b'|] eqn:Eb; [|discriminate].
    injection Hi as <-; injection Hj as <-.
    assert (i - List.length b0 < j - List.length b0) by (eapply IH; eauto; lia).
    lia.
Qed.

Lemma nth_error_parts_rank n p : nth_error parts n = Some p -> rank p = n.
Proof.
  do 7 (destruct n as [|n]; [intros H; injection H as <-; reflexivity|]).
  destruct n; discriminate.
Qed.

(** C3: the lines of the emitted text are those of the header, then of the
    Extensions, EnumTypes, Tables, Constraints, Indexes and Triggers
    sections, in this order; so a line of a part stands at a smaller offset
    than every line of a part that comes later in this order. *)
Theorem emission_order (st : statements) :
  out_lines st
  = entry_lines header ++ entry_lines (extensions_section st)
      ++ entry_lines (types_section st) ++ entry_lines (tables_section st)
      ++ entry_lines (constraints_section st)
      ++ entry_lines (indexes_section st)
      ++ entry_lines (triggers_section st)
  /\ forall i j p q,
       part_at st i = Some p -> part_at st j = Some q ->
       rank p < rank q -> i < j.
Proof.
  split.
  - unfold out_lines, generate_consolidated_migration, migration_sql.
    rewrite split_join by discriminate.
    unfold entry_lines. rewrite !flat_map_app. reflexivity.
  - unfold part_at. intros i j p q Hp Hq Hr.
    destruct (locate _ i) as [a|] eqn:Ea; [|discriminate].
    destruct (locate _ j) as [b|] eqn:Eb; [|discriminate].
    apply nth_error_parts_rank in Hp, Hq. subst a b.
    eapply locate_ordered; eauto.
Qed.

Lemma emission_order_witness :
  part_at sample_statements 5 = Some Extensions
  /\ part_at sample_statements 8 = Some EnumTypes
  /\ 5 < 8.
Proof.
  assert (Hp : part_at sample_statements 5 = Some Extensions) by reflexivity.
  assert (Hq : part_at sample_statements 8 = Some EnumTypes) by reflexivity.
  split; [exact Hp|split; [exact Hq|]].
  destruct (emission_order sample_statements) as [_ H].
  apply (H 5 8 Extensions EnumTypes Hp Hq). simpl; lia.
Defined.

(** ** Shape of the extracted dictionary *)

Lemma increasing_from_sorted l : forall lo,
  increasing_from lo l ->
  StronglySorted lt l /\ Forall (fun x => lo <= x) l.
Proof.
  induction l as [|x l IH]; intros lo H; simpl in H.
  - split; constructor.
  - destruct H as [Hlo H]. destruct (IH _ H) as [Hs Hall]. split.
    + constructor; [exact Hs|].
      eapply Forall_impl; [|exact Hall]. intros y Hy; simpl in Hy; lia.
    + constructor; [exact Hlo|].
      eapply Forall_impl; [|exact Hall]. intros y Hy; simpl in Hy; lia.
Qed.

Lemma starts_sorted r content : StronglySorted lt (starts r content).
Proof.
  unfold starts, finditer.
  exact (proj1 (increasing_from_sorted _ 0 (scan_increasing r 0 0 content))).
Qed.

(** C10: when extraction returns, each of the seven entries of the
    dictionary is the list obtained, in order, from the matches of its
    pattern (the diesel table dropped, no index at all), and the matches of
    a pattern come at strictly increasing offsets of the input: every list
    is in first-seen order. *)
Theorem extracted_lists_in_match_order content st :
  extract_ddl_statements content = Ok st ->
  extensions st = map (fun m => grp m 1) (finditer extension_pattern content)
  /\ types st = map type_of (finditer type_pattern content)
  /\ tables st = somes (map table_of (finditer table_pattern content))
  /\ (indexes st = [] /\ finditer index_pattern content = [])
  /\ constraints st = map constraint_of (finditer constraint_pattern content)
  /\ triggers st = map pair_of (finditer trigger_pattern content)
  /\ functions st = map pair_of (finditer function_pattern content)
  /\ forall r, StronglySorted lt (starts r content).
Proof.
  intros H. rewrite extract_cases in H.
  destruct (finditer index_pattern content) eqn:E; [|discriminate].
  injection H as <-. repeat (split; try reflexivity).
  intros r; apply starts_sorted.
Qed.

Lemma extracted_lists_in_match_order_witness :
  extract_ddl_statements small_dump = Ok (collected small_dump)
  /\ map fst (tables (collected small_dump)) = [lit "orders"; lit "items"]
  /\ StronglySorted lt (starts table_pattern small_dump).
Proof.
  assert (H : extract_ddl_statements small_dump = Ok (collected small_dump))
    by (vm_compute; reflexivity).
  destruct (extracted_lists_in_match_order small_dump _ H)
    as (_ & _ & Ht & _ & _ & _ & _ & Hs).
  split; [exact H|split; [|apply Hs]].
  rewrite Ht. vm_compute. reflexivity.
Defined.

(** ** Soundness of the matcher *)

Lemma match_lit_sound l : forall s s', match_lit l s = Some s' -> s = l ++ s'.
Proof.
  induction l as [|a l IH]; intros s s' H; simpl in H.
  - now injection H as <-.
  - destruct s as [|c s]; [discriminate|].
    destruct (Ascii.eqb_spec a c) as [->|]; [|discriminate].
    simpl. f_equal. now apply IH.
Qed.

Lemma match_lit_app l s : match_lit l (l ++ s) = Some s.
Proof.
  induction l as [|a l IH]; simpl; [reflexivity|].
  now rewrite Ascii.eqb_refl.
Qed.

Lemma star_sound {R} cls (k : text -> option R) : forall s x,
  star R cls s k = Some x ->
  exists a s', s = a ++ s' /\ forallb cls a = true /\ k s' = Some x.
Proof.
  induction s as [|c s IH]; intros x H; simpl in H.
  - exists [], []. auto.
  - destruct (cls c) eqn:Ec.
    + destruct (star R cls s k) as [y|] eqn:Es.
      * injection H as <-. destruct (IH _ eq_refl) as (a & s' & -> & Ha & Hk).
        exists (c :: a), s'. simpl. rewrite Ec. auto.
      * exists [], (c :: s). auto.
    + exists [], (c :: s). auto.
Qed.

Lemma run_sound {R} r : forall s caps (k : text -> list text -> option R) x,
  run R r s caps k = Some x ->
  exists s' caps', denote r s s' caps caps' /\ k s' caps' = Some x.
Proof.
  induction r as [l|cls|cls|cls|r1 IH1 r2 IH2|r IH|r IH|];
    intros s caps k x H; simpl in H.
  - destruct (match_lit l s) as [s'|] eqn:E; [|discriminate].
    exists s', caps. simpl. split; [split; [now apply match_lit_sound|reflexivity]|exact H].
  - destruct s as [|c s]; [discriminate|]. destruct (cls c) eqn:Ec; [|discriminate].
    exists s, caps. simpl. split; [|exact H]. split; [exists c; auto|reflexivity].
  - apply star_sound in H. destruct H as (a & s' & -> & Ha & Hk).
    exists s', caps. simpl. split; [|exact Hk]. split; [exists a; auto|reflexivity].
  - destruct s as [|c s]; [discriminate|]. destruct (cls c) eqn:Ec; [|discriminate].
    apply star_sound in H. destruct H as (a & s' & -> & Ha & Hk).
    exists s', caps. simpl. split; [|exact Hk]. split; [|reflexivity].
    exists (c :: a). simpl. rewrite Ec. repeat split; [discriminate|exact Ha].
  - apply IH1 in H. destruct H as (s1 & caps1 & H1 & H).
    apply IH2 in H. destruct H as (s' & caps' & H2 & H).
    exists s', caps'. split; [|exact H]. simpl. eauto.
  - apply IH in H. destruct H as (s' & caps1 & H1 & H).
    eexists s', _. split; [|exact H]. simpl. eauto.
  - destruct (run R r s caps k) as [y|] eqn:E.
    + injection H as <-. apply IH in E. destruct E as (s' & caps' & H1 & H).
      exists s', caps'. split; [left; exact H1|exact H].
    + exists s, caps. split; [right; auto|exact H].
  - destruct s as [|c [|d s]].
    + exists [], caps. simpl. auto.
    + destruct (Ascii.eqb_spec c nl) as [->|]; [|discriminate].
      exists [nl], caps. simpl. auto.
    + discriminate.
Qed.

Lemma match_here_sound r s caps rest :
  match_here r s = Some (caps, rest) -> denote r s rest [] caps.
Proof.
  unfold match_here. intros H. apply run_sound in H.
  destruct H as (s' & caps' & Hd & Hk). now injection Hk as <- <-.
Qed.

(** ** The diesel bookkeeping table *)

Lemma text_eqb_eq a b : text_eqb a b = true <-> a = b.
Proof.
  unfold text_eqb. destruct (list_eq_dec Ascii.ascii_dec a b); split; auto; discriminate.
Qed.

Lemma somes_in {A} (l : list (option A)) a : In a (somes l) <-> In (Some a) l.
Proof.
  induction l as [|[b|] l IH]; simpl; [tauto| |].
  - rewrite IH. split; intros [H|H]; auto; left; congruence.
  - rewrite IH. split; [auto|]. intros [H|H]; [discriminate|auto].
Qed.

Lemma tables_without_diesel content :
  ~ In diesel_table (map fst (tables (collected content))).
Proof.
  simpl. intros H. apply in_map_iff in H. destruct H as ([n d] & Hn & H).
  simpl in Hn; subst n. apply somes_in, in_map_iff in H.
  destruct H as (m & Hm & _). unfold table_of in Hm.
  destruct (text_eqb (grp m 1) diesel_table) eqn:E; simpl in Hm; [discriminate|].
  injection Hm as Hn _. apply text_eqb_eq in Hn. congruence.
Qed.

Lemma in_section {A} title (entry : A -> list text) l e :
  In e (section title entry l) ->
  e = lit title \/ e = lit "" \/ exists a, In a l /\ In e (entry a).
Proof.
  unfold section. destruct l as [|a0 l0]; [contradiction|].
  remember (a0 :: l0) as l. intros [H|H]; [auto|].
  apply in_app_or in H. destruct H as [H|[H|[]]]; [|auto].
  apply in_flat_map in H. auto.
Qed.

Lemma enum_value_line_indented vs : forall i n e,
  In e (enum_value_lines i n vs) -> exists t, e = indent t.
Proof.
  induction vs as [|w vs IH]; intros i n e H; [contradiction|].
  cbn [enum_value_lines In] in H. destruct H as [H|H]; [|eauto].
  destruct (i =? n - 1); subst e; [now exists w|].
  exists (w ++ lit ","). unfold indent. now rewrite app_assoc.
Qed.

(** No entry written by the emitter opens a [CREATE TABLE] statement for a
    table that is not in the tables collection. *)
Lemma create_table_entry_from_tables st name :
  In (lit "CREATE TABLE public." ++ name ++ lit " (") (migration_sql st) ->
  In name (map fst (tables st)).
Proof.
  unfold migration_sql. intros H.
  repeat (apply in_app_or in H; destruct H as [H|H]).
  - simpl in H. repeat (destruct H as [H|H]; [discriminate H|]). contradiction.
  - apply in_section in H. destruct H as [H|[H|(a & _ & H)]]; try discriminate H.
    simpl in H. destruct H as [H|[]]. discriminate H.
  - apply in_section in H. destruct H as [H|[H|([n v] & _ & H)]]; try discriminate H.
    simpl in H. destruct H as [H|H]; [discriminate H|].
    apply in_app_or in H. destruct H as [H|[H|[]]]; [|discriminate H].
    apply enum_value_line_indented in H. destruct H as (t & H).
    discriminate H.
  - apply in_section in H. destruct H as [H|[H|([n d] & Hin & H)]]; try discriminate H.
    simpl in H. destruct H as [H|H].
    + apply in_map_iff. exists (n, d). split; [|exact Hin].
      injection H as H. apply app_inv_tail in H. exact H.
    + apply in_app_or in H. destruct H as [H|[H|[]]]; [|discriminate H].
      apply in_map_iff in H. destruct H as (w & H & _). discriminate H.
  - apply in_section in H. destruct H as [H|[H|([[t n] d] & _ & H)]]; try discriminate H.
    simpl in H. destruct H as [H|[H|[]]]; discriminate H.
  - apply in_section in H.
    destruct H as [H|[H|([[[[n t] ty] cols] w] & _ & H)]]; try discriminate H.
    simpl in H. destruct H as [H|[]]. discriminate H.
  - apply in_section in H. destruct H as [H|[H|([n d] & _ & H)]]; try discriminate H.
    simpl in H. destruct H as [H|[]]. discriminate H.
Qed.

(** C6 (counterexample): the text of a [CREATE TABLE] statement for the
    diesel table, present verbatim in the input after a trigger statement
    that lacks its semicolon, is captured as part of the trigger definition
    and appears verbatim in the emitted output. *)
Lemma diesel_create_table_reaches_output :
  ~ (forall content out,
       consolidate content = Ok out -> occurs diesel_create_table out = false).
Proof.
  intros H.
  specialize (H trigger_before_diesel
                (generate_consolidated_migration (collected trigger_before_diesel))).
  assert (E : consolidate trigger_before_diesel
              = Ok (generate_consolidated_migration
                      (collected trigger_before_diesel)))
    by (vm_compute; reflexivity).
  apply H in E. vm_compute in E. discriminate E.
Qed.

(** C6 (amended): when extraction returns, the diesel table is not in the
    tables collection, and no entry the emitter appends is the opening line
    of a [CREATE TABLE] statement for it. *)
Theorem diesel_table_never_a_table_entry content st :
  extract_ddl_statements content = Ok st ->
  ~ In diesel_table (map fst (tables st))
  /\ ~ In diesel_create_table (migration_sql st).
Proof.
  intros H. rewrite extract_cases in H.
  destruct (finditer index_pattern content); [|discriminate].
  injection H as <-.
  pose proof (tables_without_diesel content) as Ht.
  split; [exact Ht|].
  intros Hin. apply Ht.
  now apply (create_table_entry_from_tables (collected content) diesel_table).
Qed.

Lemma diesel_table_never_a_table_entry_witness :
  extract_ddl_statements dump_with_diesel = Ok (collected dump_with_diesel)
  /\ occurs diesel_create_table dump_with_diesel = true
  /\ map fst (tables (collected dump_with_diesel)) = [lit "orders"]
  /\ ~ In diesel_create_table (migration_sql (collected dump_with_diesel)).
Proof.
  assert (H : extract_ddl_statements dump_with_diesel
              = Ok (collected dump_with_diesel)) by (vm_compute; reflexivity).
  split; [exact H|]. split; [vm_compute; reflexivity|].
  split; [vm_compute; reflexivity|].
  exact (proj2 (diesel_table_never_a_table_entry dump_with_diesel _ H)).
Defined.

(** ** Counting the matches of a scan *)

Lemma scan_length r s : forall skip pos,
  List.length (scan r skip pos s) = nmatches r skip s.
Proof.
  unfold nmatches. induction s as [|c s IH]; intros skip pos; [reflexivity|].
  simpl. destruct skip as [|n].
  - destruct (match_here r (c :: s)) as [[caps rest]|]; simpl.
    + now rewrite (IH _ (S pos)), (IH _ 1).
    + now rewrite (IH _ (S pos)), (IH _ 1).
  - now rewrite (IH _ (S pos)), (IH _ 1).
Qed.

Lemma finditer_length r s : List.length (finditer r s) = nmatches r 0 s.
Proof. reflexivity. Qed.

Lemma nmatches_skip r a : forall b,
  nmatches r (List.length a) (a ++ b) = nmatches r 0 b.
Proof.
  unfold nmatches. induction a as [|c a IH]; intros b; [reflexivity|].
  simpl. rewrite scan_length. apply IH.
Qed.

Lemma nmatches_none r c s :
  match_here r (c :: s) = None -> nmatches r 0 (c :: s) = nmatches r 0 s.
Proof.
  unfold nmatches. intros H. simpl. rewrite H. apply scan_length.
Qed.

Lemma nmatches_match r t rest caps :
  t <> [] -> match_here r (t ++ rest) = Some (caps, rest) ->
  nmatches r 0 (t ++ rest) = S (nmatches r 0 rest).
Proof.
  intros Hne H. destruct t as [|c t]; [contradiction|].
  unfold nmatches. simpl app in *. cbn [scan]. rewrite H. cbn [List.length].
  f_equal. rewrite scan_length.
  replace (S (List.length (t ++ rest)) - List.length rest - 1) with (List.length t)
    by (rewrite length_app; lia).
  apply nmatches_skip.
Qed.

Lemma clash_match_lit l : forall w rest,
  clash l w = true -> match_lit l (w ++ rest) = None.
Proof.
  induction l as [|a l IH]; intros w rest H; [discriminate|].
  destruct w as [|c w]; [discriminate|]. simpl in *.
  destruct (Ascii.eqb a c); [now apply IH|reflexivity].
Qed.

Lemma match_here_clash l r w rest :
  clash l w = true -> match_here (Cat (Lit l) r) (w ++ rest) = None.
Proof.
  intros H. unfold match_here. simpl. now rewrite clash_match_lit.
Qed.

Lemma nmatches_no_start l r u : forall rest,
  no_start l u = true ->
  nmatches (Cat (Lit l) r) 0 (u ++ rest) = nmatches (Cat (Lit l) r) 0 rest.
Proof.
  induction u as [|c u IH]; intros rest H; [reflexivity|].
  simpl in H. apply andb_prop in H. destruct H as [Hc Hu].
  change ((c :: u) ++ rest) with (c :: (u ++ rest)).
  rewrite nmatches_none; [now apply IH|].
  change (c :: u ++ rest) with ((c :: u) ++ rest). now apply match_here_clash.
Qed.

(** A run of statements, each followed by a newline: one match each. *)
Lemma nmatches_statements {A} l r (stmt : A -> text) (items : list A) :
  clash l [nl] = true ->
  Forall (fun a => stmt a <> [] /\
                   forall rest, exists caps,
                     match_here (Cat (Lit l) r) (stmt a ++ nl :: rest)
                     = Some (caps, nl :: rest)) items ->
  nmatches (Cat (Lit l) r) 0 (List.concat (map (fun a => stmt a ++ [nl]) items))
  = List.length items.
Proof.
  intros Hnl. induction 1 as [|a items [Hne Hm] _ IH]; [reflexivity|].
  simpl. rewrite <- app_assoc. simpl.
  destruct (Hm (List.concat (map (fun a => stmt a ++ [nl]) items))) as [caps Hc].
  rewrite (nmatches_match _ _ _ caps Hne Hc).
  f_equal. etransitivity; [|exact IH].
  apply (nmatches_no_start l r [nl]). simpl. now rewrite Hnl.
Qed.

(** ** Matching an emitted statement *)

Section Forward.
Variable R : Type.
Implicit Types (k : text -> list text -> option R) (x : R).

Lemma run_lit l s caps k : run R (Lit l) (l ++ s) caps k = k s caps.
Proof. simpl. now rewrite match_lit_app. Qed.

Lemma star_all cls (k1 : text -> option R) a : forall b x,
  forallb cls a = true -> stops cls b -> k1 b = Some x ->
  star R cls (a ++ b) k1 = Some x.
Proof.
  induction a as [|c a IH]; intros b x Ha Hb Hk.
  - destruct b as [|d b]; simpl in *; [exact Hk|]. now rewrite Hb.
  - simpl in *. apply andb_prop in Ha. destruct Ha as [-> Ha].
    now rewrite (IH b x).
Qed.

Lemma star_back_one cls (k1 : text -> option R) a : forall c b x,
  forallb cls a = true -> cls c = true -> stops cls b ->
  k1 b = None -> k1 (c :: b) = Some x ->
  star R cls (a ++ c :: b) k1 = Some x.
Proof.
  induction a as [|d a IH]; intros c b x Ha Hc Hb Hn Hk.
  - simpl. rewrite Hc.
    assert (E : star R cls b k1 = None)
      by (destruct b as [|e b]; simpl in *; [exact Hn|now rewrite Hb]).
    now rewrite E.
  - simpl in *. apply andb_prop in Ha. destruct Ha as [-> Ha].
    now rewrite (IH c b x).
Qed.

Lemma firstn_consumed (a b : text) :
  firstn (List.length (a ++ b) - List.length b) (a ++ b) = a.
Proof.
  rewrite length_app. replace (List.length a + List.length b - List.length b)
    with (List.length a + 0) by lia.
  rewrite firstn_app_2. simpl. apply app_nil_r.
Qed.

Lemma run_plus cls a b caps k x :
  a <> [] -> forallb cls a = true -> stops cls b ->
  k b caps = Some x ->
  run R (Plus cls) (a ++ b) caps k = Some x.
Proof.
  intros Hne Ha Hb Hk. destruct a as [|c a]; [contradiction|].
  simpl in *. apply andb_prop in Ha. destruct Ha as [-> Ha].
  now apply star_all.
Qed.

Lemma run_grp_plus cls a b caps k x :
  a <> [] -> forallb cls a = true -> stops cls b ->
  k b (caps ++ [a]) = Some x ->
  run R (Grp (Plus cls)) (a ++ b) caps k = Some x.
Proof.
  intros Hne Ha Hb Hk. cbn [run].
  apply (run_plus cls a b caps
           (fun s' caps' =>
              k s' (caps' ++ [firstn (List.length (a ++ b) - List.length s') (a ++ b)])));
    auto.
  now rewrite firstn_consumed.
Qed.

Lemma run_plus_back cls a c b caps k x :
  a <> [] -> forallb cls a = true -> cls c = true -> stops cls b ->
  k b caps = None -> k (c :: b) caps = Some x ->
  run R (Plus cls) (a ++ c :: b) caps k = Some x.
Proof.
  intros Hne Ha Hc Hb Hn Hk. destruct a as [|d a]; [contradiction|].
  simpl in *. apply andb_prop in Ha. destruct Ha as [-> Ha].
  now apply star_back_one.
Qed.

Lemma run_grp_plus_back cls a c b caps k x :
  a <> [] -> forallb cls a = true -> cls c = true -> stops cls b ->
  k b (caps ++ [a ++ [c]]) = None ->
  k (c :: b) (caps ++ [a]) = Some x ->
  run R (Grp (Plus cls)) (a ++ c :: b) caps k = Some x.
Proof.
  intros Hne Ha Hc Hb Hn Hk. cbn [run].
  apply (run_plus_back cls a c b caps
           (fun s' caps' =>
              k s' (caps' ++ [firstn (List.length (a ++ c :: b) - List.length s')
                                     (a ++ c :: b)])));
    auto.
  - replace (a ++ c :: b) with ((a ++ [c]) ++ b) by (now rewrite <- app_assoc).
    now rewrite firstn_consumed.
  - now rewrite firstn_consumed.
Qed.
End Forward.

(** ** The text of a section *)

Lemma join_cons sep e es :
  es <> [] -> join sep (e :: es) = e ++ sep ++ join sep es.
Proof. destruct es; [contradiction|reflexivity]. Qed.

Lemma join_app sep xs : forall ys,
  xs <> [] -> ys <> [] ->
  join sep (xs ++ ys) = join sep xs ++ sep ++ join sep ys.
Proof.
  induction xs as [|x xs IH]; intros ys Hx Hy; [contradiction|].
  destruct xs as [|x' xs].
  - simpl app. now rewrite join_cons.
  - change ((x :: x' :: xs) ++ ys) with (x :: ((x' :: xs) ++ ys)).
    rewrite join_cons by discriminate.
    rewrite IH by (auto; discriminate).
    rewrite (join_cons sep x (x' :: xs)) by discriminate.
    now rewrite <- !app_assoc.
Qed.

Lemma join_entries {A} (entry : A -> list text) (l : list A) :
  (forall a, entry a <> []) ->
  join [nl] (flat_map entry l ++ [[]])
  = List.concat (map (fun a => join [nl] (entry a) ++ [nl]) l).
Proof.
  intros Hne. induction l as [|a l IH]; [reflexivity|].
  simpl. rewrite <- app_assoc, join_app; [|apply Hne|now destruct (flat_map entry l)].
  rewrite IH. now rewrite <- app_assoc.
Qed.

Lemma section_text {A} title (entry : A -> list text) (l : list A) :
  l <> [] -> (forall a, entry a <> []) ->
  join [nl] (section title entry l)
  = (lit title ++ [nl])
      ++ List.concat (map (fun a => join [nl] (entry a) ++ [nl]) l).
Proof.
  intros Hl Hne. unfold section. destruct l as [|a0 l0]; [contradiction|].
  rewrite join_cons by (now destruct (flat_map entry (a0 :: l0))).
  rewrite join_entries by exact Hne. now rewrite <- app_assoc.
Qed.

(** ** Characters of the emitted lines *)

Section Chars.
Variable P : ascii -> bool.

Lemma forallb_rev (s : text) : forallb P (rev s) = forallb P s.
Proof.
  induction s as [|c s IH]; [reflexivity|].
  simpl. rewrite forallb_app, IH. simpl. rewrite andb_true_r. apply andb_comm.
Qed.

Lemma forallb_lstrip s : forallb P s = true -> forallb P (lstrip s) = true.
Proof.
  induction s as [|c s IH]; intros H; [reflexivity|].
  simpl. destruct (is_space c); [|exact H].
  simpl in H. apply andb_prop in H. now apply IH.
Qed.

Lemma forallb_strip s : forallb P s = true -> forallb P (strip s) = true.
Proof.
  intros H. unfold strip, rstrip. rewrite forallb_rev.
  apply forallb_lstrip. rewrite forallb_rev. now apply forallb_lstrip.
Qed.

Lemma forallb_split sep s :
  forallb P s = true -> Forall (fun w => forallb P w = true) (split sep s).
Proof.
  induction s as [|c s IH]; intros H; simpl.
  - repeat constructor.
  - simpl in H. apply andb_prop in H. destruct H as [Hc Hs].
    specialize (IH Hs). destruct (Ascii.eqb c sep).
    + constructor; [reflexivity|exact IH].
    + destruct (split sep s) as [|w ws]; [repeat constructor; simpl; now rewrite Hc|].
      inversion IH; subst. constructor; [simpl; now rewrite Hc|assumption].
Qed.

Lemma forallb_join sep parts :
  forallb P sep = true -> Forall (fun w => forallb P w = true) parts ->
  forallb P (join sep parts) = true.
Proof.
  intros Hsep. induction 1 as [|w ws Hw Hws IH]; [reflexivity|].
  destruct ws as [|w' ws]; [exact Hw|].
  rewrite join_cons by discriminate.
  rewrite !forallb_app, Hw, Hsep. exact IH.
Qed.

Lemma forallb_enum_value_lines vs : forall i n,
  P " "%char = true -> P comma = true ->
  Forall (fun w => forallb P w = true) vs ->
  Forall (fun w => forallb P w = true) (enum_value_lines i n vs).
Proof.
  induction vs as [|v vs IH]; intros i n Hsp Hco H; [constructor|].
  inversion H as [|? ? Hv Hvs]; subst. cbn [enum_value_lines].
  constructor; [|now apply IH].
  unfold comma in Hco.
  destruct (i =? n - 1); unfold indent; rewrite ?forallb_app, Hv; simpl;
    rewrite ?Hsp, ?Hco; reflexivity.
Qed.

Lemma Forall_map_strip ws :
  Forall (fun w => forallb P w = true) ws ->
  Forall (fun w => forallb P w = true) (map strip ws).
Proof.
  induction 1; constructor; auto. now apply forallb_strip.
Qed.

Lemma Forall_map_indent_strip ws :
  P " "%char = true ->
  Forall (fun w => forallb P w = true) ws ->
  Forall (fun w => forallb P w = true) (map (fun line => indent (strip line)) ws).
Proof.
  intros Hsp. induction 1 as [|w ws Hw _ IH]; constructor; auto.
  unfold indent. rewrite forallb_app, (forallb_strip _ Hw). simpl.
  now rewrite Hsp.
Qed.
End Chars.

(** ** Each emitted statement is matched by the pattern of its category *)

Lemma run_cat {R} r1 r2 s caps (k : text -> list text -> option R) :
  run R (Cat r1 r2) s caps k
  = run R r1 s caps (fun s' caps' => run R r2 s' caps' k).
Proof. reflexivity. Qed.

Lemma is_name_inv s :
  is_name s = true -> s <> [] /\ forallb is_word s = true.
Proof.
  unfold is_name. intros H. apply andb_prop in H. destruct H as [Hn Hw].
  split; [now destruct s|exact Hw].
Qed.

Lemma is_definition_inv s :
  is_definition s = true -> s <> [] /\ forallb (not_char semicolon) s = true.
Proof.
  unfold is_definition. intros H. apply andb_prop in H. destruct H as [Hn Hw].
  split; [now destruct s|exact Hw].
Qed.

Ltac lit_step := rewrite run_cat, run_lit; cbv beta.
Ltac last_lit := rewrite run_lit; cbv beta.

Lemma extension_statement_matches ext rest :
  is_name ext = true ->
  exists caps,
    match_here extension_pattern (join [nl] (extension_entry ext) ++ nl :: rest)
    = Some (caps, nl :: rest).
Proof.
  intros H. apply is_name_inv in H. destruct H as [Hne Hw].
  eexists. unfold match_here, extension_pattern, extension_entry, seq, join, word.
  rewrite <- !app_assoc. lit_step. rewrite run_cat.
  apply run_grp_plus; [exact Hne|exact Hw|reflexivity|].
  last_lit. reflexivity.
Qed.

Lemma trigger_statement_matches t rest :
  trigger_ok t = true ->
  exists caps,
    match_here trigger_pattern (join [nl] (trigger_lines t) ++ nl :: rest)
    = Some (caps, nl :: rest).
Proof.
  destruct t as [name def]. intros H. apply andb_prop in H.
  destruct H as [Hn Hd]. apply is_name_inv in Hn. destruct Hn as [Hne Hw].
  apply is_definition_inv in Hd. destruct Hd as [Hdne Hdw].
  eexists. unfold match_here, trigger_pattern, trigger_lines, seq, join, word, no_semi.
  rewrite <- !app_assoc. lit_step. rewrite run_cat.
  apply run_grp_plus; [exact Hne|exact Hw|reflexivity|].
  lit_step. rewrite run_cat.
  apply run_grp_plus; [exact Hdne|exact Hdw|reflexivity|].
  last_lit. reflexivity.
Qed.

Lemma constraint_statement_matches c rest :
  constraint_ok c = true ->
  exists caps,
    match_here constraint_pattern (join [nl] (constraint_lines c) ++ nl :: rest)
    = Some (caps, nl :: rest).
Proof.
  destruct c as [[tname name] def]. intros H. apply andb_prop in H.
  destruct H as [H Hd]. apply andb_prop in H. destruct H as [Ht Hn].
  apply is_name_inv in Ht, Hn. destruct Ht as [Htne Htw], Hn as [Hne Hw].
  apply is_definition_inv in Hd. destruct Hd as [Hdne Hdw].
  eexists.
  unfold match_here, constraint_pattern, constraint_lines, seq, join, word,
    no_semi, spaces.
  rewrite <- !app_assoc. lit_step. rewrite run_cat.
  apply run_grp_plus; [exact Htne|exact Htw|reflexivity|].
  rewrite run_cat.
  change (lit "    ADD CONSTRAINT " ++ name ++ lit " " ++ def ++ lit ";" ++ nl :: rest)
    with (lit "    " ++ lit "ADD CONSTRAINT " ++ name ++ lit " " ++ def
            ++ lit ";" ++ nl :: rest).
  change ([nl] ++ lit "    " ++ lit "ADD CONSTRAINT " ++ name ++ lit " " ++ def
            ++ lit ";" ++ nl :: rest)
    with ((nl :: lit "    ") ++ lit "ADD CONSTRAINT " ++ name ++ lit " " ++ def
            ++ lit ";" ++ nl :: rest).
  apply run_plus; [discriminate|reflexivity|reflexivity|].
  lit_step. rewrite run_cat.
  apply run_grp_plus; [exact Hne|exact Hw|reflexivity|].
  lit_step. rewrite run_cat.
  apply run_grp_plus; [exact Hdne|exact Hdw|reflexivity|].
  last_lit. reflexivity.
Qed.

Lemma enum_lines_nonempty v : enum_lines v <> [].
Proof.
  unfold enum_lines.
  rewrite (enum_value_lines_shape _ 0 (List.length (enum_values_of v))).
  - now destruct (map with_comma (removelast (enum_values_of v))).
  - unfold enum_values_of. intros H. apply map_eq_nil in H.
    now apply split_nonempty in H.
  - reflexivity.
Qed.

Lemma join_wrapped open body close :
  body <> [] ->
  join [nl] ([open] ++ body ++ [close])
  = open ++ ([nl] ++ join [nl] body ++ [nl]) ++ close.
Proof.
  intros H. simpl app. rewrite join_cons by (now destruct body).
  rewrite join_app by (auto; discriminate). simpl join.
  now rewrite <- !app_assoc.
Qed.

Lemma enum_body_free v :
  free_of rparen v = true ->
  forallb (not_char rparen) ([nl] ++ join [nl] (enum_lines v) ++ [nl]) = true.
Proof.
  intros H. rewrite !forallb_app. simpl. rewrite andb_true_r.
  apply forallb_join; [reflexivity|].
  apply forallb_enum_value_lines; [reflexivity|reflexivity|].
  apply Forall_map_strip, forallb_split, H.
Qed.

Lemma type_statement_matches t rest :
  type_ok t = true ->
  exists caps,
    match_here type_pattern (join [nl] (type_lines t) ++ nl :: rest)
    = Some (caps, nl :: rest).
Proof.
  destruct t as [name v]. intros H. apply andb_prop in H.
  destruct H as [Hn Hv]. apply is_name_inv in Hn. destruct Hn as [Hne Hw].
  eexists. unfold match_here, type_pattern, type_lines, seq, word, no_rparen.
  rewrite join_wrapped by apply enum_lines_nonempty.
  rewrite <- !(app_assoc (lit "CREATE TYPE public.")).
  rewrite <- !(app_assoc name). rewrite <- !(app_assoc (lit " AS ENUM (")).
  rewrite <- (app_assoc _ (lit ");")).
  lit_step. rewrite run_cat.
  apply run_grp_plus; [exact Hne|exact Hw|reflexivity|].
  lit_step. rewrite run_cat.
  apply run_grp_plus; [discriminate|now apply enum_body_free|reflexivity|].
  last_lit. reflexivity.
Qed.

Lemma table_body_free d :
  free_of semicolon d = true ->
  forallb (not_char semicolon)
          ([nl] ++ join [nl] (map (fun line => indent (strip line))
                                   (split nl (strip d))) ++ [nl]) = true.
Proof.
  intros H. rewrite !forallb_app. simpl. rewrite andb_true_r.
  apply forallb_join; [reflexivity|].
  apply Forall_map_indent_strip; [reflexivity|].
  apply forallb_split, forallb_strip, H.
Qed.

Lemma table_statement_matches t rest :
  table_ok t = true ->
  exists caps,
    match_here table_pattern (join [nl] (table_lines t) ++ nl :: rest)
    = Some (caps, nl :: rest).
Proof.
  destruct t as [name d]. intros H. apply andb_prop in H.
  destruct H as [Hn Hd]. apply is_name_inv in Hn. destruct Hn as [Hne Hw].
  eexists. unfold match_here, table_pattern, table_lines, seq, word, no_semi.
  rewrite join_wrapped
    by (intros E; apply map_eq_nil in E; now apply split_nonempty in E).
  rewrite <- !(app_assoc (lit "CREATE TABLE public.")).
  rewrite <- !(app_assoc name). rewrite <- !(app_assoc (lit " (")).
  rewrite <- (app_assoc _ (lit ");")).
  lit_step. rewrite run_cat.
  apply run_grp_plus; [exact Hne|exact Hw|reflexivity|].
  lit_step. rewrite run_cat.
  change (lit ");" ++ nl :: rest) with (rparen :: semicolon :: nl :: rest).
  apply run_grp_plus_back;
    [discriminate|now apply table_body_free|reflexivity|reflexivity| |].
  - reflexivity.
  - reflexivity.
Qed.

(** ** What the patterns capture *)

Lemma scan_in r m s : forall skip pos,
  In m (scan r skip pos s) ->
  exists suf rest, match_here r suf = Some (m_groups m, rest).
Proof.
  induction s as [|c s IH]; intros skip pos H; [contradiction|].
  simpl in H. destruct skip as [|n]; [|eauto].
  destruct (match_here r (c :: s)) as [[caps rest]|] eqn:E; [|eauto].
  destruct H as [<-|H]; [|eauto]. simpl. eauto.
Qed.

Lemma denote_grp_plus cls s s' caps caps' :
  denote (Grp (Plus cls)) s s' caps caps' ->
  exists a, a <> [] /\ forallb cls a = true /\ s = a ++ s' /\ caps' = caps ++ [a].
Proof.
  simpl. intros (caps1 & ((a & Hne & -> & Ha) & ->) & ->).
  exists a. rewrite firstn_consumed. auto.
Qed.

Lemma is_name_intro a : a <> [] -> forallb is_word a = true -> is_name a = true.
Proof. intros Hne Hw. unfold is_name. rewrite Hw. now destruct a. Qed.

Lemma is_definition_intro a :
  a <> [] -> forallb (not_char semicolon) a = true -> is_definition a = true.
Proof.
  intros Hne Hw. unfold is_definition, free_of. rewrite Hw. now destruct a.
Qed.

Ltac open_cat H :=
  let s := fresh "s" in let c := fresh "c" in let H1 := fresh "H" in
  destruct H as (s & c & H1 & H).

Ltac open_lit H :=
  let s := fresh "s" in let c := fresh "c" in let H1 := fresh "H" in
  destruct H as (s & c & H1 & H); destruct H1 as [-> ->].

Ltac open_grp H :=
  let s := fresh "s" in let c := fresh "c" in let H1 := fresh "H" in
  let a := fresh "g" in let Hne := fresh "Hne" in let Ha := fresh "Hg" in
  destruct H as (s & c & H1 & H);
  apply denote_grp_plus in H1; destruct H1 as (a & Hne & Ha & -> & ->).

Lemma extension_groups suf caps rest :
  match_here extension_pattern suf = Some (caps, rest) ->
  exists n, caps = [n] /\ is_name n = true.
Proof.
  intros H. apply match_here_sound in H.
  unfold extension_pattern, seq, word in H. cbn [denote] in H.
  open_lit H. open_grp H. destruct H as [_ ->].
  eexists. split; [reflexivity|now apply is_name_intro].
Qed.

Lemma type_groups suf caps rest :
  match_here type_pattern suf = Some (caps, rest) ->
  exists n v, caps = [n; v] /\ is_name n = true /\ free_of rparen v = true.
Proof.
  intros H. apply match_here_sound in H.
  unfold type_pattern, seq, word, no_rparen in H. cbn [denote] in H.
  open_lit H. open_grp H. open_lit H. open_grp H. destruct H as [_ ->].
  eexists _, _. split; [reflexivity|]. split; [now apply is_name_intro|assumption].
Qed.

Lemma table_groups suf caps rest :
  match_here table_pattern suf = Some (caps, rest) ->
  exists n d, caps = [n; d] /\ is_name n = true /\ free_of semicolon d = true.
Proof.
  intros H. apply match_here_sound in H.
  unfold table_pattern, seq, word, no_semi in H. cbn [denote] in H.
  open_lit H. open_grp H. open_lit H. open_grp H. destruct H as [_ ->].
  eexists _, _. split; [reflexivity|]. split; [now apply is_name_intro|assumption].
Qed.

Lemma constraint_groups suf caps rest :
  match_here constraint_pattern suf = Some (caps, rest) ->
  exists t n d, caps = [t; n; d] /\ is_name t = true /\ is_name n = true
                /\ is_definition d = true.
Proof.
  intros H. apply match_here_sound in H.
  unfold constraint_pattern, seq, word, no_semi, spaces in H. cbn [denote] in H.
  open_lit H. open_grp H. open_cat H. destruct H0 as [_ ->].
  open_lit H. open_grp H. open_lit H. open_grp H. destruct H as [_ ->].
  eexists _, _, _. split; [reflexivity|].
  repeat split; (now apply is_name_intro) || (now apply is_definition_intro).
Qed.

Lemma trigger_groups suf caps rest :
  match_here trigger_pattern suf = Some (caps, rest) ->
  exists n d, caps = [n; d] /\ is_name n = true /\ is_definition d = true.
Proof.
  intros H. apply match_here_sound in H.
  unfold trigger_pattern, seq, word, no_semi in H. cbn [denote] in H.
  open_lit H. open_grp H. open_lit H. open_grp H. destruct H as [_ ->].
  eexists _, _. split; [reflexivity|].
  split; [now apply is_name_intro|now apply is_definition_intro].
Qed.

(** ** Extraction yields well-formed statements *)

Lemma finditer_in r m s :
  In m (finditer r s) ->
  exists suf rest, match_here r suf = Some (m_groups m, rest).
Proof. apply scan_in. Qed.

Lemma collected_well_formed content : well_formed (collected content) = true.
Proof.
  unfold well_formed, collected; cbn [extensions types tables constraints triggers].
  repeat (apply andb_true_intro; split); apply forallb_forall.
  - intros n H. unfold findall1 in H. apply in_map_iff in H.
    destruct H as (m & <- & Hm). apply finditer_in in Hm.
    destruct Hm as (suf & rest & Hm). apply extension_groups in Hm.
    destruct Hm as (n & -> & Hn). exact Hn.
  - intros t H. apply in_map_iff in H.
    destruct H as (m & <- & Hm). apply finditer_in in Hm.
    destruct Hm as (suf & rest & Hm). apply type_groups in Hm.
    destruct Hm as (n & v & E & Hn & Hv). unfold type_of, grp. rewrite E.
    simpl. rewrite Hn. now apply forallb_strip.
  - intros t H. apply somes_in, in_map_iff in H.
    destruct H as (m & E' & Hm). apply finditer_in in Hm.
    destruct Hm as (suf & rest & Hm). apply table_groups in Hm.
    destruct Hm as (n & v & E & Hn & Hv). unfold table_of, grp in E'.
    rewrite E in E'. simpl in E'.
    destruct (negb (text_eqb n diesel_table)); [|discriminate].
    injection E' as <-. simpl. rewrite Hn. now apply forallb_strip.
  - intros t H. apply in_map_iff in H.
    destruct H as (m & <- & Hm). apply finditer_in in Hm.
    destruct Hm as (suf & rest & Hm). apply constraint_groups in Hm.
    destruct Hm as (tn & n & d & E & Ht & Hn & Hd).
    unfold constraint_of, grp. rewrite E. simpl. now rewrite Ht, Hn, Hd.
  - intros t H. apply in_map_iff in H.
    destruct H as (m & <- & Hm). apply finditer_in in Hm.
    destruct Hm as (suf & rest & Hm). apply trigger_groups in Hm.
    destruct Hm as (n & d & E & Hn & Hd).
    unfold pair_of, grp. rewrite E. simpl. now rewrite Hn, Hd.
Qed.

(** ** Re-extraction of an emitted section *)

Lemma section_matches {A} l r title (entry : A -> list text) (items : list A) :
  no_start l (lit title ++ [nl]) = true ->
  clash l [nl] = true ->
  (forall a, entry a <> []) ->
  Forall (fun a => join [nl] (entry a) <> [] /\
                   forall rest, exists caps,
                     match_here (Cat (Lit l) r) (join [nl] (entry a) ++ nl :: rest)
                     = Some (caps, nl :: rest)) items ->
  section_count (Cat (Lit l) r) (section title entry items) = List.length items.
Proof.
  intros Ht Hnl Hne Hall. unfold section_count. rewrite finditer_length.
  destruct items as [|a0 items0]; [reflexivity|].
  rewrite section_text by (auto; discriminate).
  rewrite nmatches_no_start by exact Ht.
  now apply (nmatches_statements l r (fun a => join [nl] (entry a))).
Qed.

Lemma well_formed_section_counts st :
  well_formed st = true ->
  section_count extension_pattern (extensions_section st)
  = List.length (extensions st)
  /\ section_count type_pattern (types_section st) = List.length (types st)
  /\ section_count table_pattern (tables_section st) = List.length (tables st)
  /\ section_count constraint_pattern (constraints_section st)
     = List.length (constraints st)
  /\ section_count trigger_pattern (triggers_section st)
     = List.length (triggers st).
Proof.
  unfold well_formed. intros H.
  repeat (apply andb_prop in H; let H' := fresh "Hw" in destruct H as [H H']).
  rewrite forallb_forall in H, Hw, Hw0, Hw1, Hw2.
  repeat split.
  - apply (section_matches (lit "CREATE EXTENSION IF NOT EXISTS "));
      [reflexivity|reflexivity|discriminate|].
    apply Forall_forall. intros a Ha. split; [discriminate|].
    intros rest. now apply extension_statement_matches, H.
  - apply (section_matches (lit "CREATE TYPE public."));
      [reflexivity|reflexivity|now intros [n v]|].
    apply Forall_forall. intros a Ha. split.
    { destruct a as [n v]. unfold type_lines.
      rewrite join_wrapped by apply enum_lines_nonempty. discriminate. }
    intros rest. now apply type_statement_matches, Hw2.
  - apply (section_matches (lit "CREATE TABLE public."));
      [reflexivity|reflexivity|now intros [n v]|].
    apply Forall_forall. intros a Ha. split.
    { destruct a as [n v]. unfold table_lines.
      rewrite join_wrapped
        by (intros E; apply map_eq_nil in E; now apply split_nonempty in E).
      discriminate. }
    intros rest. now apply table_statement_matches, Hw1.
  - apply (section_matches (lit "ALTER TABLE ONLY public."));
      [reflexivity|reflexivity|now intros [[t n] v]|].
    apply Forall_forall. intros a Ha. split; [now destruct a as [[t n] v]|].
    intros rest. now apply constraint_statement_matches, Hw0.
  - apply (section_matches (lit "CREATE TRIGGER "));
      [reflexivity|reflexivity|now intros [n v]|].
    apply Forall_forall. intros a Ha. split; [now destruct a|].
    intros rest. now apply trigger_statement_matches, Hw.
Qed.

(** ** Idempotence of extraction after emission *)

(** C4 (counterexample): a dump without any index in which a trigger
    statement lacks its semicolon and is followed by a table.  The table is
    extracted once; the emitted text holds it twice (in the Tables section
    and inside the trigger definition), and re-extraction finds two
    tables. *)
Lemma reextraction_counts_differ :
  ~ (forall content st st',
       extract_ddl_statements content = Ok st ->
       extract_ddl_statements (generate_consolidated_migration st) = Ok st' ->
       same_counts st st').
Proof.
  intros H.
  specialize (H trigger_before_table (collected trigger_before_table)
                (collected (generate_consolidated_migration
                              (collected trigger_before_table)))).
  assert (E1 : extract_ddl_statements trigger_before_table
               = Ok (collected trigger_before_table)) by (vm_compute; reflexivity).
  assert (E2 : extract_ddl_statements
                 (generate_consolidated_migration (collected trigger_before_table))
               = Ok (collected (generate_consolidated_migration
                                  (collected trigger_before_table))))
    by (vm_compute; reflexivity).
  destruct (H E1 E2) as (_ & _ & Ht & _). vm_compute in Ht. discriminate Ht.
Qed.

(** C4 (amended): when extraction of a dump returns, scanning the emitted
    section of a category with the pattern of that category finds as many
    statements as the collection holds, for Extensions, EnumTypes, Tables,
    Constraints and Triggers; the emitted text is the same whatever the
    functions collection holds. *)
Theorem reextraction_counts_by_section content st :
  extract_ddl_statements content = Ok st ->
  section_count extension_pattern (extensions_section st)
  = List.length (extensions st)
  /\ section_count type_pattern (types_section st) = List.length (types st)
  /\ section_count table_pattern (tables_section st) = List.length (tables st)
  /\ section_count constraint_pattern (constraints_section st)
     = List.length (constraints st)
  /\ section_count trigger_pattern (triggers_section st)
     = List.length (triggers st)
  /\ forall fs, generate_consolidated_migration (with_functions st fs)
                = generate_consolidated_migration st.
Proof.
  intros H. rewrite extract_cases in H.
  destruct (finditer index_pattern content); [|discriminate].
  injection H as <-.
  pose proof (well_formed_section_counts _ (collected_well_formed content))
    as (He & Hty & Htb & Hc & Htr).
  repeat (split; [assumption|]). reflexivity.
Qed.

Lemma reextraction_counts_by_section_witness :
  extract_ddl_statements small_dump = Ok (collected small_dump)
  /\ List.length (tables (collected small_dump)) = 2
  /\ section_count table_pattern (tables_section (collected small_dump)) = 2.
Proof.
  assert (H : extract_ddl_statements small_dump = Ok (collected small_dump))
    by (vm_compute; reflexivity).
  split; [exact H|]. split; [vm_compute; reflexivity|].
  destruct (reextraction_counts_by_section small_dump _ H) as (_ & _ & Ht & _).
  rewrite Ht. vm_compute. reflexivity.
Defined.

(** ** An unterminated [CREATE TABLE] block *)

Lemma scan_in_pos r m s : forall skip pos,
  In m (scan r skip pos s) ->
  exists a suf rest,
    s = a ++ suf /\ m_start m = pos + List.length a
    /\ match_here r suf = Some (m_groups m, rest)
    /\ m_len m = List.length suf - List.length rest.
Proof.
  induction s as [|c s IH]; intros skip pos H; [contradiction|].
  assert (Hrec : forall skip', In m (scan r skip' (S pos) s) ->
                 exists a suf rest,
                   c :: s = a ++ suf /\ m_start m = pos + List.length a
                   /\ match_here r suf = Some (m_groups m, rest)
                   /\ m_len m = List.length suf - List.length rest).
  { intros skip' H'. apply IH in H'.
    destruct H' as (a & suf & rest & -> & Hs & Hm & Hl).
    exists (c :: a), suf, rest. simpl. repeat split; auto; lia. }
  simpl in H. destruct skip as [|n]; [|eauto].
  destruct (match_here r (c :: s)) as [[caps rest]|] eqn:E; [|eauto].
  destruct H as [<-|H]; [|eauto].
  exists [], (c :: s), rest. simpl. repeat split; auto; lia.
Qed.

Lemma table_match_ends suf caps rest :
  match_here table_pattern suf = Some (caps, rest) ->
  exists x, suf = x ++ rparen :: semicolon :: rest.
Proof.
  intros H. apply match_here_sound in H.
  unfold table_pattern, seq, word, no_semi in H. cbn [denote] in H.
  open_lit H. open_grp H. open_lit H. open_grp H. destruct H as [-> _].
  exists (lit "CREATE TABLE public." ++ g ++ lit " (" ++ g0).
  now rewrite <- !app_assoc.
Qed.

(** No match of the table pattern reaches into a block that is never
    closed: every match ends before the block starts. *)
Lemma open_table_block_not_matched pre name body m :
  free_of rparen name = true -> free_of rparen body = true ->
  In m (finditer table_pattern (pre ++ open_table_block name body)) ->
  m_start m + m_len m <= List.length pre.
Proof.
  intros Hn Hb Hm. apply scan_in_pos in Hm.
  destruct Hm as (a & suf & rest & E & Hs & Hm & Hl).
  apply table_match_ends in Hm. destruct Hm as (x & ->).
  rewrite Hs, Hl, length_app. simpl.
  assert (Hfree : forallb (not_char rparen) (open_table_block name body) = true).
  { unfold open_table_block. rewrite !forallb_app. unfold free_of in Hn, Hb.
    now rewrite Hn, Hb. }
  rewrite app_assoc in E. apply app_eq_app in E.
  destruct E as (l & [[E1 E2]|[E1 E2]]).
  - (* the match ends inside [pre] or right after it *)
    rewrite E1, !length_app. simpl.
    destruct l as [|c1 [|c2 l]]; simpl.
    + rewrite app_nil_r in E1. simpl in E2. rewrite <- E2 in Hfree. discriminate Hfree.
    + simpl in E2. injection E2 as _ E2. unfold open_table_block in E2.
      discriminate E2.
    + lia.
  - (* the closing parenthesis would lie in the block *)
    rewrite E2 in Hfree. rewrite forallb_app in Hfree.
    apply andb_prop in Hfree. destruct Hfree as [_ Hfree]. discriminate Hfree.
Qed.

(** * Properties of the migrations directory reader *)

(** ** Matching the three name grammars *)

Lemma run_one {R} cls c s caps (k : text -> list text -> option R) :
  cls c = true -> run R (One cls) (c :: s) caps k = k s caps.
Proof. intros H. simpl. now rewrite H. Qed.

Lemma run_lit1 {R} c s caps (k : text -> list text -> option R) :
  run R (Lit [c]) (c :: s) caps k = k s caps.
Proof. simpl. now rewrite Ascii.eqb_refl. Qed.

Lemma run_lit1_fail {R} a c s caps (k : text -> list text -> option R) :
  a <> c -> run R (Lit [a]) (c :: s) caps k = None.
Proof.
  intros H. cbn [run match_lit].
  destruct (Ascii.eqb_spec a c); [contradiction|reflexivity].
Qed.

Lemma match_lit_mismatch n : forall l s a c,
  nth_error l n = Some a -> nth_error s n = Some c -> a <> c ->
  match_lit l s = None.
Proof.
  induction n as [|n IH]; intros [|a' l] [|c' s] a c Hl Hs Hne;
    try discriminate; cbn [match_lit]; simpl in Hl, Hs.
  - injection Hl as ->. injection Hs as ->.
    destruct (Ascii.eqb_spec a c); [contradiction|reflexivity].
  - rewrite (IH l s a c Hl Hs Hne). now destruct (Ascii.eqb a' c').
Qed.

Lemma is_char_eq d c : is_char d c = true -> c = d.
Proof. unfold is_char. now destruct (Ascii.eqb_spec c d). Qed.

Lemma run_grp {R} r s caps (k : text -> list text -> option R) :
  run R (Grp r) s caps k
  = run R r s caps
        (fun s' caps' => k s' (caps' ++ [firstn (List.length s - List.length s') s])).
Proof. reflexivity. Qed.

Lemma timestamp_digits_run {R} s rest caps (k : text -> list text -> option R) :
  timestamp_shape s = true ->
  run R MigrationFiles.timestamp_digits (s ++ rest) caps k = k rest caps.
Proof.
  intros H.
  do 17 (destruct s as [|? s]; [discriminate H|]).
  destruct s; [|discriminate H].
  cbn [timestamp_shape forallb] in H.
  repeat match goal with
         | Hc : _ && _ = true |- _ => apply andb_prop in Hc; destruct Hc
         end.
  repeat match goal with
         | Hc : is_char _ _ = true |- _ => apply is_char_eq in Hc; subst
         end.
  unfold MigrationFiles.timestamp_digits, MigrationFiles.digit, seq.
  cbn [app].
  repeat first
    [ rewrite run_cat
    | rewrite run_one by assumption
    | rewrite run_lit1 ]; cbv beta.
  reflexivity.
Qed.

Lemma is_label_inv s :
  is_label s = true -> s <> [] /\ forallb (not_char nl) s = true.
Proof.
  unfold is_label. intros H. apply andb_prop in H. destruct H as [Hn Hw].
  split; [now destruct s|exact Hw].
Qed.

(** [(.+)$] on a label at the end of the input. *)
Lemma label_run name caps :
  is_label name = true ->
  run _ (Cat (Grp MigrationFiles.any_char) Eos) name caps
      (fun s' caps' => Some (caps', s'))
  = Some (caps ++ [name], []).
Proof.
  intros H. apply is_label_inv in H. destruct H as [Hne Hl].
  rewrite run_cat. rewrite <- (app_nil_r name) at 1.
  unfold MigrationFiles.any_char.
  apply run_grp_plus; [exact Hne|exact Hl|exact I|reflexivity].
Qed.

Lemma groups_pattern1 ts name :
  timestamp_shape ts = true -> is_label name = true ->
  MigrationFiles.groups_of MigrationFiles.pattern1 (ts ++ lit "_" ++ name)
  = Some [ts; name].
Proof.
  intros Hts Hn. unfold MigrationFiles.groups_of, match_here, MigrationFiles.pattern1, seq.
  rewrite run_cat, run_grp, timestamp_digits_run by exact Hts.
  rewrite firstn_consumed, run_cat, run_lit.
  now rewrite label_run.
Qed.

Lemma groups_pattern2 ts sq name :
  timestamp_shape ts = true -> is_sequence sq = true -> is_label name = true ->
  MigrationFiles.groups_of MigrationFiles.pattern2
    (ts ++ [MigrationFiles.dash] ++ sq ++ lit "_" ++ name)
  = Some [ts; sq; name].
Proof.
  intros Hts Hsq Hn. unfold is_sequence in Hsq. apply andb_prop in Hsq.
  destruct Hsq as [Hlen Hd]. apply Nat.eqb_eq in Hlen.
  do 4 (destruct sq as [|? sq]; [discriminate Hlen|]).
  destruct sq; [|discriminate Hlen].
  cbn [forallb] in Hd.
  repeat match goal with
         | Hc : _ && _ = true |- _ => apply andb_prop in Hc; destruct Hc
         end.
  unfold MigrationFiles.groups_of, match_here, MigrationFiles.pattern2, seq.
  rewrite run_cat, run_grp, timestamp_digits_run by exact Hts.
  rewrite firstn_consumed. cbn [app]. rewrite run_cat, run_lit1.
  rewrite run_cat, run_grp. unfold MigrationFiles.digit.
  repeat first [rewrite run_cat | rewrite run_one by assumption]; cbv beta.
  change (a :: a0 :: a1 :: a2 :: lit "_" ++ name)
    with ([a; a0; a1; a2] ++ lit "_" ++ name).
  rewrite firstn_consumed, run_lit.
  now rewrite label_run.
Qed.

Lemma groups_pattern3 name :
  is_label name = true ->
  MigrationFiles.groups_of MigrationFiles.pattern3 (lit "00000000000000_" ++ name)
  = Some [name].
Proof.
  intros Hn. unfold MigrationFiles.groups_of, match_here, MigrationFiles.pattern3, seq.
  rewrite run_cat, run_lit. now rewrite label_run.
Qed.

(** After a timestamp, the first grammar wants an underscore and the second
    a dash; the third wants a zero where a timestamp has its first dash. *)
Lemma pattern1_needs_underscore ts c rest :
  timestamp_shape ts = true -> c <> "_"%char ->
  MigrationFiles.groups_of MigrationFiles.pattern1 (ts ++ c :: rest) = None.
Proof.
  intros Hts Hc. unfold MigrationFiles.groups_of, match_here, MigrationFiles.pattern1, seq.
  rewrite run_cat, run_grp, timestamp_digits_run by exact Hts.
  rewrite run_cat. change (lit "_") with ["_"%char].
  rewrite run_lit1_fail by congruence. reflexivity.
Qed.

Lemma pattern2_needs_dash ts c rest :
  timestamp_shape ts = true -> c <> MigrationFiles.dash ->
  MigrationFiles.groups_of MigrationFiles.pattern2 (ts ++ c :: rest) = None.
Proof.
  intros Hts Hc. unfold MigrationFiles.groups_of, match_here, MigrationFiles.pattern2, seq.
  rewrite run_cat, run_grp, timestamp_digits_run by exact Hts.
  rewrite run_cat, run_lit1_fail by congruence. reflexivity.
Qed.

Lemma pattern3_rejects_timestamp ts rest :
  timestamp_shape ts = true ->
  MigrationFiles.groups_of MigrationFiles.pattern3 (ts ++ rest) = None.
Proof.
  intros H.
  do 17 (destruct ts as [|? ts]; [discriminate H|]).
  destruct ts; [|discriminate H].
  cbn [timestamp_shape forallb] in H.
  repeat match goal with
         | Hc : _ && _ = true |- _ => apply andb_prop in Hc; destruct Hc
         end.
  repeat match goal with
         | Hc : is_char _ _ = true |- _ => apply is_char_eq in Hc; subst
         end.
  unfold MigrationFiles.groups_of, match_here, MigrationFiles.pattern3, seq.
  rewrite run_cat. cbn [run].
  rewrite (match_lit_mismatch 4 _ _ "0"%char MigrationFiles.dash);
    [reflexivity|reflexivity|reflexivity|discriminate].
Qed.

(** ** Timestamps written and read back *)

Lemma digit_char_digit k :
  k < 10 -> is_digit (digit_char k) = true /\ MigrationFiles.digit_value (digit_char k) = k.
Proof.
  intros H. do 10 (destruct k as [|k]; [split; reflexivity|]). lia.
Qed.

Lemma number2_pad2 n :
  n < 100 ->
  forallb is_digit (pad2 n) = true
  /\ MigrationFiles.number2 (digit_char (n / 10)) (digit_char (n mod 10)) = n.
Proof.
  intros H.
  assert (H1 : n / 10 < 10) by (apply Nat.Div0.div_lt_upper_bound; lia).
  assert (H2 : n mod 10 < 10) by (apply Nat.mod_upper_bound; lia).
  destruct (digit_char_digit _ H1) as [D1 V1].
  destruct (digit_char_digit _ H2) as [D2 V2].
  split.
  - unfold pad2. cbn [forallb]. now rewrite D1, D2.
  - unfold MigrationFiles.number2. rewrite V1, V2.
    pose proof (Nat.div_mod_eq n 10). lia.
Qed.

Lemma number4_pad4 n :
  n < 100 * 100 ->
  forallb is_digit (pad4 n) = true
  /\ MigrationFiles.number4 (digit_char (n / 1000)) (digit_char (n / 100 mod 10))
       (digit_char (n / 10 mod 10)) (digit_char (n mod 10)) = n.
Proof.
  intros H.
  assert (H1 : n / 1000 < 10) by (apply Nat.Div0.div_lt_upper_bound; lia).
  assert (H2 : n / 100 mod 10 < 10) by (apply Nat.mod_upper_bound; lia).
  assert (H3 : n / 10 mod 10 < 10) by (apply Nat.mod_upper_bound; lia).
  assert (H4 : n mod 10 < 10) by (apply Nat.mod_upper_bound; lia).
  destruct (digit_char_digit _ H1) as [D1 V1].
  destruct (digit_char_digit _ H2) as [D2 V2].
  destruct (digit_char_digit _ H3) as [D3 V3].
  destruct (digit_char_digit _ H4) as [D4 V4].
  split.
  - unfold pad4. cbn [forallb]. now rewrite D1, D2, D3, D4.
  - unfold MigrationFiles.number4. rewrite V1, V2, V3, V4.
    pose proof (Nat.div_mod_eq n 10) as E1.
    pose proof (Nat.div_mod_eq (n / 10) 10) as E2.
    pose proof (Nat.div_mod_eq (n / 100) 10) as E3.
    assert (E4 : n / 10 / 10 = n / 100)
      by (rewrite Nat.Div0.div_div; f_equal).
    assert (E5 : n / 100 / 10 = n / 1000)
      by (rewrite Nat.Div0.div_div; f_equal; lia).
    lia.
Qed.

Lemma fits_digits_inv t :
  fits_digits t = true ->
  MigrationOrder.year t < 100 * 100 /\ MigrationOrder.month t < 100
  /\ MigrationOrder.day t < 100 /\ MigrationOrder.hour t < 100
  /\ MigrationOrder.minute t < 100 /\ MigrationOrder.second t < 100.
Proof.
  unfold fits_digits. intros H.
  repeat match goal with
         | Hc : _ && _ = true |- _ => apply andb_prop in Hc; destruct Hc
         end.
  repeat match goal with
         | Hc : (_ <? _) = true |- _ => apply Nat.ltb_lt in Hc
         end.
  repeat split; assumption.
Qed.

Lemma valid_fits t : MigrationFiles.valid_datetime t = true -> fits_digits t = true.
Proof.
  unfold MigrationFiles.valid_datetime, fits_digits. intros H.
  repeat match goal with
         | Hc : _ && _ = true |- _ => apply andb_prop in Hc; destruct Hc
         end.
  repeat match goal with
         | Hc : (_ <=? _) = true |- _ => apply Nat.leb_le in Hc
         | Hc : (_ <? _) = true |- _ => apply Nat.ltb_lt in Hc
         end.
  assert (MigrationFiles.days_in_month (MigrationOrder.year t) (MigrationOrder.month t) <= 31).
  { unfold MigrationFiles.days_in_month.
    destruct (MigrationOrder.month t) as [|[|[|[|[|[|[|[|[|[|[|[|?]]]]]]]]]]]];
      try destruct (MigrationFiles.is_leap _); lia. }
  repeat (apply andb_true_intro; split); apply Nat.ltb_lt; lia.
Qed.

Lemma timestamp_text_read t :
  fits_digits t = true ->
  timestamp_shape (timestamp_text t) = true
  /\ MigrationFiles.strptime (timestamp_text t)
     = if MigrationFiles.valid_datetime t then Some t else None.
Proof.
  intros H. apply fits_digits_inv in H.
  destruct H as (Hy & Hm & Hd & Hh & Hn & Hs).
  destruct (number4_pad4 _ Hy) as [Dy Vy].
  destruct (number2_pad2 _ Hm) as [Dm Vm].
  destruct (number2_pad2 _ Hd) as [Dd Vd].
  destruct (number2_pad2 _ Hh) as [Dh Vh].
  destruct (number2_pad2 _ Hn) as [Dn Vn].
  destruct (number2_pad2 _ Hs) as [Ds Vs].
  unfold pad4, pad2 in *. cbn [forallb] in *.
  repeat match goal with
         | Hc : _ && _ = true |- _ => apply andb_prop in Hc; destruct Hc
         end.
  assert (Hshape : timestamp_shape (timestamp_text t) = true).
  { unfold timestamp_text, pad4, pad2. cbn [app timestamp_shape forallb].
    repeat match goal with
           | Hc : is_digit _ = true |- _ => rewrite Hc; clear Hc
           end.
    reflexivity. }
  split; [exact Hshape|].
  unfold timestamp_text, pad4, pad2 in *. cbn [app timestamp_shape] in Hshape.
  cbn [app MigrationFiles.strptime]. rewrite Hshape.
  rewrite Vy, Vm, Vd, Vh, Vn, Vs. now destruct t.
Qed.

(** ** [parse_migration_filename] on the three grammars *)

Lemma parse_grammar1 ts name :
  timestamp_shape ts = true -> is_label name = true ->
  MigrationFiles.parse_migration_filename (ts ++ lit "_" ++ name)
  = option_map (fun t => (t, name)) (MigrationFiles.strptime ts).
Proof.
  intros Hts Hn. unfold MigrationFiles.parse_migration_filename.
  rewrite groups_pattern1 by assumption.
  destruct (MigrationFiles.strptime ts); [reflexivity|].
  unfold MigrationFiles.try_pattern2, MigrationFiles.try_pattern3.
  change (lit "_" ++ name) with ("_"%char :: name).
  rewrite pattern2_needs_dash by (auto; discriminate).
  now rewrite pattern3_rejects_timestamp.
Qed.

Lemma parse_grammar2 ts sq name :
  timestamp_shape ts = true -> is_sequence sq = true -> is_label name = true ->
  MigrationFiles.parse_migration_filename
    (ts ++ [MigrationFiles.dash] ++ sq ++ lit "_" ++ name)
  = option_map (fun t => (t, name)) (MigrationFiles.strptime ts).
Proof.
  intros Hts Hsq Hn. unfold MigrationFiles.parse_migration_filename.
  change ([MigrationFiles.dash] ++ sq ++ lit "_" ++ name)
    with (MigrationFiles.dash :: sq ++ lit "_" ++ name).
  rewrite pattern1_needs_underscore by (auto; discriminate).
  unfold MigrationFiles.try_pattern2, MigrationFiles.try_pattern3.
  change (MigrationFiles.dash :: sq ++ lit "_" ++ name)
    with ([MigrationFiles.dash] ++ sq ++ lit "_" ++ name).
  rewrite groups_pattern2 by assumption.
  destruct (MigrationFiles.strptime ts); [reflexivity|].
  now rewrite pattern3_rejects_timestamp.
Qed.

(** A directory named [YYYY-MM-DD-HHMMSS_name] is read back as the
    timestamp and the name it was written from when the date and the time
    exist; when they do not (a month 13, a 30th of February, an hour 24),
    the directory is not a migration. *)
Theorem parse_written_timestamp t name :
  fits_digits t = true -> is_label name = true ->
  MigrationFiles.parse_migration_filename (timestamp_text t ++ lit "_" ++ name)
  = if MigrationFiles.valid_datetime t then Some (t, name) else None.
Proof.
  intros Ht Hn. destruct (timestamp_text_read t Ht) as [Hs Hr].
  rewrite parse_grammar1, Hr by assumption.
  now destruct (MigrationFiles.valid_datetime t).
Qed.

Lemma parse_written_timestamp_witness :
  MigrationFiles.parse_migration_filename
    (lit "2024-02-29-235907_add_users")
  = Some (leap_day_2024, lit "add_users")
  /\ MigrationFiles.parse_migration_filename
       (lit "2023-02-30-120000_add_users") = None.
Proof.
  split.
  - exact (parse_written_timestamp leap_day_2024 (lit "add_users")
             eq_refl eq_refl).
  - exact (parse_written_timestamp february_30 (lit "add_users")
             eq_refl eq_refl).
Defined.

(** The four-digit sequence number of the second grammar is dropped: the
    directory is read exactly as the one without it, so two directories that
    differ in their sequence number only get the same timestamp. *)
Theorem parse_sequence_ignored ts sq name :
  timestamp_shape ts = true -> is_sequence sq = true -> is_label name = true ->
  MigrationFiles.parse_migration_filename
    (ts ++ [MigrationFiles.dash] ++ sq ++ lit "_" ++ name)
  = MigrationFiles.parse_migration_filename (ts ++ lit "_" ++ name).
Proof.
  intros Hts Hsq Hn. now rewrite parse_grammar1, parse_grammar2.
Qed.

Lemma parse_sequence_ignored_witness :
  MigrationFiles.parse_migration_filename
    (lit "2024-02-29-235907-0002_add_users")
  = MigrationFiles.parse_migration_filename (lit "2024-02-29-235907_add_users").
Proof.
  exact (parse_sequence_ignored (lit "2024-02-29-235907") (lit "0002")
           (lit "add_users") eq_refl eq_refl eq_refl).
Defined.

(** The all-zero timestamp of the diesel initial setup is read as
    1970-01-01 00:00:00, whatever name follows. *)
Theorem parse_initial_setup name :
  is_label name = true ->
  MigrationFiles.parse_migration_filename (lit "00000000000000_" ++ name)
  = Some (MigrationFiles.initial_setup, name).
Proof.
  intros Hn. unfold MigrationFiles.parse_migration_filename.
  assert (E1 : MigrationFiles.groups_of MigrationFiles.pattern1
                 (lit "00000000000000_" ++ name) = None) by reflexivity.
  assert (E2 : MigrationFiles.groups_of MigrationFiles.pattern2
                 (lit "00000000000000_" ++ name) = None) by reflexivity.
  rewrite E1. unfold MigrationFiles.try_pattern2. rewrite E2.
  unfold MigrationFiles.try_pattern3. now rewrite groups_pattern3.
Qed.

Lemma parse_initial_setup_witness :
  MigrationFiles.parse_migration_filename
    (lit "00000000000000_diesel_initial_setup")
  = Some (MigrationFiles.initial_setup, lit "diesel_initial_setup").
Proof.
  exact (parse_initial_setup (lit "diesel_initial_setup") eq_refl).
Defined.

(** ** What [parse_migration_filename] returns *)

Lemma denote_consumes r : forall s s' caps caps',
  denote r s s' caps caps' -> exists a, s = a ++ s'.
Proof.
  induction r as [l|cls|cls|cls|r1 IH1 r2 IH2|r IH|r IH|];
    intros s s' caps caps' H; simpl in H.
  - destruct H as [-> _]. eauto.
  - destruct H as [(c & -> & _) _]. now exists [c].
  - destruct H as [(a & -> & _) _]. eauto.
  - destruct H as [(a & _ & -> & _) _]. eauto.
  - destruct H as (s1 & c1 & H1 & H2).
    apply IH1 in H1. apply IH2 in H2. destruct H1 as [a ->], H2 as [b ->].
    exists (a ++ b). now rewrite app_assoc.
  - destruct H as (c1 & H & _). eauto.
  - destruct H as [H|[-> _]]; [eauto|now exists []].
  - destruct H as (-> & _). now exists [].
Qed.

Lemma denote_no_groups r : forall s s' caps caps',
  ngroups r = 0 -> denote r s s' caps caps' -> caps' = caps.
Proof.
  induction r as [l|cls|cls|cls|r1 IH1 r2 IH2|r IH|r IH|];
    intros s s' caps caps' Hn H; simpl in H, Hn; try tauto.
  - destruct H as (s1 & c1 & H1 & H2).
    apply IH1 in H1; [|lia]. apply IH2 in H2; [|lia]. congruence.
  - discriminate.
  - destruct H as [H|[_ ->]]; eauto.
Qed.

(** A group without inner groups captures what it consumes. *)
Lemma denote_grp r s s' caps caps' :
  ngroups r = 0 -> denote (Grp r) s s' caps caps' ->
  exists a, s = a ++ s' /\ caps' = caps ++ [a] /\ denote r s s' caps caps.
Proof.
  intros Hn (c1 & H & ->).
  pose proof (denote_no_groups _ _ _ _ _ Hn H) as ->.
  destruct (denote_consumes _ _ _ _ _ H) as [a ->].
  exists a. now rewrite firstn_consumed.
Qed.

(** The end of the three grammars: [_(.+)$]. *)
Lemma denote_label_end s s' caps caps' :
  denote (Cat (Lit (lit "_"))
              (Cat (Grp MigrationFiles.any_char) Eos)) s s' caps caps' ->
  exists name, is_label name = true /\ line_end s'
               /\ s = lit "_" ++ name ++ s' /\ caps' = caps ++ [name].
Proof.
  intros (s1 & c1 & [-> ->] & s2 & c2 & Hg & Hend).
  apply denote_grp_plus in Hg. destruct Hg as (a & Hne & Ha & -> & ->).
  destruct Hend as (-> & -> & Hs'). exists a. repeat split; auto.
  unfold is_label. rewrite Ha. now destruct a.
Qed.

Lemma strptime_valid ts t :
  MigrationFiles.strptime ts = Some t -> MigrationFiles.valid_datetime t = true.
Proof.
  unfold MigrationFiles.strptime.
  do 17 (destruct ts as [|? ts]; [discriminate|]).
  destruct ts; [|discriminate].
  destruct (_ && _); [|discriminate].
  destruct (MigrationFiles.valid_datetime _) eqn:E; [|discriminate].
  now intros [= <-].
Qed.

Lemma groups_pattern1_sound f caps :
  MigrationFiles.groups_of MigrationFiles.pattern1 f = Some caps ->
  exists ts name tail,
    caps = [ts; name] /\ is_label name = true /\ line_end tail
    /\ f = ts ++ lit "_" ++ name ++ tail.
Proof.
  unfold MigrationFiles.groups_of.
  destruct (match_here MigrationFiles.pattern1 f) as [[c rest]|] eqn:E; [|discriminate].
  intros [= ->]. apply match_here_sound in E.
  unfold MigrationFiles.pattern1, seq in E.
  destruct E as (s1 & c1 & Hg & Hrest).
  apply denote_grp in Hg; [|reflexivity]. destruct Hg as (ts & -> & -> & _).
  apply denote_label_end in Hrest.
  destruct Hrest as (name & Hn & Hend & -> & ->).
  exists ts, name, rest. auto.
Qed.

Lemma groups_pattern2_sound f caps :
  MigrationFiles.groups_of MigrationFiles.pattern2 f = Some caps ->
  exists ts sq name tail,
    caps = [ts; sq; name] /\ is_label name = true /\ line_end tail
    /\ f = ts ++ [MigrationFiles.dash] ++ sq ++ lit "_" ++ name ++ tail.
Proof.
  unfold MigrationFiles.groups_of.
  destruct (match_here MigrationFiles.pattern2 f) as [[c rest]|] eqn:E; [|discriminate].
  intros [= ->]. apply match_here_sound in E.
  unfold MigrationFiles.pattern2, seq in E.
  destruct E as (s1 & c1 & Hg & s2 & c2 & [-> ->] & s3 & c3 & Hq & Hrest).
  apply denote_grp in Hg; [|reflexivity]. destruct Hg as (ts & -> & -> & _).
  apply denote_grp in Hq; [|reflexivity]. destruct Hq as (sq & -> & -> & _).
  apply denote_label_end in Hrest.
  destruct Hrest as (name & Hn & Hend & -> & ->).
  exists ts, sq, name, rest. auto.
Qed.

Lemma groups_pattern3_sound f caps :
  MigrationFiles.groups_of MigrationFiles.pattern3 f = Some caps ->
  exists name tail,
    caps = [name] /\ is_label name = true /\ line_end tail
    /\ f = lit "00000000000000" ++ lit "_" ++ name ++ tail.
Proof.
  unfold MigrationFiles.groups_of.
  destruct (match_here MigrationFiles.pattern3 f) as [[c rest]|] eqn:E; [|discriminate].
  intros [= ->]. apply match_here_sound in E.
  unfold MigrationFiles.pattern3, seq in E.
  change (lit "00000000000000_") with (lit "00000000000000" ++ lit "_") in E.
  destruct E as (s1 & c1 & [-> ->] & s2 & c2 & Hg & Hend).
  apply denote_grp_plus in Hg. destruct Hg as (a & Hne & Ha & -> & ->).
  destruct Hend as (Er & -> & Hs'). subst s2.
  exists a, rest. repeat split; auto;
    try (unfold is_label; rewrite Ha; now destruct a);
    try (now rewrite <- !app_assoc).
Qed.

Lemma try_pattern3_sound f t name :
  MigrationFiles.try_pattern3 f = Some (t, name) -> well_parsed f t name.
Proof.
  unfold MigrationFiles.try_pattern3.
  destruct (MigrationFiles.groups_of MigrationFiles.pattern3 f) as [caps|] eqn:E;
    [|discriminate].
  apply groups_pattern3_sound in E. destruct E as (n & tail & -> & Hn & Hend & ->).
  intros [= <- <-]. split; [exact Hn|]. split; [now right|eauto].
Qed.

Lemma try_pattern2_sound f t name :
  MigrationFiles.try_pattern2 f = Some (t, name) -> well_parsed f t name.
Proof.
  unfold MigrationFiles.try_pattern2.
  destruct (MigrationFiles.groups_of MigrationFiles.pattern2 f) as [caps|] eqn:E;
    [|apply try_pattern3_sound].
  apply groups_pattern2_sound in E.
  destruct E as (ts & sq & n & tail & -> & Hn & Hend & Hf).
  destruct (MigrationFiles.strptime ts) as [t'|] eqn:Et; [|apply try_pattern3_sound].
  intros [= <- <-]. split; [exact Hn|].
  split; [left; now apply (strptime_valid ts)|].
  exists (ts ++ [MigrationFiles.dash] ++ sq), tail. split; [exact Hend|].
  rewrite Hf. now rewrite <- !app_assoc.
Qed.

(** Whatever the directory name, a parse that succeeds returns a name that
    is non-empty, has no newline and is the end of the directory name after
    an underscore, and a timestamp that is a real date and time of day, or
    the initial-setup one. *)
Theorem parse_migration_filename_sound f t name :
  MigrationFiles.parse_migration_filename f = Some (t, name) ->
  well_parsed f t name.
Proof.
  unfold MigrationFiles.parse_migration_filename.
  destruct (MigrationFiles.groups_of MigrationFiles.pattern1 f) as [caps|] eqn:E;
    [|apply try_pattern2_sound].
  apply groups_pattern1_sound in E.
  destruct E as (ts & n & tail & -> & Hn & Hend & Hf).
  destruct (MigrationFiles.strptime ts) as [t'|] eqn:Et; [|apply try_pattern2_sound].
  intros [= <- <-]. split; [exact Hn|].
  split; [left; now apply (strptime_valid ts)|].
  exists ts, tail. auto.
Qed.

Lemma parse_migration_filename_sound_witness :
  well_parsed (lit "2024-02-29-235907-0002_add_users") leap_day_2024
              (lit "add_users").
Proof.
  apply parse_migration_filename_sound. reflexivity.
Defined.

(** ** The order on timestamps *)

Lemma lex_le_refl a : MigrationOrder.lex_le a a = true.
Proof.
  induction a as [|x a IH]; simpl; [reflexivity|].
  now rewrite Nat.eqb_refl, IH, orb_true_r.
Qed.

Lemma lex_le_total a : forall b,
  MigrationOrder.lex_le a b = false -> MigrationOrder.lex_le b a = true.
Proof.
  induction a as [|x a IH]; intros [|y b] H; simpl in *; try discriminate.
  apply orb_false_elim in H. destruct H as [H1 H2].
  apply Nat.ltb_ge in H1. apply andb_false_elim in H2.
  destruct H2 as [H2|H2].
  - apply Nat.eqb_neq in H2. apply orb_true_intro. left. apply Nat.ltb_lt. lia.
  - destruct (Nat.ltb_spec y x); [reflexivity|]. simpl.
    replace (y =? x) with true by (symmetry; apply Nat.eqb_eq; lia).
    now apply IH.
Qed.

Lemma lex_le_trans a : forall b c,
  List.length a = List.length b -> List.length b = List.length c ->
  MigrationOrder.lex_le a b = true -> MigrationOrder.lex_le b c = true ->
  MigrationOrder.lex_le a c = true.
Proof.
  induction a as [|x a IH]; intros [|y b] [|z c] L1 L2 H1 H2;
    simpl in *; try discriminate; try reflexivity.
  apply orb_prop in H1. apply orb_prop in H2.
  destruct (Nat.ltb_spec x z); [reflexivity|]. simpl.
  destruct H1 as [H1|H1]; [apply Nat.ltb_lt in H1|apply andb_prop in H1];
    (destruct H2 as [H2|H2]; [apply Nat.ltb_lt in H2|apply andb_prop in H2]);
    try lia.
  - destruct H2 as [E _]. apply Nat.eqb_eq in E. lia.
  - destruct H1 as [E _]. apply Nat.eqb_eq in E. lia.
  - destruct H1 as [E1 H1], H2 as [E2 H2].
    apply Nat.eqb_eq in E1, E2. subst.
    rewrite Nat.eqb_refl. simpl. apply (IH b c); auto.
Qed.

Lemma lex_le_antisym a : forall b,
  List.length a = List.length b ->
  MigrationOrder.lex_le a b = true -> MigrationOrder.lex_le b a = true -> a = b.
Proof.
  induction a as [|x a IH]; intros [|y b] L H1 H2; simpl in *;
    try discriminate; try reflexivity.
  apply orb_prop in H1. apply orb_prop in H2.
  destruct H1 as [H1|H1]; [apply Nat.ltb_lt in H1|apply andb_prop in H1];
    (destruct H2 as [H2|H2]; [apply Nat.ltb_lt in H2|apply andb_prop in H2]);
    try lia.
  - destruct H2 as [E _]. apply Nat.eqb_eq in E. lia.
  - destruct H1 as [E _]. apply Nat.eqb_eq in E. lia.
  - destruct H1 as [E1 H1], H2 as [E2 H2]. apply Nat.eqb_eq in E1. subst.
    f_equal. apply IH; auto.
Qed.

Lemma dt_le_refl a : MigrationOrder.dt_le a a = true.
Proof. apply lex_le_refl. Qed.

Lemma dt_le_total a b :
  MigrationOrder.dt_le a b = false -> MigrationOrder.dt_le b a = true.
Proof. apply lex_le_total. Qed.

Lemma dt_le_trans a b c :
  MigrationOrder.dt_le a b = true -> MigrationOrder.dt_le b c = true ->
  MigrationOrder.dt_le a c = true.
Proof. apply lex_le_trans; reflexivity. Qed.

Lemma dt_le_antisym a b :
  MigrationOrder.dt_le a b = true -> MigrationOrder.dt_le b a = true -> a = b.
Proof.
  intros H1 H2.
  pose proof (lex_le_antisym (MigrationOrder.fields a) (MigrationOrder.fields b)
                eq_refl H1 H2) as E.
  destruct a, b. simpl in E. now injection E as -> -> -> -> -> ->.
Qed.

Lemma dt_lt_le a b :
  MigrationFiles.dt_lt a b = true -> MigrationOrder.dt_le a b = true.
Proof.
  unfold MigrationFiles.dt_lt. intros H. apply negb_true_iff in H.
  now apply dt_le_total.
Qed.

Lemma dt_lt_trans a b c :
  MigrationFiles.dt_lt a b = true -> MigrationFiles.dt_lt b c = true ->
  MigrationFiles.dt_lt a c = true.
Proof.
  unfold MigrationFiles.dt_lt. intros H1 H2.
  apply negb_true_iff in H1, H2. apply negb_true_iff.
  destruct (MigrationOrder.dt_le c a) eqn:E; [|reflexivity].
  pose proof (dt_le_total _ _ H1) as Hab.
  pose proof (dt_le_trans _ _ _ E Hab). congruence.
Qed.

Lemma dt_lt_iff a b :
  MigrationFiles.dt_lt a b = true
  <-> MigrationOrder.dt_le a b = true /\ a <> b.
Proof.
  unfold MigrationFiles.dt_lt. rewrite negb_true_iff. split.
  - intros H. split; [now apply dt_le_total|].
    intros ->. now rewrite dt_le_refl in H.
  - intros [H Hne]. destruct (MigrationOrder.dt_le b a) eqn:E; [|reflexivity].
    exfalso. apply Hne. now apply dt_le_antisym.
Qed.

(** ** [get_migration_files] *)

Lemma collect_migrations items :
  snd (MigrationFiles.collect items) = somes (map migration_of items).
Proof.
  induction items as [|it items IH]; [reflexivity|].
  simpl. unfold migration_of at 1.
  destruct (MigrationFiles.collect items) as [out ms]. simpl in IH. subst ms.
  destruct (MigrationFiles.item_is_dir it
            && negb (MigrationFiles.hidden (MigrationFiles.item_name it)));
    [|reflexivity].
  now destruct (MigrationFiles.parse_migration_filename _) as [[t name]|].
Qed.

Lemma insert_sorted_perm m l :
  Permutation (MigrationFiles.insert_sorted m l) (m :: l).
Proof.
  induction l as [|m' l IH]; simpl; [reflexivity|].
  destruct (MigrationFiles.dt_lt _ _); [|reflexivity].
  rewrite IH. apply perm_swap.
Qed.

Lemma sorted_by_timestamp_perm l :
  Permutation (MigrationFiles.sorted_by_timestamp l) l.
Proof.
  induction l as [|m l IH]; simpl; [reflexivity|].
  now rewrite insert_sorted_perm, IH.
Qed.

Lemma insert_sorted_non_decreasing m l :
  non_decreasing l -> non_decreasing (MigrationFiles.insert_sorted m l).
Proof.
  unfold non_decreasing. induction 1 as [|m' l Hs IH Hall]; simpl.
  - repeat constructor.
  - destruct (MigrationFiles.dt_lt _ _) eqn:E.
    + constructor; [exact IH|].
      rewrite insert_sorted_perm. constructor; [now apply dt_lt_le|exact Hall].
    + unfold MigrationFiles.dt_lt in E. apply negb_false_iff in E.
      constructor; [now constructor|].
      constructor; [exact E|].
      eapply Forall_impl; [|exact Hall]. intros x Hx.
      now apply (dt_le_trans _ _ _ E).
Qed.

Lemma sorted_by_timestamp_non_decreasing l :
  non_decreasing (MigrationFiles.sorted_by_timestamp l).
Proof.
  induction l as [|m l IH]; simpl; [constructor|].
  now apply insert_sorted_non_decreasing.
Qed.

Lemma same_time_eq t m :
  same_time t m = true -> MigrationFiles.timestamp_of m = t.
Proof.
  unfold same_time. intros H. apply andb_prop in H. destruct H.
  now apply dt_le_antisym.
Qed.

Lemma insert_sorted_stable t m l :
  filter (same_time t) (MigrationFiles.insert_sorted m l)
  = filter (same_time t) (m :: l).
Proof.
  induction l as [|m' l IH]; [reflexivity|].
  cbn [MigrationFiles.insert_sorted].
  destruct (MigrationFiles.dt_lt _ _) eqn:E; [|reflexivity].
  cbn [filter] in *. rewrite IH.
  destruct (same_time t m') eqn:E1; [|reflexivity].
  destruct (same_time t m) eqn:E2; [|reflexivity].
  apply same_time_eq in E1, E2. rewrite E1, E2 in E.
  unfold MigrationFiles.dt_lt in E. now rewrite dt_le_refl in E.
Qed.

Lemma sorted_by_timestamp_stable t l :
  filter (same_time t) (MigrationFiles.sorted_by_timestamp l)
  = filter (same_time t) l.
Proof.
  induction l as [|m l IH]; [reflexivity|].
  cbn [MigrationFiles.sorted_by_timestamp]. rewrite insert_sorted_stable.
  cbn [filter]. now rewrite IH.
Qed.

(** The list [get_migration_files] returns is in non-decreasing order of
    timestamp, whatever the directory holds and in whatever order the
    system lists it. *)
Theorem get_migration_files_sorted dir :
  non_decreasing (snd (MigrationFiles.get_migration_files dir)).
Proof.
  destruct dir as [items|]; simpl; [|constructor].
  destruct (MigrationFiles.collect items) as [out ms]. simpl.
  apply sorted_by_timestamp_non_decreasing.
Qed.

(** The returned list holds, once each, the visible directories whose name
    parses, with the parsed timestamp and name and the path of the
    directory: plain files, hidden directories and directories with another
    name are left out, and nothing is added. *)
Theorem get_migration_files_entries items :
  Permutation (snd (MigrationFiles.get_migration_files (Some items)))
              (somes (map migration_of items)).
Proof.
  simpl. rewrite <- collect_migrations.
  destruct (MigrationFiles.collect items) as [out ms]. simpl.
  apply sorted_by_timestamp_perm.
Qed.

(** The sort is stable: the migrations that share a timestamp come out in
    the order in which the directory listing gave them. *)
Theorem get_migration_files_stable items t :
  filter (same_time t) (snd (MigrationFiles.get_migration_files (Some items)))
  = filter (same_time t) (somes (map migration_of items)).
Proof.
  simpl. rewrite <- collect_migrations.
  destruct (MigrationFiles.collect items) as [out ms]. simpl.
  apply sorted_by_timestamp_stable.
Qed.

(** ** [check_migration_order] *)

Lemma order_loop_issues rest : forall prev,
  snd (MigrationOrder.order_loop prev rest) = false
  <-> Sorted (fun a b => MigrationFiles.dt_lt (MigrationFiles.timestamp_of a)
                                              (MigrationFiles.timestamp_of b) = true)
             (prev :: rest).
Proof.
  induction rest as [|curr rest IH]; intros [[pt pn] pp].
  - simpl. split; [repeat constructor|reflexivity].
  - cbn [MigrationOrder.order_loop]. destruct curr as [[ct cn] cp].
    specialize (IH (ct, cn, cp)).
    destruct (MigrationOrder.order_loop (ct, cn, cp) rest) as [out issues].
    simpl in IH.
    destruct (MigrationOrder.dt_le ct pt) eqn:E; simpl.
    + split; [discriminate|]. intros H. inversion H as [|? ? _ Hd]; subst.
      inversion Hd as [|? ? Hlt]; subst.
      unfold MigrationFiles.dt_lt, MigrationFiles.timestamp_of in Hlt.
      cbn [fst] in Hlt. now rewrite E in Hlt.
    + rewrite IH. split.
      * intros H. constructor; [exact H|]. constructor.
        unfold MigrationFiles.dt_lt, MigrationFiles.timestamp_of.
        cbn [fst]. now rewrite E.
      * intros H. now inversion H.
Qed.

Lemma strictly_increasing_sorted ms :
  strictly_increasing ms
  <-> Sorted (fun a b => MigrationFiles.dt_lt (MigrationFiles.timestamp_of a)
                                              (MigrationFiles.timestamp_of b) = true) ms.
Proof.
  split; [apply StronglySorted_Sorted|].
  apply Sorted_StronglySorted. intros a b c. apply dt_lt_trans.
Qed.

Lemma check_migration_order_result ms :
  snd (MigrationOrder.check_migration_order ms) = true <-> strictly_increasing ms.
Proof.
  rewrite strictly_increasing_sorted.
  destruct ms as [|m [|m' ms]]; try (split; [repeat constructor|reflexivity]).
  unfold MigrationOrder.check_migration_order.
  pose proof (order_loop_issues (m' :: ms) m) as H.
  destruct (MigrationOrder.order_loop m (m' :: ms)) as [out issues].
  simpl in *. rewrite <- H. now destruct issues.
Qed.

(** [check_migration_order] answers [True] exactly when every entry has a
    timestamp strictly later than all the entries before it; an empty list
    and a single entry pass. *)
Theorem check_migration_order_strict ms :
  snd (MigrationOrder.check_migration_order ms) = true <-> strictly_increasing ms.
Proof. apply check_migration_order_result. Qed.

(** ** [check_for_duplicate_timestamps] *)

Lemma text_eqb_refl a : text_eqb a a = true.
Proof. now apply text_eqb_eq. Qed.

Lemma text_eqb_neq a b : a <> b -> text_eqb a b = false.
Proof.
  intros H. destruct (text_eqb a b) eqn:E; [|reflexivity].
  now apply text_eqb_eq in E.
Qed.

Lemma text_eqb_sym_false a b : text_eqb a b = false -> text_eqb b a = false.
Proof.
  intros H. apply text_eqb_neq. intros ->. now rewrite text_eqb_refl in H.
Qed.

Lemma filed_add_count key k v d :
  filed key (MigrationOrder.add_count k v d)
  = filed key d + (if text_eqb k key then 1 else 0).
Proof.
  induction d as [|[k' vs] d IH]; simpl.
  - destruct (text_eqb k key); reflexivity.
  - destruct (text_eqb k' k) eqn:E; simpl.
    + apply text_eqb_eq in E. subst k'.
      destruct (text_eqb k key); [rewrite length_app; simpl; lia|lia].
    + destruct (text_eqb k' key) eqn:E'; [|exact IH].
      apply text_eqb_eq in E'. subst k'. rewrite text_eqb_sym_false by exact E. lia.
Qed.

Lemma filed_fold strftime key ms : forall d,
  filed key
    (fold_left (fun d (m : MigrationOrder.migration) =>
                  let '(timestamp, name, path) := m in
                  MigrationOrder.add_count (strftime timestamp) (name, path) d)
               ms d)
  = filed key d + count_occ text_dec (map (key_of strftime) ms) key.
Proof.
  induction ms as [|[[t n] p] ms IH]; intros d; simpl; [lia|].
  rewrite IH, filed_add_count. unfold key_of, MigrationFiles.timestamp_of. simpl.
  destruct (text_dec (strftime t) key) as [->|Hne].
  - rewrite text_eqb_refl. lia.
  - rewrite text_eqb_neq by exact Hne. lia.
Qed.

Lemma filed_timestamp_counts strftime key ms :
  filed key (MigrationOrder.timestamp_counts strftime ms)
  = count_occ text_dec (map (key_of strftime) ms) key.
Proof. unfold MigrationOrder.timestamp_counts. now rewrite filed_fold. Qed.

Lemma add_count_keys k v d k' :
  In k' (map fst (MigrationOrder.add_count k v d)) <-> k' = k \/ In k' (map fst d).
Proof.
  induction d as [|[k0 vs] d IH]; simpl.
  - intuition.
  - destruct (text_eqb k0 k) eqn:E; simpl.
    + apply text_eqb_eq in E. subst. intuition.
    + rewrite IH. intuition.
Qed.

Lemma add_count_nodup k v d :
  NoDup (map fst d) -> NoDup (map fst (MigrationOrder.add_count k v d)).
Proof.
  induction d as [|[k0 vs] d IH]; simpl; intros H.
  - repeat constructor. intros [].
  - inversion H as [|? ? Hin Hd]; subst.
    destruct (text_eqb k0 k) eqn:E; simpl.
    + now constructor.
    + constructor; [|now apply IH].
      rewrite add_count_keys. intros [->|Hk]; [|contradiction].
      now rewrite text_eqb_refl in E.
Qed.

Lemma timestamp_counts_nodup strftime ms :
  NoDup (map fst (MigrationOrder.timestamp_counts strftime ms)).
Proof.
  unfold MigrationOrder.timestamp_counts.
  assert (H : NoDup (map fst (@nil (text * list (text * text))))) by constructor.
  revert H. generalize (@nil (text * list (text * text))).
  induction ms as [|[[t n] p] ms IH]; intros d H; simpl; [exact H|].
  apply IH. now apply add_count_nodup.
Qed.

Lemma duplicates_loop_issues d :
  snd (MigrationOrder.duplicates_loop d)
  = existsb (fun kv => 1 <? List.length (snd kv)) d.
Proof.
  induction d as [|[k vs] d IH]; simpl; [reflexivity|].
  destruct (MigrationOrder.duplicates_loop d) as [out issues]. simpl in *.
  now destruct (1 <? List.length vs).
Qed.

Lemma filed_in k vs d :
  NoDup (map fst d) -> In (k, vs) d -> filed k d = List.length vs.
Proof.
  induction d as [|[k0 vs0] d IH]; simpl; intros Hd Hin; [contradiction|].
  inversion Hd as [|? ? Hnin Hd']; subst.
  destruct Hin as [[= -> ->]|Hin].
  - now rewrite text_eqb_refl.
  - rewrite text_eqb_neq; [now apply IH|].
    intros ->. apply Hnin. apply in_map_iff. now exists (k, vs).
Qed.

Lemma filed_big k d :
  1 < filed k d -> existsb (fun kv => 1 <? List.length (snd kv)) d = true.
Proof.
  induction d as [|[k0 vs0] d IH]; simpl; intros H; [lia|].
  destruct (text_eqb k0 k).
  - apply Nat.ltb_lt in H. now rewrite H.
  - rewrite IH by exact H. apply orb_true_r.
Qed.

Lemma check_for_duplicate_timestamps_result strftime ms :
  snd (MigrationOrder.check_for_duplicate_timestamps strftime ms) = true
  <-> NoDup (map (key_of strftime) ms).
Proof.
  unfold MigrationOrder.check_for_duplicate_timestamps.
  pose proof (duplicates_loop_issues (MigrationOrder.timestamp_counts strftime ms)) as Hi.
  destruct (MigrationOrder.duplicates_loop _) as [out issues]. simpl in *. subst issues.
  rewrite negb_true_iff, (NoDup_count_occ text_dec). split.
  - intros H key. rewrite <- filed_timestamp_counts.
    destruct (Nat.le_gt_cases (filed key (MigrationOrder.timestamp_counts strftime ms)) 1)
      as [Hle|Hgt]; [exact Hle|].
    apply filed_big in Hgt. congruence.
  - intros H. apply not_true_is_false. intros He.
    apply existsb_exists in He. destruct He as ([k vs] & Hin & Hbig).
    simpl in Hbig. apply Nat.ltb_lt in Hbig.
    specialize (H k). rewrite <- filed_timestamp_counts in H.
    rewrite (filed_in k vs) in H; [lia|apply timestamp_counts_nodup|exact Hin].
Qed.

(** [check_for_duplicate_timestamps] answers [True] exactly when no two
    entries are rendered to the same timestamp string. *)
Theorem check_for_duplicate_timestamps_nodup strftime ms :
  snd (MigrationOrder.check_for_duplicate_timestamps strftime ms) = true
  <-> NoDup (map (key_of strftime) ms).
Proof. apply check_for_duplicate_timestamps_result. Qed.

(** ** The checks on a list sorted by timestamp *)

Lemma strictly_increasing_nodup ms :
  strictly_increasing ms -> NoDup (map MigrationFiles.timestamp_of ms).
Proof.
  unfold strictly_increasing. induction 1 as [|m ms Hs IH Hall]; simpl.
  - constructor.
  - constructor; [|exact IH]. intros Hin. apply in_map_iff in Hin.
    destruct Hin as (m' & E & Hin'). rewrite Forall_forall in Hall.
    specialize (Hall _ Hin'). rewrite E in Hall.
    apply dt_lt_iff in Hall. now destruct Hall.
Qed.

Lemma non_decreasing_nodup ms :
  non_decreasing ms -> NoDup (map MigrationFiles.timestamp_of ms) ->
  strictly_increasing ms.
Proof.
  unfold non_decreasing, strictly_increasing.
  induction 1 as [|m ms Hs IH Hall]; simpl; intros Hd; [constructor|].
  inversion Hd as [|? ? Hnin Hd']; subst.
  constructor; [now apply IH|].
  rewrite Forall_forall in *. intros m' Hin. apply dt_lt_iff.
  split; [now apply Hall|]. intros E. apply Hnin.
  rewrite E. now apply in_map.
Qed.

Lemma nodup_keys_timestamps strftime ms :
  NoDup (map (key_of strftime) ms) -> NoDup (map MigrationFiles.timestamp_of ms).
Proof.
  induction ms as [|m ms IH]; simpl; intros H; [constructor|].
  inversion H as [|? ? Hnin Hd]; subst. constructor; [|now apply IH].
  intros Hin. apply Hnin. apply in_map_iff in Hin.
  destruct Hin as (m' & E & Hin'). apply in_map_iff. exists m'.
  split; [|exact Hin']. unfold key_of. now rewrite E.
Qed.

Lemma nodup_timestamps_keys strftime ms :
  distinguishes strftime ms ->
  NoDup (map MigrationFiles.timestamp_of ms) -> NoDup (map (key_of strftime) ms).
Proof.
  induction ms as [|m ms IH]; simpl; intros Hinj H; [constructor|].
  inversion H as [|? ? Hnin Hd]; subst. constructor.
  - intros Hin. apply Hnin. apply in_map_iff in Hin.
    destruct Hin as (m' & E & Hin'). apply in_map_iff. exists m'.
    split; [|exact Hin']. apply Hinj; simpl; auto.
  - apply IH; [|exact Hd]. intros a b Ha Hb. apply Hinj; simpl; auto.
Qed.

(** On a list in non-decreasing order of timestamp, as
    [get_migration_files] returns it, [check_migration_order] can only fail
    on two equal timestamps: with a [strftime] that tells the timestamps
    apart, it gives the same answer as [check_for_duplicate_timestamps]. *)
Theorem order_check_is_duplicate_check strftime dir :
  distinguishes strftime (snd (MigrationFiles.get_migration_files dir)) ->
  snd (MigrationOrder.check_migration_order
         (snd (MigrationFiles.get_migration_files dir)))
  = snd (MigrationOrder.check_for_duplicate_timestamps strftime
           (snd (MigrationFiles.get_migration_files dir))).
Proof.
  intros Hinj.
  assert (Hs : non_decreasing (snd (MigrationFiles.get_migration_files dir))).
  { destruct dir as [items|]; simpl; [|constructor].
    destruct (MigrationFiles.collect items) as [out ms]. simpl.
    apply sorted_by_timestamp_non_decreasing. }
  set (ms := snd (MigrationFiles.get_migration_files dir)) in *.
  pose proof (check_migration_order_result ms) as Ho.
  pose proof (check_for_duplicate_timestamps_result strftime ms) as Hd.
  destruct (snd (MigrationOrder.check_migration_order ms)),
    (snd (MigrationOrder.check_for_duplicate_timestamps strftime ms));
    try reflexivity.
  - assert (true = true) as E by reflexivity. apply Ho in E.
    apply strictly_increasing_nodup, (nodup_timestamps_keys strftime) in E;
      [|exact Hinj].
    apply Hd in E. discriminate E.
  - assert (true = true) as E by reflexivity. apply Hd in E.
    apply nodup_keys_timestamps, (non_decreasing_nodup ms Hs) in E.
    apply Ho in E. discriminate E.
Qed.

Lemma sample_directory_distinguished :
  distinguishes timestamp_text
    (snd (MigrationFiles.get_migration_files (Some sample_directory))).
Proof.
  intros a b Ha Hb E.
  vm_compute in Ha, Hb.
  repeat (destruct Ha as [Ha|Ha]; [subst a|]); try contradiction;
    repeat (destruct Hb as [Hb|Hb]; [subst b|]); try contradiction;
    try reflexivity; vm_compute in E; discriminate E.
Defined.

Lemma order_check_is_duplicate_check_witness :
  snd (MigrationOrder.check_migration_order
         (snd (MigrationFiles.get_migration_files (Some sample_directory))))
  = false
  /\ snd (MigrationOrder.check_for_duplicate_timestamps timestamp_text
            (snd (MigrationFiles.get_migration_files (Some sample_directory))))
     = false.
Proof.
  pose proof (order_check_is_duplicate_check timestamp_text (Some sample_directory)
                sample_directory_distinguished) as H.
  split; [reflexivity|]. rewrite <- H. reflexivity.
Defined.

(** ** The exit status of the validator *)

Lemma naming_result ms :
  snd (MigrationOrder.check_migration_naming_conventions ms)
  = names_long_enough ms.
Proof.
  unfold MigrationOrder.check_migration_naming_conventions, names_long_enough.
  pose proof (naming_loop_issues ms) as H.
  destruct (MigrationOrder.naming_loop ms) as [out issues]. simpl in *. subst.
  induction ms as [|m ms IH]; simpl; [reflexivity|].
  rewrite negb_orb. now rewrite IH.
Qed.

Lemma main_status strftime ms :
  snd (MigrationOrder.main strftime ms) = 0
  <-> ms <> [] /\ strictly_increasing ms
      /\ NoDup (map (key_of strftime) ms) /\ names_long_enough ms = true.
Proof.
  rewrite <- check_migration_order_result,
    <- (check_for_duplicate_timestamps_result strftime), <- naming_result.
  unfold MigrationOrder.main. destruct ms as [|m ms'].
  - simpl. split; [discriminate|]. now intros [H _].
  - destruct (MigrationOrder.check_migration_order (m :: ms')) as [o1 ok1].
    destruct (MigrationOrder.check_for_duplicate_timestamps strftime (m :: ms'))
      as [o2 ok2].
    destruct (MigrationOrder.check_migration_naming_conventions (m :: ms'))
      as [o3 ok3].
    cbn [snd]. destruct ok1, ok2, ok3; simpl; split;
      try discriminate; try (intros (_ & ? & ? & ?); discriminate).
    + intros _. repeat split; discriminate.
    + reflexivity.
Qed.

(** [main] returns 0 exactly when the list is not empty, the timestamps are
    strictly increasing, no two entries share a rendered timestamp and every
    name has at least three characters; it returns 1 in every other case. *)
Theorem main_exit_status strftime ms :
  (snd (MigrationOrder.main strftime ms) = 0
   <-> ms <> [] /\ strictly_increasing ms
       /\ NoDup (map (key_of strftime) ms) /\ names_long_enough ms = true)
  /\ (snd (MigrationOrder.main strftime ms) = 0
      \/ snd (MigrationOrder.main strftime ms) = 1).
Proof.
  split; [apply main_status|].
  unfold MigrationOrder.main. destruct ms as [|m ms']; [now right|].
  destruct (MigrationOrder.check_migration_order (m :: ms')) as [o1 ok1].
  destruct (MigrationOrder.check_for_duplicate_timestamps strftime (m :: ms'))
    as [o2 ok2].
  destruct (MigrationOrder.check_migration_naming_conventions (m :: ms'))
    as [o3 ok3].
  cbn [snd]. destruct (ok1 && ok2 && ok3); auto.
Qed.

(** The validator run on a directory exits with 0 exactly when the
    directory yields at least one migration, no two of them have the same
    timestamp and every name has at least three characters (for a
    [strftime] that tells the timestamps apart).  A directory that does not
    exist, or without any migration, gives 1. *)
Theorem validation_status_zero strftime dir :
  distinguishes strftime (snd (MigrationFiles.get_migration_files dir)) ->
  (validation_status strftime dir = 0
   <-> snd (MigrationFiles.get_migration_files dir) <> []
       /\ NoDup (map MigrationFiles.timestamp_of
                     (snd (MigrationFiles.get_migration_files dir)))
       /\ names_long_enough (snd (MigrationFiles.get_migration_files dir)) = true)
  /\ validation_status strftime None = 1.
Proof.
  intros Hinj. split; [|reflexivity].
  unfold validation_status. rewrite main_status.
  assert (Hs : non_decreasing (snd (MigrationFiles.get_migration_files dir))).
  { destruct dir as [items|]; simpl; [|constructor].
    destruct (MigrationFiles.collect items) as [out ms]. simpl.
    apply sorted_by_timestamp_non_decreasing. }
  set (ms := snd (MigrationFiles.get_migration_files dir)) in *.
  split.
  - intros (Hne & Hinc & Hd & Hn). repeat split; auto.
    now apply strictly_increasing_nodup.
  - intros (Hne & Hd & Hn). repeat split; auto.
    + now apply non_decreasing_nodup.
    + now apply nodup_timestamps_keys.
Qed.

Lemma validation_status_zero_witness :
  validation_status timestamp_text (Some sample_directory) <> 0
  /\ validation_status timestamp_text None = 1.
Proof.
  destruct (validation_status_zero timestamp_text (Some sample_directory)
              sample_directory_distinguished) as [H1 H2].
  split; [|exact H2]. intros E. apply H1 in E. destruct E as (_ & Hd & _).
  vm_compute in Hd. inversion Hd as [|? ? _ Hd1]. inversion Hd1 as [|? ? _ Hd2].
  inversion Hd2 as [|? ? Hnin _]. apply Hnin. now left.
Defined.

(** ** The naming convention *)

Lemma lower_digit_us d : is_lower_digit d = true -> is_lower_digit_us d = true.
Proof.
  unfold is_lower_digit, is_lower_digit_us. intros H. now rewrite H.
Qed.

Lemma name_pattern_complete c mid d tail :
  is_lower c = true -> forallb is_lower_digit_us mid = true ->
  is_lower_digit d = true -> line_end tail ->
  matches MigrationOrder.name_pattern (c :: mid ++ d :: tail) = true.
Proof.
  intros Hc Hmid Hd Htail. unfold matches, match_here, MigrationOrder.name_pattern, seq.
  rewrite run_cat, run_one by exact Hc.
  rewrite run_cat. cbn [run].
  erewrite star_back_one; [reflexivity|exact Hmid|now apply lower_digit_us| | |].
  - destruct Htail as [->| ->]; [exact I|reflexivity].
  - destruct Htail as [->| ->]; reflexivity.
  - cbn [run]. rewrite Hd. destruct Htail as [->| ->]; reflexivity.
Qed.

Lemma name_pattern_sound name :
  matches MigrationOrder.name_pattern name = true -> conventional name.
Proof.
  unfold matches.
  destruct (match_here MigrationOrder.name_pattern name) as [[caps rest]|] eqn:E;
    [|discriminate].
  intros _. apply match_here_sound in E.
  unfold MigrationOrder.name_pattern, seq in E. cbn [denote] in E.
  destruct E as (s1 & c1 & [(c & -> & Hc) _] & s2 & c2 & [(mid & -> & Hmid) _]
                 & s3 & c3 & [(d & -> & Hd) _] & Er & _ & Hend).
  subst s3. exists c, mid, d, rest. auto.
Qed.

(** The pattern of the naming check accepts exactly the names that start
    with a lowercase letter, end with a lowercase letter or a digit and have
    only lowercase letters, digits and underscores in between (a newline
    after the name is let through); so a conforming name has at least two
    characters. *)
Theorem name_pattern_convention name :
  (matches MigrationOrder.name_pattern name = true <-> conventional name)
  /\ (matches MigrationOrder.name_pattern name = true -> 2 <= List.length name).
Proof.
  assert (H : matches MigrationOrder.name_pattern name = true <-> conventional name).
  { split; [apply name_pattern_sound|].
    intros (c & mid & d & tail & -> & Hc & Hmid & Hd & Ht).
    now apply name_pattern_complete. }
  split; [exact H|]. intros Hm. apply H in Hm.
  destruct Hm as (c & mid & d & tail & -> & _). simpl.
  rewrite length_app. simpl. lia.
Qed.

Lemma name_pattern_convention_witness :
  conventional (lit "add_series_2") /\ 2 <= List.length (lit "add_series_2").
Proof.
  destruct (name_pattern_convention (lit "add_series_2")) as [H1 H2].
  split; [apply H1; reflexivity|apply H2; reflexivity].
Defined.

(** * More on the extractor and the emitter *)

(** ** What extraction guarantees of the collected fields *)

(** When extraction returns, every collected name is a non-empty run of
    word characters, the value list of an enum type holds no closing
    parenthesis, a table body holds no semicolon, the definition of a
    constraint or of a trigger is non-empty and holds no semicolon, and the
    index collection is empty. *)
Theorem extracted_fields_well_formed content st :
  extract_ddl_statements content = Ok st ->
  well_formed st = true /\ indexes st = [].
Proof.
  intros H. rewrite extract_cases in H.
  destruct (finditer index_pattern content); [|discriminate].
  injection H as <-. split; [apply collected_well_formed|reflexivity].
Qed.

Lemma extracted_fields_well_formed_witness :
  extract_ddl_statements small_dump = Ok (collected small_dump)
  /\ well_formed (collected small_dump) = true
  /\ indexes (collected small_dump) = [].
Proof.
  assert (H : extract_ddl_statements small_dump = Ok (collected small_dump))
    by (vm_compute; reflexivity).
  split; [exact H|]. exact (extracted_fields_well_formed small_dump _ H).
Defined.

(** ** [strip] *)

Lemma lstrip_stops s : stops is_space (lstrip s).
Proof.
  induction s as [|c s IH]; simpl; [exact I|].
  destruct (is_space c) eqn:E; [exact IH|exact E].
Qed.

Lemma lstrip_fix s : stops is_space s -> lstrip s = s.
Proof. destruct s as [|c s]; simpl; [reflexivity|]. now intros ->. Qed.

Lemma lstrip_suffix s : exists w, s = w ++ lstrip s.
Proof.
  induction s as [|c s [w IH]]; simpl; [now exists []|].
  destruct (is_space c); [|now exists []].
  exists (c :: w). simpl. now f_equal.
Qed.

Lemma rstrip_prefix s : exists w, s = rstrip s ++ w.
Proof.
  unfold rstrip. destruct (lstrip_suffix (rev s)) as [w E].
  exists (rev w). rewrite <- rev_app_distr, <- E. now rewrite rev_involutive.
Qed.

Lemma rstrip_stops_end s : stops is_space (rev (rstrip s)).
Proof. unfold rstrip. rewrite rev_involutive. apply lstrip_stops. Qed.

Lemma rstrip_keeps_start s : stops is_space s -> stops is_space (rstrip s).
Proof.
  intros H. destruct (rstrip_prefix s) as [w E].
  destruct (rstrip s) as [|c r]; [exact I|].
  rewrite E in H. exact H.
Qed.

Lemma rstrip_fix s : stops is_space (rev s) -> rstrip s = s.
Proof.
  intros H. unfold rstrip. rewrite lstrip_fix by exact H. apply rev_involutive.
Qed.

Lemma strip_trimmed s : trimmed (strip s).
Proof.
  assert (H1 : stops is_space (strip s))
    by (apply rstrip_keeps_start, lstrip_stops).
  assert (H2 : stops is_space (rev (strip s))) by apply rstrip_stops_end.
  split; [|split; assumption].
  unfold strip at 1. rewrite lstrip_fix by exact H1. now apply rstrip_fix.
Qed.

(** The enum value lists and the table bodies that extraction stores have
    no whitespace at either end, so the [strip()] the emitter applies to a
    table body again leaves it as it is. *)
Theorem extracted_texts_trimmed content st :
  extract_ddl_statements content = Ok st ->
  Forall (fun t => trimmed (snd t)) (types st)
  /\ Forall (fun t => trimmed (snd t)) (tables st).
Proof.
  intros H. rewrite extract_cases in H.
  destruct (finditer index_pattern content); [|discriminate].
  injection H as <-. simpl. split; apply Forall_forall; intros t Hin.
  - apply in_map_iff in Hin. destruct Hin as (m & <- & _). apply strip_trimmed.
  - apply somes_in, in_map_iff in Hin. destruct Hin as (m & E & _).
    unfold table_of in E. destruct (negb _); [|discriminate].
    injection E as <-. apply strip_trimmed.
Qed.

Lemma extracted_texts_trimmed_witness :
  extract_ddl_statements padded_dump = Ok (collected padded_dump)
  /\ Forall (fun t => trimmed (snd t)) (tables (collected padded_dump)).
Proof.
  assert (H : extract_ddl_statements padded_dump = Ok (collected padded_dump))
    by (vm_compute; reflexivity).
  split; [exact H|]. exact (proj2 (extracted_texts_trimmed padded_dump _ H)).
Defined.

(** ** The groups found in an emitted section *)

Lemma scan_groups r s : forall skip pos,
  map m_groups (scan r skip pos s) = found r skip s.
Proof.
  unfold found. induction s as [|c s IH]; intros skip pos; [reflexivity|].
  simpl. destruct skip as [|n].
  - destruct (match_here r (c :: s)) as [[caps rest]|]; simpl.
    + now rewrite (IH _ (S pos)), (IH _ 1).
    + now rewrite (IH _ (S pos)), (IH _ 1).
  - now rewrite (IH _ (S pos)), (IH _ 1).
Qed.

Lemma found_skip r a : forall b,
  found r (List.length a) (a ++ b) = found r 0 b.
Proof.
  unfold found. induction a as [|c a IH]; intros b; [reflexivity|].
  simpl. rewrite scan_groups. apply IH.
Qed.

Lemma found_none r c s :
  match_here r (c :: s) = None -> found r 0 (c :: s) = found r 0 s.
Proof.
  unfold found. intros H. simpl. rewrite H. apply scan_groups.
Qed.

Lemma found_match r t rest caps :
  t <> [] -> match_here r (t ++ rest) = Some (caps, rest) ->
  found r 0 (t ++ rest) = caps :: found r 0 rest.
Proof.
  intros Hne H. destruct t as [|c t]; [contradiction|].
  unfold found. simpl app in *. cbn [scan]. rewrite H. cbn [map m_groups].
  f_equal. rewrite scan_groups. cbn [List.length].
  replace (S (List.length (t ++ rest)) - List.length rest - 1) with (List.length t)
    by (rewrite length_app; lia).
  apply found_skip.
Qed.

Lemma found_no_start l r u : forall rest,
  no_start l u = true ->
  found (Cat (Lit l) r) 0 (u ++ rest) = found (Cat (Lit l) r) 0 rest.
Proof.
  induction u as [|c u IH]; intros rest H; [reflexivity|].
  simpl in H. apply andb_prop in H. destruct H as [Hc Hu].
  change ((c :: u) ++ rest) with (c :: (u ++ rest)).
  rewrite found_none; [now apply IH|].
  change (c :: u ++ rest) with ((c :: u) ++ rest). now apply match_here_clash.
Qed.

Lemma found_statements {A} l r (stmt : A -> text) (caps_of : A -> list text)
      (items : list A) :
  clash l [nl] = true ->
  Forall (fun a => stmt a <> [] /\
                   forall rest,
                     match_here (Cat (Lit l) r) (stmt a ++ nl :: rest)
                     = Some (caps_of a, nl :: rest)) items ->
  found (Cat (Lit l) r) 0 (List.concat (map (fun a => stmt a ++ [nl]) items))
  = map caps_of items.
Proof.
  intros Hnl. induction 1 as [|a items [Hne Hm] _ IH]; [reflexivity|].
  simpl. rewrite <- app_assoc. simpl.
  rewrite (found_match _ _ _ _ Hne (Hm _)).
  f_equal. etransitivity; [|exact IH].
  apply (found_no_start l r [nl]). simpl. now rewrite Hnl.
Qed.

Lemma found_section {A} l r title (entry : A -> list text)
      (caps_of : A -> list text) (items : list A) :
  no_start l (lit title ++ [nl]) = true ->
  clash l [nl] = true ->
  (forall a, entry a <> []) ->
  Forall (fun a => join [nl] (entry a) <> [] /\
                   forall rest,
                     match_here (Cat (Lit l) r) (join [nl] (entry a) ++ nl :: rest)
                     = Some (caps_of a, nl :: rest)) items ->
  map m_groups (finditer (Cat (Lit l) r) (join [nl] (section title entry items)))
  = map caps_of items.
Proof.
  intros Ht Hnl Hne Hall. change (map m_groups (finditer ?p ?s)) with (found p 0 s).
  destruct items as [|a0 items0]; [reflexivity|].
  rewrite section_text by (auto; discriminate).
  rewrite found_no_start by exact Ht.
  now apply (found_statements l r (fun a => join [nl] (entry a))).
Qed.

(** The exact groups of the statements emitted verbatim. *)
Lemma extension_statement_groups ext rest :
  is_name ext = true ->
  match_here extension_pattern (join [nl] (extension_entry ext) ++ nl :: rest)
  = Some ([ext], nl :: rest).
Proof.
  intros H. apply is_name_inv in H. destruct H as [Hne Hw].
  unfold match_here, extension_pattern, extension_entry, seq, join, word.
  rewrite <- !app_assoc. lit_step. rewrite run_cat.
  apply run_grp_plus; [exact Hne|exact Hw|reflexivity|].
  last_lit. reflexivity.
Qed.

Lemma trigger_statement_groups t rest :
  trigger_ok t = true ->
  match_here trigger_pattern (join [nl] (trigger_lines t) ++ nl :: rest)
  = Some ([fst t; snd t], nl :: rest).
Proof.
  destruct t as [name def]. intros H. apply andb_prop in H.
  destruct H as [Hn Hd]. apply is_name_inv in Hn. destruct Hn as [Hne Hw].
  apply is_definition_inv in Hd. destruct Hd as [Hdne Hdw].
  unfold match_here, trigger_pattern, trigger_lines, seq, join, word, no_semi.
  rewrite <- !app_assoc. lit_step. rewrite run_cat.
  apply run_grp_plus; [exact Hne|exact Hw|reflexivity|].
  lit_step. rewrite run_cat.
  apply run_grp_plus; [exact Hdne|exact Hdw|reflexivity|].
  last_lit. reflexivity.
Qed.

Lemma constraint_statement_groups c rest :
  constraint_ok c = true ->
  match_here constraint_pattern (join [nl] (constraint_lines c) ++ nl :: rest)
  = Some ([fst (fst c); snd (fst c); snd c], nl :: rest).
Proof.
  destruct c as [[tname name] def]. intros H. apply andb_prop in H.
  destruct H as [H Hd]. apply andb_prop in H. destruct H as [Ht Hn].
  apply is_name_inv in Ht, Hn. destruct Ht as [Htne Htw], Hn as [Hne Hw].
  apply is_definition_inv in Hd. destruct Hd as [Hdne Hdw].
  unfold match_here, constraint_pattern, constraint_lines, seq, join, word,
    no_semi, spaces.
  rewrite <- !app_assoc. lit_step. rewrite run_cat.
  apply run_grp_plus; [exact Htne|exact Htw|reflexivity|].
  rewrite run_cat.
  change (lit "    ADD CONSTRAINT " ++ name ++ lit " " ++ def ++ lit ";" ++ nl :: rest)
    with (lit "    " ++ lit "ADD CONSTRAINT " ++ name ++ lit " " ++ def
            ++ lit ";" ++ nl :: rest).
  change ([nl] ++ lit "    " ++ lit "ADD CONSTRAINT " ++ name ++ lit " " ++ def
            ++ lit ";" ++ nl :: rest)
    with ((nl :: lit "    ") ++ lit "ADD CONSTRAINT " ++ name ++ lit " " ++ def
            ++ lit ";" ++ nl :: rest).
  apply run_plus; [discriminate|reflexivity|reflexivity|].
  lit_step. rewrite run_cat.
  apply run_grp_plus; [exact Hne|exact Hw|reflexivity|].
  lit_step. rewrite run_cat.
  apply run_grp_plus; [exact Hdne|exact Hdw|reflexivity|].
  last_lit. reflexivity.
Qed.

Lemma well_formed_inv st :
  well_formed st = true ->
  (forall a, In a (extensions st) -> is_name a = true)
  /\ (forall a, In a (types st) -> type_ok a = true)
  /\ (forall a, In a (tables st) -> table_ok a = true)
  /\ (forall a, In a (constraints st) -> constraint_ok a = true)
  /\ (forall a, In a (triggers st) -> trigger_ok a = true).
Proof.
  unfold well_formed. intros H.
  repeat match goal with
         | Hc : _ && _ = true |- _ => apply andb_prop in Hc; destruct Hc
         end.
  repeat match goal with
         | Hc : forallb _ _ = true |- _ => rewrite forallb_forall in Hc
         end.
  repeat split; assumption.
Qed.

(** Extensions, constraints and triggers are emitted word for word: for
    well-formed collections (as extraction yields them), extracting the
    emitted section of one of these categories again gives back exactly the
    entries that were emitted, in the same order. *)
Theorem verbatim_sections_round_trip st :
  well_formed st = true ->
  findall1 extension_pattern (join [nl] (extensions_section st)) = extensions st
  /\ map constraint_of
         (finditer constraint_pattern (join [nl] (constraints_section st)))
     = constraints st
  /\ map pair_of (finditer trigger_pattern (join [nl] (triggers_section st)))
     = triggers st.
Proof.
  intros H. apply well_formed_inv in H. destruct H as (He & _ & _ & Hc & Ht).
  split; [|split].
  - unfold findall1.
    rewrite <- (map_map m_groups (fun g => nth 0 g [])).
    unfold extensions_section, extension_pattern, seq.
    rewrite (found_section (lit "CREATE EXTENSION IF NOT EXISTS ") _ _ _
               (fun ext => [ext]));
      [|reflexivity|reflexivity|discriminate|].
    + rewrite map_map. apply map_id.
    + apply Forall_forall. intros a Ha. split; [discriminate|].
      intros rest. now apply extension_statement_groups, He.
  - unfold constraint_of, grp.
    rewrite <- (map_map m_groups
                  (fun g => (nth (1 - 1) g [], nth (2 - 1) g [], nth (3 - 1) g []))).
    unfold constraints_section, constraint_pattern, seq.
    rewrite (found_section (lit "ALTER TABLE ONLY public.") _ _ _
               (fun c => [fst (fst c); snd (fst c); snd c]));
      [|reflexivity|reflexivity|now intros [[t n] v]|].
    + rewrite map_map. simpl. rewrite <- (map_id (constraints st)) at 2.
      apply map_ext. now intros [[t n] d].
    + apply Forall_forall. intros a Ha. split; [now destruct a as [[t n] v]|].
      intros rest. now apply constraint_statement_groups, Hc.
  - unfold pair_of, grp.
    rewrite <- (map_map m_groups (fun g => (nth (1 - 1) g [], nth (2 - 1) g []))).
    unfold triggers_section, trigger_pattern, seq.
    rewrite (found_section (lit "CREATE TRIGGER ") _ _ _
               (fun t => [fst t; snd t]));
      [|reflexivity|reflexivity|now intros [n v]|].
    + rewrite map_map. simpl. rewrite <- (map_id (triggers st)) at 2.
      apply map_ext. now intros [n d].
    + apply Forall_forall. intros a Ha. split; [now destruct a|].
      intros rest. now apply trigger_statement_groups, Ht.
Qed.

Lemma verbatim_sections_round_trip_witness :
  map pair_of (finditer trigger_pattern
                 (join [nl] (triggers_section sample_statements)))
  = triggers sample_statements.
Proof.
  exact (proj2 (proj2 (verbatim_sections_round_trip sample_statements eq_refl))).
Defined.

(** ** When extraction raises *)

(** [extract_ddl_statements] raises [IndexError] exactly on the texts in
    which the index pattern matches somewhere; on every other text it
    returns, with an empty index collection. *)
Theorem extraction_outcome content :
  (extract_ddl_statements content = Raise IndexError
   <-> finditer index_pattern content <> [])
  /\ (extract_ddl_statements content = Ok (collected content)
      <-> finditer index_pattern content = []).
Proof.
  rewrite extract_cases.
  destruct (finditer index_pattern content) as [|m ms]; split; split;
    try discriminate; try reflexivity; try congruence.
Qed.

Lemma open_table_block_not_matched_witness :
  Forall (fun m => m_start m + m_len m <= List.length closed_table)
         (finditer table_pattern
            (closed_table ++ open_table_block (lit "items")
                                              (nl :: lit "    id integer NOT NULL,")))
  /\ List.length (finditer table_pattern
                    (closed_table ++ open_table_block (lit "items")
                                       (nl :: lit "    id integer NOT NULL,"))) = 1.
Proof.
  split; [|reflexivity].
  apply Forall_forall. intros m Hm.
  apply (open_table_block_not_matched closed_table (lit "items")
           (nl :: lit "    id integer NOT NULL,") m); [reflexivity|reflexivity|exact Hm].
Defined.

(** ** [strip] and [split] on padded text *)

Lemma lstrip_spaces_app w s :
  forallb is_space w = true -> lstrip (w ++ s) = lstrip s.
Proof.
  induction w as [|c w IH]; simpl; [reflexivity|].
  intros H. apply andb_prop in H. destruct H as [-> H]. now apply IH.
Qed.

Lemma lstrip_spaces w : forallb is_space w = true -> lstrip w = [].
Proof.
  intros H. rewrite <- (app_nil_r w). now rewrite lstrip_spaces_app.
Qed.

Lemma lstrip_suffix_spaces s :
  exists w, s = w ++ lstrip s /\ forallb is_space w = true.
Proof.
  induction s as [|c s (w & IH & Hw)]; simpl; [now exists []|].
  destruct (is_space c) eqn:E; [|now exists []].
  exists (c :: w). simpl. rewrite E, Hw. split; [now f_equal|reflexivity].
Qed.

Lemma lstrip_app s w :
  lstrip s <> [] -> lstrip (s ++ w) = lstrip s ++ w.
Proof.
  induction s as [|c s IH]; simpl; [contradiction|].
  destruct (is_space c); [exact IH|reflexivity].
Qed.

Lemma lstrip_nil_spaces s : lstrip s = [] -> forallb is_space s = true.
Proof.
  induction s as [|c s IH]; simpl; [reflexivity|].
  destruct (is_space c); [exact IH|discriminate].
Qed.

Lemma rstrip_app_spaces s w :
  forallb is_space w = true -> rstrip (s ++ w) = rstrip s.
Proof.
  intros H. unfold rstrip. rewrite rev_app_distr.
  rewrite lstrip_spaces_app by (now rewrite forallb_rev). reflexivity.
Qed.

Lemma strip_lead w s : forallb is_space w = true -> strip (w ++ s) = strip s.
Proof. intros H. unfold strip. now rewrite lstrip_spaces_app. Qed.

Lemma strip_trail s w : forallb is_space w = true -> strip (s ++ w) = strip s.
Proof.
  intros H. unfold strip. destruct (lstrip s) as [|c u] eqn:E.
  - apply lstrip_nil_spaces in E.
    rewrite lstrip_spaces_app by exact E. now rewrite lstrip_spaces.
  - rewrite lstrip_app by (rewrite E; discriminate).
    rewrite E. now apply rstrip_app_spaces.
Qed.

Lemma strip_decompose s :
  exists w1 w2, s = w1 ++ strip s ++ w2
                /\ forallb is_space w1 = true /\ forallb is_space w2 = true.
Proof.
  destruct (lstrip_suffix_spaces s) as (w1 & E1 & H1).
  destruct (lstrip_suffix_spaces (rev (lstrip s))) as (w2 & E2 & H2).
  exists w1, (rev w2). repeat split; [|exact H1|now rewrite forallb_rev].
  unfold strip, rstrip. rewrite <- rev_app_distr, <- E2, rev_involutive.
  exact E1.
Qed.

Section SplitStrip.
Variable sep : ascii.
Hypothesis sep_not_space : is_space sep = false.

Lemma space_not_sep c : is_space c = true -> Ascii.eqb c sep = false.
Proof.
  intros H. destruct (Ascii.eqb_spec c sep) as [->|]; [congruence|reflexivity].
Qed.

Lemma spaces_free w :
  forallb is_space w = true -> forallb (not_char sep) w = true.
Proof.
  induction w as [|c w IH]; simpl; [reflexivity|].
  intros H. apply andb_prop in H. destruct H as [Hc Hw].
  unfold not_char at 1. rewrite space_not_sep by exact Hc. now apply IH.
Qed.

Lemma split_strip_lead w : forall y,
  forallb is_space w = true ->
  map strip (split sep (w ++ y)) = map strip (split sep y).
Proof.
  induction w as [|c w IH]; intros y H; [reflexivity|].
  simpl in H. apply andb_prop in H. destruct H as [Hc Hw].
  simpl. rewrite space_not_sep by exact Hc.
  specialize (IH y Hw). pose proof (split_nonempty sep (w ++ y)) as Hne.
  destruct (split sep (w ++ y)) as [|p ps]; [contradiction|].
  rewrite <- IH. simpl. f_equal.
  change (c :: p) with ([c] ++ p). apply strip_lead. simpl. now rewrite Hc.
Qed.

Lemma split_app_free x : forall w,
  forallb (not_char sep) w = true ->
  split sep (x ++ w)
  = removelast (split sep x) ++ [last (split sep x) [] ++ w].
Proof.
  induction x as [|c x IH]; intros w H.
  - simpl. clear -H. induction w as [|d w IH]; [reflexivity|].
    simpl in *. apply andb_prop in H. destruct H as [Hd Hw].
    unfold not_char in Hd. apply negb_true_iff in Hd. rewrite Hd.
    now rewrite (IH Hw).
  - simpl. pose proof (split_nonempty sep x) as Hne.
    rewrite (IH w H). destruct (Ascii.eqb c sep).
    + destruct (split sep x) as [|p ps]; [contradiction|]. reflexivity.
    + destruct (split sep x) as [|p [|q ps]]; [contradiction|reflexivity|].
      reflexivity.
Qed.

Lemma split_strip_trail x w :
  forallb is_space w = true ->
  map strip (split sep (x ++ w)) = map strip (split sep x).
Proof.
  intros H. rewrite split_app_free by (now apply spaces_free).
  pose proof (split_nonempty sep x) as Hne.
  rewrite (app_removelast_last [] Hne) at 3.
  rewrite !map_app. simpl. now rewrite strip_trail.
Qed.

Lemma split_strip s :
  map strip (split sep (strip s)) = map strip (split sep s).
Proof.
  destruct (strip_decompose s) as (w1 & w2 & E & H1 & H2).
  rewrite E at 2. rewrite split_strip_lead by exact H1.
  now rewrite split_strip_trail.
Qed.

Lemma split_free a : forallb (not_char sep) a = true -> split sep a = [a].
Proof.
  intros H. rewrite <- (app_nil_l a) at 1. now rewrite split_app_free.
Qed.
End SplitStrip.

Lemma split_join_free sep ps :
  ps <> [] -> Forall (fun p => forallb (not_char sep) p = true) ps ->
  split sep (join [sep] ps) = ps.
Proof.
  intros Hne H. rewrite split_join by exact Hne.
  clear Hne. induction H as [|p ps Hp _ IH]; [reflexivity|].
  simpl. rewrite IH, (split_free sep p Hp). reflexivity.
Qed.

(** ** Emitting an enum type twice *)

Lemma split_pieces_free sep s :
  Forall (fun p => forallb (not_char sep) p = true) (split sep s).
Proof.
  induction s as [|c s IH]; simpl; [repeat constructor|].
  destruct (Ascii.eqb c sep) eqn:E.
  - constructor; [reflexivity|exact IH].
  - destruct (split sep s) as [|p ps]; [repeat constructor; simpl|].
    + unfold not_char. now rewrite E.
    + inversion IH; subst. constructor; [|assumption].
      simpl. unfold not_char at 1. now rewrite E.
Qed.

Lemma enum_body_pieces A z :
  [nl] ++ join [nl] (map with_comma A ++ [indent z]) ++ [nl]
  = join [comma] (map (fun v => nl :: indent v) A ++ [nl :: indent z ++ [nl]]).
Proof.
  induction A as [|a A IH]; [reflexivity|].
  cbn [map app]. rewrite join_cons by (now destruct (map with_comma A)).
  rewrite join_cons by (now destruct (map (fun v => nl :: indent v) A)).
  rewrite <- IH. unfold with_comma. simpl. rewrite <- !app_assoc. reflexivity.
Qed.

Lemma enum_values_stripped v :
  Forall (fun w => strip w = w /\ forallb (not_char comma) w = true)
         (enum_values_of v).
Proof.
  unfold enum_values_of. pose proof (split_pieces_free comma v) as H.
  induction H as [|p ps Hp _ IH]; simpl; constructor; auto.
  split; [apply strip_trimmed|now apply forallb_strip].
Qed.

Lemma strip_enum_piece w : strip w = w -> strip (nl :: indent w) = w.
Proof.
  intros H. change (nl :: indent w) with ((nl :: lit "    ") ++ w).
  now rewrite strip_lead.
Qed.

Lemma strip_enum_last w : strip w = w -> strip (nl :: indent w ++ [nl]) = w.
Proof.
  intros H. change (nl :: indent w ++ [nl]) with ((nl :: lit "    ") ++ w ++ [nl]).
  rewrite strip_lead by reflexivity. now rewrite strip_trail.
Qed.

Lemma enum_values_of_body v :
  enum_values_of (strip (enum_body v)) = enum_values_of v.
Proof.
  pose proof (enum_values_stripped v) as Hvs.
  assert (Hne : enum_values_of v <> []).
  { unfold enum_values_of. intros H. apply map_eq_nil in H.
    now apply split_nonempty in H. }
  unfold enum_values_of at 1. rewrite split_strip by reflexivity.
  unfold enum_body, enum_lines.
  rewrite (enum_value_lines_shape _ 0 (List.length (enum_values_of v)) Hne eq_refl).
  rewrite enum_body_pieces.
  rewrite (app_removelast_last [] Hne) in Hvs.
  apply Forall_app in Hvs. destruct Hvs as [HA Hz].
  inversion Hz as [|? ? [Hz1 Hz2] _]; subst.
  rewrite split_join_free.
  - rewrite map_app, map_map. cbn [map].
    rewrite strip_enum_last by exact Hz1.
    assert (E : map (fun x => strip (nl :: indent x)) (removelast (enum_values_of v))
                = removelast (enum_values_of v)).
    { rewrite <- map_id. apply map_ext_in. intros a Ha.
      rewrite Forall_forall in HA. apply strip_enum_piece. now apply HA. }
    rewrite E. symmetry. now apply app_removelast_last.
  - now destruct (map _ (removelast (enum_values_of v))).
  - apply Forall_app. split.
    + apply Forall_forall. intros p Hp. apply in_map_iff in Hp.
      destruct Hp as (a & <- & Ha). rewrite Forall_forall in HA.
      change (nl :: indent a) with ((nl :: lit "    ") ++ a).
      rewrite forallb_app. now rewrite (proj2 (HA a Ha)).
    + constructor; [|constructor].
      change (nl :: indent (last (enum_values_of v) []) ++ [nl])
        with ((nl :: lit "    ") ++ last (enum_values_of v) [] ++ [nl]).
      rewrite !forallb_app.
      apply andb_true_intro; split; [reflexivity|].
      apply andb_true_intro; split; [exact Hz2|reflexivity].
Qed.

Lemma enum_lines_of_body v : enum_lines (strip (enum_body v)) = enum_lines v.
Proof. unfold enum_lines. now rewrite enum_values_of_body. Qed.

(** ** Emitting a table twice *)

Lemma nl_is_space : is_space nl = true.
Proof. reflexivity. Qed.

Lemma not_space_not_nl c : is_space c = false -> Ascii.eqb c nl = false.
Proof.
  intros H. destruct (Ascii.eqb_spec c nl) as [->|]; [discriminate H|reflexivity].
Qed.

Lemma rstrip_nil_spaces s : rstrip s = [] -> forallb is_space s = true.
Proof.
  unfold rstrip. intros H.
  assert (E : lstrip (rev s) = []).
  { apply (f_equal (@rev ascii)) in H. now rewrite rev_involutive in H. }
  apply lstrip_nil_spaces in E. now rewrite forallb_rev in E.
Qed.

(** A stripped line that has a character which is not whitespace starts and
    ends with such a character. *)
Lemma strip_starts c p :
  is_space c = false -> stops is_space (strip (c :: p)) /\ strip (c :: p) <> [].
Proof.
  intros Hc. split; [apply strip_trimmed|].
  unfold strip. simpl. rewrite Hc. intros E. apply rstrip_nil_spaces in E.
  simpl in E. now rewrite Hc in E.
Qed.

Lemma strip_nonempty_end q c :
  is_space c = false -> strip (q ++ [c]) <> [].
Proof.
  intros Hc E. pose proof (strip_decompose (q ++ [c])) as (w1 & w2 & Hd & H1 & H2).
  rewrite E in Hd. simpl in Hd.
  assert (H : forallb is_space (q ++ [c]) = true)
    by (rewrite Hd, forallb_app, H1, H2; reflexivity).
  rewrite forallb_app in H. simpl in H. rewrite Hc in H.
  now rewrite andb_false_r in H.
Qed.

Lemma first_piece s :
  s <> [] -> stops is_space s ->
  exists c p ps, split nl s = (c :: p) :: ps /\ is_space c = false.
Proof.
  destruct s as [|c s]; [contradiction|]. intros _ Hc. simpl in Hc.
  simpl. rewrite not_space_not_nl by exact Hc.
  pose proof (split_nonempty nl s) as Hne.
  destruct (split nl s) as [|p ps]; [contradiction|]. eauto.
Qed.

Lemma last_piece s :
  s <> [] -> stops is_space (rev s) ->
  exists q c, last (split nl s) [] = q ++ [c] /\ is_space c = false.
Proof.
  intros Hne Hs. rewrite (app_removelast_last nl Hne) in Hs |- *.
  rewrite rev_app_distr in Hs. simpl in Hs.
  rewrite split_app_free
    by (simpl; unfold not_char; now rewrite not_space_not_nl).
  rewrite last_last. eauto.
Qed.

Lemma join_ends sep xs :
  xs <> [] -> exists pre, join sep xs = pre ++ last xs [].
Proof.
  induction xs as [|x xs IH]; [contradiction|]. intros _.
  destruct xs as [|y xs]; [now exists []|].
  destruct IH as [pre E]; [discriminate|].
  rewrite join_cons by discriminate. rewrite E.
  exists (x ++ sep ++ pre). cbn [last]. now rewrite <- !app_assoc.
Qed.

Lemma join_starts sep x xs c p :
  x = c :: p -> exists post, join sep (x :: xs) = c :: post.
Proof.
  intros ->. destruct xs as [|y xs]; [now exists p|].
  rewrite join_cons by discriminate. now exists (p ++ sep ++ join sep (y :: xs)).
Qed.

Lemma strip_fix s :
  stops is_space s -> stops is_space (rev s) -> strip s = s.
Proof.
  intros H1 H2. unfold strip. rewrite lstrip_fix by exact H1.
  now apply rstrip_fix.
Qed.

Lemma strip_indent l : strip l = l -> strip (indent l) = l.
Proof.
  intros H. unfold indent. now rewrite strip_lead.
Qed.

Lemma join_indent l ls :
  join [nl] (map indent (l :: ls)) = lit "    " ++ join [nl] (l :: map indent ls).
Proof.
  destruct ls as [|l' ls]; [reflexivity|].
  cbn [map]. rewrite !join_cons by discriminate.
  unfold indent at 1. now rewrite <- app_assoc.
Qed.

Lemma last_indented l r :
  exists pfx, last (l :: map indent r) [] = pfx ++ last (l :: r) [].
Proof.
  revert l. induction r as [|x r IH]; intros l; [now exists []|].
  destruct (IH x) as [pfx E]. destruct r as [|y r].
  - now exists (lit "    ").
  - exists pfx. exact E.
Qed.

Lemma body_lines_fixed l1 rest :
  Forall (fun l => strip l = l /\ forallb (not_char nl) l = true) (l1 :: rest) ->
  (exists c q, l1 = c :: q /\ is_space c = false) ->
  (exists y e, last (l1 :: rest) [] = y ++ [e] /\ is_space e = false) ->
  map strip
      (split nl (strip ([nl] ++ join [nl] (map indent (l1 :: rest)) ++ [nl])))
  = l1 :: rest.
Proof.
  intros Hall (c & q & Hl1 & Hc) (y & e & Hlast & He).
  rewrite join_indent.
  change ([nl] ++ (lit "    " ++ join [nl] (l1 :: map indent rest)) ++ [nl])
    with ((nl :: lit "    ") ++ join [nl] (l1 :: map indent rest) ++ [nl]).
  rewrite strip_lead, strip_trail by reflexivity.
  rewrite strip_fix.
  - inversion Hall as [|? ? [H1 F1] Hrest]; subst.
    rewrite split_join_free.
    + cbn [map]. rewrite H1. f_equal. rewrite map_map.
      rewrite <- map_id. apply map_ext_in. intros a Ha.
      rewrite Forall_forall in Hrest. apply strip_indent. now apply Hrest.
    + discriminate.
    + constructor; [exact F1|]. apply Forall_forall. intros a Ha.
      apply in_map_iff in Ha. destruct Ha as (b & <- & Hb).
      rewrite Forall_forall in Hrest. unfold indent. rewrite forallb_app.
      now rewrite (proj2 (Hrest b Hb)).
  - destruct (join_starts [nl] l1 (map indent rest) c q Hl1) as [post E].
    unfold text in *. rewrite E. exact Hc.
  - destruct (join_ends [nl] (l1 :: map indent rest)) as [pre E]; [discriminate|].
    destruct (last_indented l1 rest) as [pfx E'].
    unfold text in *. rewrite E, E', Hlast.
    rewrite !app_assoc, rev_app_distr. exact He.
Qed.

Lemma last_map_strip ls : last (map strip ls) [] = strip (last ls []).
Proof.
  induction ls as [|l ls IH]; [reflexivity|].
  destruct ls as [|l' ls]; [reflexivity|]. exact IH.
Qed.

Lemma table_lines_of_body d :
  map strip (split nl (strip (table_body d))) = map strip (split nl (strip d)).
Proof.
  unfold table_body. rewrite <- (map_map strip indent).
  destruct (strip_trimmed d) as (Hfix & Hs & He).
  destruct (strip d) as [|c0 d0] eqn:Ed; [reflexivity|].
  assert (Hne : c0 :: d0 <> []) by discriminate.
  destruct (first_piece _ Hne Hs) as (c & p & ps & Esplit & Hc).
  destruct (last_piece _ Hne He) as (q & e & Elast & Hesp).
  assert (Hfree : Forall (fun l => strip l = l /\ forallb (not_char nl) l = true)
                         (map strip (split nl (c0 :: d0)))).
  { apply Forall_forall. intros l Hl. apply in_map_iff in Hl.
    destruct Hl as (x & <- & Hx). split; [apply strip_trimmed|].
    apply forallb_strip. revert x Hx. apply Forall_forall.
    apply split_pieces_free. }
  rewrite Esplit in *. cbn [map] in *.
  apply body_lines_fixed; [exact Hfree| |].
  - destruct (strip_starts c p Hc) as [H1 H2].
    destruct (strip (c :: p)) as [|c' q']; [contradiction|]. now exists c', q'.
  - change (strip (c :: p) :: map strip ps) with (map strip ((c :: p) :: ps)).
    rewrite last_map_strip, Elast.
    pose proof (strip_nonempty_end q e Hesp) as Hn.
    destruct (strip_trimmed (q ++ [e])) as (_ & _ & Hend).
    destruct (rev (strip (q ++ [e]))) as [|e' y'] eqn:Er.
    + apply (f_equal (@rev ascii)) in Er. rewrite rev_involutive in Er.
      contradiction.
    + apply (f_equal (@rev ascii)) in Er. rewrite rev_involutive in Er.
      simpl in Er. exists (rev y'), e'. auto.
Qed.

(** ** Emitting what was extracted from an emitted section *)

Lemma type_statement_groups t rest :
  type_ok t = true ->
  match_here type_pattern (join [nl] (type_lines t) ++ nl :: rest)
  = Some ([fst t; enum_body (snd t)], nl :: rest).
Proof.
  destruct t as [name v]. intros H. apply andb_prop in H.
  destruct H as [Hn Hv]. apply is_name_inv in Hn. destruct Hn as [Hne Hw].
  unfold match_here, type_pattern, type_lines, seq, word, no_rparen.
  rewrite join_wrapped by apply enum_lines_nonempty.
  rewrite <- !(app_assoc (lit "CREATE TYPE public.")).
  rewrite <- !(app_assoc name). rewrite <- !(app_assoc (lit " AS ENUM (")).
  rewrite <- (app_assoc _ (lit ");")).
  lit_step. rewrite run_cat.
  apply run_grp_plus; [exact Hne|exact Hw|reflexivity|].
  lit_step. rewrite run_cat.
  apply run_grp_plus; [discriminate|now apply enum_body_free|reflexivity|].
  last_lit. reflexivity.
Qed.

Lemma table_statement_groups t rest :
  table_ok t = true ->
  match_here table_pattern (join [nl] (table_lines t) ++ nl :: rest)
  = Some ([fst t; table_body (snd t)], nl :: rest).
Proof.
  destruct t as [name d]. intros H. apply andb_prop in H.
  destruct H as [Hn Hd]. apply is_name_inv in Hn. destruct Hn as [Hne Hw].
  unfold match_here, table_pattern, table_lines, seq, word, no_semi.
  rewrite join_wrapped
    by (intros E; apply map_eq_nil in E; now apply split_nonempty in E).
  rewrite <- !(app_assoc (lit "CREATE TABLE public.")).
  rewrite <- !(app_assoc name). rewrite <- !(app_assoc (lit " (")).
  rewrite <- (app_assoc _ (lit ");")).
  lit_step. rewrite run_cat.
  change (lit ");" ++ nl :: rest) with (rparen :: semicolon :: nl :: rest).
  apply run_grp_plus; [exact Hne|exact Hw|reflexivity|].
  lit_step. rewrite run_cat.
  apply run_grp_plus_back;
    [discriminate|now apply table_body_free|reflexivity|reflexivity| |].
  - reflexivity.
  - reflexivity.
Qed.

Lemma reread_types st :
  well_formed st = true ->
  map type_of (finditer type_pattern (join [nl] (types_section st)))
  = map reread_type (types st).
Proof.
  intros H. apply well_formed_inv in H. destruct H as (_ & Hty & _).
  unfold type_of, grp.
  rewrite <- (map_map m_groups (fun g => (nth (1 - 1) g [], strip (nth (2 - 1) g [])))).
  unfold types_section, type_pattern, seq.
  rewrite (found_section (lit "CREATE TYPE public.") _ _ _
             (fun t => [fst t; enum_body (snd t)]));
    [|reflexivity|reflexivity|now intros [n v]|].
  - rewrite map_map. reflexivity.
  - apply Forall_forall. intros a Ha. split.
    { destruct a as [n v]. unfold type_lines.
      rewrite join_wrapped by apply enum_lines_nonempty. discriminate. }
    intros rest. now apply type_statement_groups, Hty.
Qed.

Lemma somes_all {A B} (f : A -> option B) (g : A -> B) l :
  (forall a, In a l -> f a = Some (g a)) -> somes (map f l) = map g l.
Proof.
  induction l as [|a l IH]; intros H; [reflexivity|].
  simpl. rewrite (H a) by (now left). f_equal. apply IH.
  intros b Hb. apply H. now right.
Qed.

Lemma reread_tables st :
  well_formed st = true -> ~ In diesel_table (map fst (tables st)) ->
  somes (map table_of (finditer table_pattern (join [nl] (tables_section st))))
  = map reread_table (tables st).
Proof.
  intros H Hd. apply well_formed_inv in H. destruct H as (_ & _ & Htb & _).
  unfold table_of, grp.
  rewrite <- (map_map m_groups
                (fun g => if negb (text_eqb (nth (1 - 1) g []) diesel_table)
                          then Some (nth (1 - 1) g [], strip (nth (2 - 1) g []))
                          else None)).
  unfold tables_section, table_pattern, seq.
  rewrite (found_section (lit "CREATE TABLE public.") _ _ _
             (fun t => [fst t; table_body (snd t)]));
    [|reflexivity|reflexivity|now intros [n v]|].
  - rewrite map_map. apply somes_all. intros [n d] Hin. cbn [nth fst snd Nat.sub].
    rewrite text_eqb_neq; [reflexivity|].
    intros ->. apply Hd. apply in_map_iff. now exists (diesel_table, d).
  - apply Forall_forall. intros a Ha. split.
    { destruct a as [n v]. unfold table_lines.
      rewrite join_wrapped
        by (intros E; apply map_eq_nil in E; now apply split_nonempty in E).
      discriminate. }
    intros rest. now apply table_statement_groups, Htb.
Qed.

Lemma type_lines_reread t : type_lines (reread_type t) = type_lines t.
Proof.
  destruct t as [n v]. unfold reread_type, type_lines. cbn [fst snd].
  now rewrite enum_lines_of_body.
Qed.

Lemma table_lines_reread t : table_lines (reread_table t) = table_lines t.
Proof.
  destruct t as [n d]. unfold reread_table, table_lines. cbn [fst snd].
  rewrite (proj1 (strip_trimmed (table_body d))).
  rewrite <- !(map_map strip indent). now rewrite table_lines_of_body.
Qed.

Lemma section_map {A} title (entry : A -> list text) (f : A -> A) l :
  (forall a, entry (f a) = entry a) ->
  section title entry (map f l) = section title entry l.
Proof.
  intros H. unfold section. destruct l as [|a l]; [reflexivity|].
  cbn [map]. f_equal. f_equal. rewrite !flat_map_concat_map.
  f_equal. change (f a :: map f l) with (map f (a :: l)).
  rewrite map_map. apply map_ext. exact H.
Qed.

(** Enum types and tables are emitted reformatted, and the format is
    stable: when the emitted section of one of these categories is
    extracted again, the names read back are the ones emitted, and emitting
    what was read back gives the same section once more. *)
Theorem emitted_types_and_tables_stable content st :
  extract_ddl_statements content = Ok st ->
  let types' :=
    map type_of (finditer type_pattern (join [nl] (types_section st))) in
  let tables' :=
    somes (map table_of (finditer table_pattern (join [nl] (tables_section st)))) in
  map fst types' = map fst (types st)
  /\ map fst tables' = map fst (tables st)
  /\ section "-- Custom Types (ENUMs)" type_lines types' = types_section st
  /\ section "-- Tables" table_lines tables' = tables_section st.
Proof.
  intros H types' tables'. rewrite extract_cases in H.
  destruct (finditer index_pattern content); [|discriminate].
  injection H as <-.
  pose proof (collected_well_formed content) as Hwf.
  pose proof (tables_without_diesel content) as Hd.
  subst types' tables'.
  rewrite (reread_types _ Hwf), (reread_tables _ Hwf Hd).
  repeat split.
  - rewrite map_map. reflexivity.
  - rewrite map_map. reflexivity.
  - apply section_map, type_lines_reread.
  - apply section_map, table_lines_reread.
Qed.

Lemma emitted_types_and_tables_stable_witness :
  extract_ddl_statements padded_dump = Ok (collected padded_dump)
  /\ section "-- Tables" table_lines
       (somes (map table_of
                 (finditer table_pattern
                    (join [nl] (tables_section (collected padded_dump))))))
     = tables_section (collected padded_dump).
Proof.
  assert (H : extract_ddl_statements padded_dump = Ok (collected padded_dump))
    by (vm_compute; reflexivity).
  split; [exact H|].
  exact (proj2 (proj2 (proj2 (emitted_types_and_tables_stable padded_dump _ H)))).
Defined.

(** ** The driver *)

(** [main] writes the output file only when it was given exactly one
    argument, the schema file exists and can be read, no statement of the
    schema matches the index pattern and the output file can be opened; the
    text written is then the emission of what was extracted.  Whenever the
    counts are printed, the number of indexes reported is 0. *)
Theorem main_writes_only_without_index e :
  (forall out,
     Driver.written (Driver.main e) = Some out
     <-> exists prog path content,
           Driver.argv e = [prog; path]
           /\ Driver.path_exists e path = true
           /\ Driver.read_text e path = Some content
           /\ finditer index_pattern content = []
           /\ Driver.output_writable e = true
           /\ out = generate_consolidated_migration (collected content))
  /\ (forall n, In (Driver.Indexes n) (Driver.printed (Driver.main e)) -> n = 0).
Proof.
  unfold Driver.main.
  destruct (Driver.argv e) as [|prog [|path [|x l]]] eqn:Ea;
    try (split; [intros out; split;
                  [discriminate|intros (? & ? & ? & ? & _); discriminate]
                |intros n [H|[]]; discriminate H]).
  destruct (Driver.path_exists e path) eqn:Ep; simpl.
  2:{ split; [|intros n [H|[]]; discriminate H].
      intros out; split; [discriminate|].
      intros (? & ? & ? & [= <- <-] & Hp & _). congruence. }
  destruct (Driver.read_text e path) as [content|] eqn:Er.
  2:{ split; [|intros n [H|[]]; discriminate H].
      intros out; split; [discriminate|].
      intros (? & ? & ? & [= <- <-] & _ & Hr & _). congruence. }
  rewrite extract_cases.
  destruct (finditer index_pattern content) as [|m ms] eqn:Ei.
  2:{ split; [|intros n [H|[]]; discriminate H].
      intros out; split; [discriminate|].
      intros (? & ? & c & [= <- <-] & _ & Hr & Hi & _).
      rewrite Er in Hr. injection Hr as <-. congruence. }
  destruct (Driver.output_writable e) eqn:Ew; simpl.
  - split.
    + intros out; split.
      * intros [= <-]. exists prog, path, content. repeat split; auto.
      * intros (? & ? & c & [= <- <-] & _ & Hr & _ & _ & ->).
        rewrite Er in Hr. now injection Hr as <-.
    + intros n H. simpl in H.
      repeat (destruct H as [H|H]; try discriminate H);
        try contradiction; now injection H as <-.
  - split.
    + intros out; split; [discriminate|].
      intros (? & ? & ? & _ & _ & _ & _ & Hw & _). discriminate Hw.
    + intros n H. simpl in H.
      repeat (destruct H as [H|H]; try discriminate H);
        try contradiction; now injection H as <-.
Qed.

Lemma main_writes_only_without_index_witness :
  Driver.written (Driver.main sample_env)
  = Some (generate_consolidated_migration (collected small_dump))
  /\ In (Driver.Indexes 0) (Driver.printed (Driver.main sample_env)).
Proof.
  destruct (main_writes_only_without_index sample_env) as [H1 H2].
  split.
  - apply H1. exists (lit "create_consolidated_migration.py"), (lit "schema.sql"),
      small_dump. repeat split; vm_compute; reflexivity.
  - assert (Hin : exists n, In (Driver.Indexes n) (Driver.printed (Driver.main sample_env))).
    { exists 0. vm_compute. auto 10. }
    destruct Hin as [n Hn]. now rewrite <- (H2 n Hn).
Defined.

(** ** The statements above at concrete inputs *)

Lemma check_migration_order_strict_witness :
  strictly_increasing ordered_migrations.
Proof.
  apply check_migration_order_strict. reflexivity.
Defined.

Lemma check_for_duplicate_timestamps_nodup_witness :
  NoDup (map (key_of timestamp_text) ordered_migrations).
Proof.
  apply check_for_duplicate_timestamps_nodup. reflexivity.
Defined.

Lemma main_exit_status_witness :
  ordered_migrations <> [] /\ strictly_increasing ordered_migrations
  /\ NoDup (map (key_of timestamp_text) ordered_migrations)
  /\ names_long_enough ordered_migrations = true.
Proof.
  apply (proj1 (main_exit_status timestamp_text ordered_migrations)).
  reflexivity.
Defined.

Lemma extraction_outcome_witness : finditer index_pattern plain_index <> [].
Proof.
  apply (proj1 (extraction_outcome plain_index)). vm_compute. reflexivity.
Defined.

(** * Enum values line by line *)









(** * Functions *)

(** C7 (evaluation at the failing input): a dump with one function
    statement of the recognized shape and one [CREATE INDEX] statement.  The
    function pattern matches once, but extraction raises [IndexError] in the
    index loop, before the function loop: no functions collection is built,
    and [main] ends with the exception after its first line, without
    reporting any count and without writing the output. *)
Theorem functions_lost_with_index :
  List.length (finditer function_pattern function_and_index) = 1
  /\ extract_ddl_statements function_and_index = Raise IndexError
  /\ Driver.printed (Driver.main (env_reading function_and_index))
     = [Driver.Processing (lit "schema.sql")]
  /\ Driver.written (Driver.main (env_reading function_and_index)) = None
  /\ Driver.ended (Driver.main (env_reading function_and_index))
     = Driver.Raised (Driver.ExtractionFailed IndexError).
Proof. repeat split; vm_compute; reflexivity. Qed.

(** On a schema that can be read and in which the index pattern matches
    nothing, [main] reports as number of functions the number of matches of
    the function pattern, and the text it writes is the same whatever list
    is stored under ['functions']: no function is emitted. *)
Theorem function_count_reported_not_emitted e prog path content :
  Driver.argv e = [prog; path] ->
  Driver.path_exists e path = true ->
  Driver.read_text e path = Some content ->
  finditer index_pattern content = [] ->
  In (Driver.Functions (List.length (finditer function_pattern content)))
     (Driver.printed (Driver.main e))
  /\ (forall out,
        Driver.written (Driver.main e) = Some out ->
        forall fs,
          out = generate_consolidated_migration
                  (with_functions (collected content) fs)).
Proof.
  intros Ha Hp Hr Hi.
  assert (Hf : List.length (functions (collected content))
               = List.length (finditer function_pattern content))
    by (unfold collected; cbn [functions]; apply length_map).
  rewrite <- Hf. unfold Driver.main.
  rewrite Ha, Hp, Hr. cbn [negb]. rewrite extract_cases, Hi.
  destruct (Driver.output_writable e).
  - split.
    + cbn [Driver.printed]. unfold Driver.counts. cbn [app In].
      do 8 right. left. reflexivity.
    + intros out [= <-] fs. reflexivity.
  - split.
    + cbn [Driver.printed]. unfold Driver.counts. cbn [In].
      do 8 right. left. reflexivity.
    + intros out H. discriminate H.
Qed.

Lemma function_count_reported_not_emitted_witness :
  In (Driver.Functions 2) (Driver.printed (Driver.main (env_reading two_functions)))
  /\ Driver.written (Driver.main (env_reading two_functions))
     = Some (generate_consolidated_migration
               (with_functions (collected two_functions) [])).
Proof.
  destruct (function_count_reported_not_emitted
              (env_reading two_functions)
              (lit "create_consolidated_migration.py") (lit "schema.sql")
              two_functions eq_refl eq_refl eq_refl eq_refl) as [Hc Hw].
  split; [exact Hc|].
  assert (E : Driver.written (Driver.main (env_reading two_functions))
              = Some (generate_consolidated_migration (collected two_functions)))
    by (vm_compute; reflexivity).
  rewrite E. rewrite <- (Hw _ E []). reflexivity.
Defined.
